(** * Token-Flight-Bot: the distribution-planning engine

    A shallow embedding of [calculate_token_distributions], [select_utxos]
    and [distribute_multiple_tokens] (distribution_bot.py and
    token_distribution.py), with the properties of the planning
    specification stated and settled against it.

    Python integers are [Z]; Python floats are IEEE-754 binary64 values,
    modelled by the rational they denote together with the rounding of every
    arithmetic operation; dictionaries whose iteration order the code depends
    on are association lists, the others are [gmap]s; exceptions are the
    [Err] results of an error monad. What lies outside the engine is a
    parameter: the platform's [math.log] and [pow], and the node's answer to
    a box lookup. Line numbers are those of distribution_bot.py;
    token_distribution.py holds the same two functions
    [calculate_token_distributions] and [distribute_multiple_tokens]. *)

From Stdlib Require Import ZArith QArith Qround Qpower Qabs Lqa Sorted.
From Stdlib Require SpecFloat.
From stdpp Require Import gmap strings list fin_maps.

Local Open Scope Z_scope.

(** ** Exceptions and the error monad *)

(** One shortfall line of [select_utxos]: token, amount needed, amount held. *)
Record shortfall := Shortfall {
  short_token : string;
  short_need : Z;
  short_have : Z
}.

Inductive exn :=
| ZeroDivisionError                       (* int // 0, int / 0, float / 0.0 *)
| MathDomainError                         (* ValueError of math.log *)
| OverflowError                           (* a float result too large *)
| InsufficientTokens (missing : list shortfall)
                                          (* ValueError "Insufficient token amounts: ..." *)
| InsufficientERG (need have : Z)         (* ValueError "Insufficient ERG: ..." *)
| NotEnoughERG (need have : Z).           (* ValueError "Not enough ERG for distribution..." *)

Inductive result (A : Type) :=
| Ok (a : A)
| Err (e : exn).
Arguments Ok {A} a.
Arguments Err {A} e.

Definition bind {A B} (m : result A) (k : A -> result B) : result B :=
  match m with
  | Ok a => k a
  | Err e => Err e
  end.

Notation "'let*' x ':=' m 'in' k" := (bind m (fun x => k))
  (at level 10, x name, m at level 100, k at level 200).

Definition is_ok {A} (m : result A) : bool :=
  match m with Ok _ => true | Err _ => false end.

(** ** Python floats *)

Module PyFloat.

Local Open Scope Q_scope.

(** binary64: 53 bits of precision, least exponent of a subnormal -1074. *)
Definition fexp (e : Z) : Z := Z.max (e - 53) (-1074).

(** The binade of a positive rational: [2^(mag q - 1) <= q < 2^(mag q)]. *)
Definition mag (q : Q) : Z :=
  let k := (Z.log2 (Qnum q) - Z.log2 (Zpos (Qden q)))%Z in
  if Qle_bool (2 ^ k) q then (k + 1)%Z else k.

(** Round to the nearest integer, ties to even. *)
Definition rne (q : Q) : Z :=
  let f := Qfloor q in
  match Qcompare (q - inject_Z f) (1 # 2) with
  | Lt => f
  | Eq => if Z.even f then f else (f + 1)%Z
  | Gt => (f + 1)%Z
  end.

Definition round_pos (q : Q) : Q :=
  let e := fexp (mag q) in
  inject_Z (rne (q / 2 ^ e)) * 2 ^ e.

(** The double nearest to a rational, ties to even, subnormals included; the
    exponent is not bounded above here, [finite] looks after that. *)
Definition fl (q : Q) : Q :=
  match Qnum q with
  | Z0 => 0
  | Zpos _ => Qred (round_pos q)
  | Zneg _ => Qred (- round_pos (- q))
  end.

(** A rounded result beyond the largest double: IEEE-754 overflow. *)
Definition overflows (q : Q) : bool := Qle_bool (2 ^ 1024) (Qabs q).

Definition finite (q : Q) : result Q :=
  if overflows q then Err OverflowError else Ok q.

(** [float(z)], the conversion [int * float] applies to its left operand;
    OverflowError for an integer too large for a double. *)
Definition of_int (z : Z) : result Q := finite (fl (inject_Z z)).

(** [a / b] on integers: the correctly rounded quotient of the two integers,
    ZeroDivisionError for a zero divisor, OverflowError out of range. *)
Definition truediv (a b : Z) : result Q :=
  if (b =? 0)%Z then Err ZeroDivisionError
  else finite (fl (inject_Z a / inject_Z b)).

(** [x / y] on floats. The quotients of logarithms it is used for stay far
    from the largest double; beyond it the model stops with OverflowError. *)
Definition div (x y : Q) : result Q :=
  if Qeq_bool y 0 then Err ZeroDivisionError else finite (fl (x / y)).

(** [x * y] on floats; a product that overflows is an infinity, which the
    conversion [int(...)] that follows in the source turns into
    OverflowError. *)
Definition mul (x y : Q) : result Q := finite (fl (x * y)).

(** The doubles next to a non-negative rational: the largest double not
    above it and the smallest double not below it. *)
Definition fl_down (q : Q) : Q :=
  if Qle_bool q 0 then 0
  else let e := fexp (mag q) in inject_Z (Qfloor (q / 2 ^ e)) * 2 ^ e.

Definition fl_up (q : Q) : Q :=
  if Qle_bool q 0 then 0
  else let e := fexp (mag q) in inject_Z (Qceiling (q / 2 ^ e)) * 2 ^ e.

(** [int(x)]: truncation toward zero. *)
Definition to_int (x : Q) : Z := Z.quot (Qnum x) (Zpos (Qden x)).

(** [math.ceil(x)]. *)
Definition ceil (x : Q) : Z := Qceiling x.

End PyFloat.

(** The Standard Library's specification of IEEE-754 arithmetic at binary64,
    against which [PyFloat.fl] is compared on the values of the examples. *)
Module Binary64.

Definition of_Z (z : Z) : SpecFloat.spec_float :=
  SpecFloat.binary_normalize 53 1024 z 0 false.

Definition div := SpecFloat.SFdiv 53 1024.
Definition mul := SpecFloat.SFmul 53 1024.

(** The rational a finite double denotes, in lowest terms. *)
Definition to_Q (x : SpecFloat.spec_float) : option Q :=
  match x with
  | SpecFloat.S754_zero _ => Some 0%Q
  | SpecFloat.S754_finite s m e =>
      Some (Qred ((if s then -1 else 1) * inject_Z (Zpos m) * 2 ^ e)%Q)
  | _ => None
  end.

End Binary64.

(** ** Data model *)

(** A record of [scan_proxy_utxos]: [{"box_id": ..., "value": ..., "tokens": {...}}]. *)
Record utxo := Utxo {
  box_id : string;
  value : Z;
  tokens : gmap string Z
}.

#[global] Instance utxo_eq_dec : EqDecision utxo.
Proof. solve_decision. Defined.

(** [Dict[str, List[Dict]]]: token identifier to the boxes listed under it, in
    insertion order (pass 1 of the selection iterates over it). *)
Abbreviation snapshot := (list (string * list utxo)).

(** [all_utxos.get(token_id, [])]. *)
Fixpoint get_utxos (all_utxos : snapshot) (tid : string) : list utxo :=
  match all_utxos with
  | [] => []
  | (k, us) :: rest => if decide (k = tid) then us else get_utxos rest tid
  end.

(** [d.get(token_id, 0)]; also [d[token_id]] where the key is known to be there. *)
Definition amount_of (d : gmap string Z) (tid : string) : Z := default 0 (d !! tid).

Inductive DistributionType := linear | logarithmic | quadratic | constant.

(** The entries of a token's configuration that the engine reads. *)
Record TokenConfig := {
  config_token_id : string;
  config_total_amount : Z;
  distribution_type : DistributionType;
  tokens_per_round : Z
}.

Record TokenDistribution := {
  token_id : string;
  amount_per_recipient : Z;
  total_amount : Z
}.

Record UTXOSet := {
  boxes : list utxo;
  total_erg : Z;
  token_amounts : gmap string Z;
  box_ids : gset string
}.

Definition NANOERG_PER_RECIPIENT : Z := 1000000.
Definition MIN_BOX_VALUE : Z := 1000000.
Definition FEE : Z := 1000000.

(** [sum(...)] over a list of integers. *)
Definition sum (l : list Z) : Z := foldr Z.add 0 l.

(** [a // b] on integers (Python floors, as [Z.div] does). *)
Definition floordiv (a b : Z) : result Z :=
  if b =? 0 then Err ZeroDivisionError else Ok (a / b).

(** [l.sort(key=..., reverse=True)]: stable, descending by key. *)
Fixpoint insert_desc {A} (key : A -> Z) (x : A) (l : list A) : list A :=
  match l with
  | [] => [x]
  | y :: l' => if key x <? key y then y :: insert_desc key x l' else x :: y :: l'
  end.

Definition sort_desc {A} (key : A -> Z) (l : list A) : list A :=
  foldr (insert_desc key) [] l.

(** ** The emission schedule and [calculate_token_distributions] *)

(** The platform's libm, as far as the engine calls it; its results are
    doubles. *)
Record math_lib := {
  libm_log : Z -> Q;      (* [math.log] on the integers from 2 on *)
  libm_pow : Q -> Q       (* [pow(x, 2.0)] on a double *)
}.

Section Emission.

Variable libm : math_lib.

(** [math.log(x)] for an integer [x]. *)
Definition math_log (x : Z) : result Q :=
  if x <=? 0 then Err MathDomainError
  else Ok (if x =? 1 then 0%Q else libm_log libm x).

(** [x ** 2] on a float: CPython hands it to the platform's [pow(x, 2.0)] and
    raises OverflowError when the result is out of range. *)
Definition pow2 (x : Q) : result Q := PyFloat.finite (libm_pow libm x).

(** [total_rounds = math.ceil(token_config["total_amount"] / base_amount)]. *)
Definition total_rounds (cfg : TokenConfig) : result Z :=
  let* q := PyFloat.truediv (config_total_amount cfg) (tokens_per_round cfg) in
  Ok (PyFloat.ceil q).

(** [int(base_amount * factor)]. *)
Definition scaled (base_amount : Z) (factor : Q) : result Z :=
  let* b := PyFloat.of_int base_amount in
  let* p := PyFloat.mul b factor in
  Ok (PyFloat.to_int p).

(** Lines 161-175: the amount a token releases in [current_round]. *)
Definition round_amount (cfg : TokenConfig) (current_round : Z) : result Z :=
  let base_amount := tokens_per_round cfg in
  let* total_rounds := total_rounds cfg in
  match distribution_type cfg with
  | linear => Ok base_amount
  | logarithmic =>
      let* num := math_log (total_rounds - current_round + 1) in
      let* den := math_log total_rounds in
      let* factor := PyFloat.div num den in
      scaled base_amount factor
  | quadratic =>
      let* x := PyFloat.truediv (total_rounds - current_round) total_rounds in
      let* factor := pow2 x in
      scaled base_amount factor
  | constant => Ok base_amount
  end.

(** [sum(utxo['tokens'].get(token_id, 0) for utxo in token_utxos)]. *)
Definition total_available (token_utxos : list utxo) (tid : string) : Z :=
  sum ((fun u => amount_of (tokens u) tid) <$> token_utxos).

(** The loop of [calculate_token_distributions], [distributions] being the
    list built so far. *)
Fixpoint calculate_loop (utxos : snapshot) (token_configs : list (string * TokenConfig))
    (current_round num_recipients : Z) (distributions : list TokenDistribution)
    : result (list TokenDistribution) :=
  match token_configs with
  | [] => Ok distributions
  | (token_name, token_config) :: rest =>
      let tid := config_token_id token_config in
      let token_utxos := get_utxos utxos tid in
      match token_utxos with
      | [] => calculate_loop utxos rest current_round num_recipients distributions
      | _ :: _ =>
          let available := total_available token_utxos tid in
          if available =? 0
          then calculate_loop utxos rest current_round num_recipients distributions
          else
            let* amount := round_amount token_config current_round in
            let* a := floordiv amount num_recipients in
            let* b := floordiv available num_recipients in
            let per_recipient := Z.min a b in
            if 0 <? per_recipient
            then calculate_loop utxos rest current_round num_recipients
                   (distributions ++
                      [{| token_id := tid;
                          amount_per_recipient := per_recipient;
                          total_amount := per_recipient * num_recipients |}])
            else calculate_loop utxos rest current_round num_recipients distributions
      end
  end.

Definition calculate_token_distributions (utxos : snapshot)
    (token_configs : list (string * TokenConfig)) (current_round num_recipients : Z)
    : result (list TokenDistribution) :=
  calculate_loop utxos token_configs current_round num_recipients [].

End Emission.

(** ** [select_utxos] *)

(** [(NANOERG_PER_RECIPIENT + MIN_BOX_VALUE) * num_recipients + FEE]. *)
Definition needed_erg (num_recipients : Z) : Z :=
  (NANOERG_PER_RECIPIENT + MIN_BOX_VALUE) * num_recipients + FEE.

(** [{dist.token_id: 0 for dist in token_distributions}]. *)
Definition initial_token_amounts (token_distributions : list TokenDistribution)
    : gmap string Z :=
  foldl (fun m dist => <[token_id dist := 0]> m) ∅ token_distributions.

Definition empty_selection (token_distributions : list TokenDistribution) : UTXOSet :=
  {| boxes := []; total_erg := 0;
     token_amounts := initial_token_amounts token_distributions;
     box_ids := ∅ |}.

(** Lines 50-54: every listed box with more than one token, in snapshot order. *)
Definition multi_token_boxes (all_utxos : snapshot) : list utxo :=
  flat_map (fun entry => filter (fun u => (1 < size (tokens u))%nat) entry.2) all_utxos.

(** The sort key of line 57:
    [sum(1 for tid in token_amounts.keys() if tid in box['tokens'])]. *)
Definition needed_tokens_held (token_amounts : gmap string Z) (box : utxo) : Z :=
  Z.of_nat (length (filter (fun tid => is_Some (tokens box !! tid))
                           (elements (dom token_amounts)))).

(** Lines 65-67: add the amounts of the requested tokens a box holds. *)
Definition add_box_tokens (token_amounts : gmap string Z) (box : utxo) : gmap string Z :=
  map_fold (fun tid amount acc =>
              match acc !! tid with
              | Some have => <[tid := have + amount]> acc
              | None => acc
              end) token_amounts (tokens box).

(** Lines 61-67: one iteration of the first pass. *)
Definition use_multi_token_box (st : UTXOSet) (box : utxo) : UTXOSet :=
  if decide (box_id box ∈ box_ids st) then st
  else {| boxes := boxes st ++ [box];
          box_ids := {[box_id box]} ∪ box_ids st;
          total_erg := total_erg st + value box;
          token_amounts := add_box_tokens (token_amounts st) box |}.

Definition first_pass (all_utxos : snapshot) (st : UTXOSet) : UTXOSet :=
  foldl use_multi_token_box st
        (sort_desc (needed_tokens_held (token_amounts st)) (multi_token_boxes all_utxos)).

(** Lines 85-88: consume a box for the token [tid] being topped up. *)
Definition use_box_for (tid : string) (st : UTXOSet) (box : utxo) : UTXOSet :=
  {| boxes := boxes st ++ [box];
     box_ids := {[box_id box]} ∪ box_ids st;
     total_erg := total_erg st + value box;
     token_amounts :=
       <[tid := amount_of (token_amounts st) tid + amount_of (tokens box) tid]>
         (token_amounts st) |}.

(** Lines 81-88: the loop over [available_boxes], left by [break] once the
    target is met. *)
Fixpoint top_up (dist : TokenDistribution) (st : UTXOSet) (available_boxes : list utxo)
    : UTXOSet :=
  match available_boxes with
  | [] => st
  | box :: rest =>
      if total_amount dist <=? amount_of (token_amounts st) (token_id dist) then st
      else top_up dist (use_box_for (token_id dist) st box) rest
  end.

(** Lines 75-79: the boxes of the token not yet used, largest amount first. *)
Definition available_boxes (all_utxos : snapshot) (st : UTXOSet) (tid : string)
    : list utxo :=
  sort_desc (fun box => amount_of (tokens box) tid)
            (filter (fun box => box_id box ∉ box_ids st) (get_utxos all_utxos tid)).

(** Lines 71-88: one iteration of the second pass. *)
Definition fill_missing (all_utxos : snapshot) (st : UTXOSet) (dist : TokenDistribution)
    : UTXOSet :=
  if amount_of (token_amounts st) (token_id dist) <? total_amount dist
  then top_up dist st (available_boxes all_utxos st (token_id dist))
  else st.

Definition second_pass (all_utxos : snapshot)
    (token_distributions : list TokenDistribution) (st : UTXOSet) : UTXOSet :=
  foldl (fill_missing all_utxos) st token_distributions.

(** The selection after both passes, before it is verified. *)
Definition two_pass_selection (all_utxos : snapshot)
    (token_distributions : list TokenDistribution) : UTXOSet :=
  second_pass all_utxos token_distributions
    (first_pass all_utxos (empty_selection token_distributions)).

(** Lines 91-94: one entry per distribution whose target is not met. *)
Definition missing_tokens (token_distributions : list TokenDistribution) (st : UTXOSet)
    : list shortfall :=
  (fun dist => Shortfall (token_id dist) (total_amount dist)
                 (amount_of (token_amounts st) (token_id dist)))
    <$> filter (fun dist => amount_of (token_amounts st) (token_id dist) < total_amount dist)
               token_distributions.

Definition select_utxos (all_utxos : snapshot)
    (token_distributions : list TokenDistribution) (num_recipients : Z) : result UTXOSet :=
  let st := two_pass_selection all_utxos token_distributions in
  match missing_tokens token_distributions st with
  | (_ :: _) as missing => Err (InsufficientTokens missing)
  | [] =>
      if total_erg st <? needed_erg num_recipients
      then Err (InsufficientERG (needed_erg num_recipients) (total_erg st))
      else Ok st
  end.

(** ** [distribute_multiple_tokens] *)

Inductive contract :=
| ToRecipient (address : string)
| ToProxy.

(** An output box as handed to [appKit.buildOutBox]. *)
Record OutBox := {
  out_value : Z;
  out_tokens : option (gmap string Z);
  out_contract : contract
}.

(** What the function hands to the transaction builder. *)
Record Plan := {
  input_boxes : list utxo;
  outputs : list OutBox
}.

(** The state of the input collection (lines 208-210). *)
Record collected := {
  inputs : list utxo;
  used_utxos : gset string;
  total_available_erg : Z
}.

Section Distribute.

(** Whether the node returns a box for an identifier
    ([appKit.getBoxesById([box_id])[0]] is truthy); the box it returns is the
    one the snapshot recorded. *)
Variable box_found : string -> bool.

(** Lines 217-229: the loop over the boxes listed under one token. *)
Fixpoint collect_token (tid : string) (st : collected) (remaining_amount : Z)
    (token_utxos : list utxo) : collected :=
  match token_utxos with
  | [] => st
  | u :: rest =>
      if decide (box_id u ∈ used_utxos st) then collect_token tid st remaining_amount rest
      else
        let '(st', remaining') :=
          if box_found (box_id u)
          then ({| inputs := inputs st ++ [u];
                   used_utxos := {[box_id u]} ∪ used_utxos st;
                   total_available_erg := total_available_erg st + value u |},
                remaining_amount - amount_of (tokens u) tid)
          else (st, remaining_amount) in
        if remaining' <=? 0 then st'
        else collect_token tid st' remaining' rest
  end.

(** Lines 213-229. *)
Definition collect_inputs (all_utxos : snapshot)
    (token_distributions : list TokenDistribution) : collected :=
  foldl (fun st dist =>
           collect_token (token_id dist) st (total_amount dist)
                         (get_utxos all_utxos (token_id dist)))
        {| inputs := []; used_utxos := ∅; total_available_erg := 0 |}
        token_distributions.

(** Lines 238-241: [{dist.token_id: dist.amount_per_recipient for dist in ...}]. *)
Definition recipient_tokens (token_distributions : list TokenDistribution)
    : gmap string Z :=
  foldl (fun m dist => <[token_id dist := amount_per_recipient dist]> m)
        ∅ token_distributions.

(** Lines 254-258: the amount of a token in the used boxes listed under it. *)
Definition used_total (all_utxos : snapshot) (used : gset string) (tid : string) : Z :=
  sum ((fun u => amount_of (tokens u) tid)
         <$> filter (fun u => box_id u ∈ used) (get_utxos all_utxos tid)).

(** Lines 252-261. *)
Definition change_tokens (all_utxos : snapshot) (used : gset string)
    (token_distributions : list TokenDistribution) : gmap string Z :=
  foldl (fun m dist =>
           let change_amount :=
             used_total all_utxos used (token_id dist) - total_amount dist in
           if 0 <? change_amount then <[token_id dist := change_amount]> m else m)
        ∅ token_distributions.

(** The plan [distribute_multiple_tokens] builds, up to the point where it is
    handed to the node for signing and submission. *)
Definition distribute_multiple_tokens (all_utxos : snapshot)
    (token_distributions : list TokenDistribution) (recipient_addresses : list string)
    : result Plan :=
  let num_recipients := Z.of_nat (length recipient_addresses) in
  let erg_per_recipient := NANOERG_PER_RECIPIENT + MIN_BOX_VALUE in
  let total_erg_needed := erg_per_recipient * num_recipients + FEE in
  let st := collect_inputs all_utxos token_distributions in
  if total_available_erg st <? total_erg_needed
  then Err (NotEnoughERG total_erg_needed (total_available_erg st))
  else
    let recipient_outputs :=
      (fun recipient =>
         {| out_value := erg_per_recipient;
            out_tokens := Some (recipient_tokens token_distributions);
            out_contract := ToRecipient recipient |}) <$> recipient_addresses in
    let change := change_tokens all_utxos (used_utxos st) token_distributions in
    let change_value := total_available_erg st - total_erg_needed in
    let change_outputs :=
      if (0 <? change_value) || negb (bool_decide (change = ∅))
      then [{| out_value := Z.max change_value MIN_BOX_VALUE;
               out_tokens := if bool_decide (change = ∅) then None else Some change;
               out_contract := ToProxy |}]
      else [] in
    Ok {| input_boxes := inputs st;
          outputs := recipient_outputs ++ change_outputs |}.

End Distribute.

(** ** The per-recipient amount as the specification words it *)

(** The distribution of one token, if any: [min(round_amount, available)]
    floor-divided by the recipient count, the token left out when that is not
    positive or when nothing of it is available. *)
Definition token_entry_spec (libm : math_lib) (utxos : snapshot)
    (current_round num_recipients : Z) (cfg : TokenConfig)
    : result (option TokenDistribution) :=
  let tid := config_token_id cfg in
  let available := total_available (get_utxos utxos tid) tid in
  if available =? 0 then Ok None
  else
    let* amount := round_amount libm cfg current_round in
    let quotient := Z.min amount available / num_recipients in
    Ok (if 0 <? quotient
        then Some {| token_id := tid;
                     amount_per_recipient := quotient;
                     total_amount := quotient * num_recipients |}
        else None).

Fixpoint distributions_spec (libm : math_lib) (utxos : snapshot)
    (token_configs : list (string * TokenConfig)) (current_round num_recipients : Z)
    : result (list TokenDistribution) :=
  match token_configs with
  | [] => Ok []
  | (_, cfg) :: rest =>
      let* entry := token_entry_spec libm utxos current_round num_recipients cfg in
      let* entries := distributions_spec libm utxos rest current_round num_recipients in
      Ok (option_list entry ++ entries)
  end.

(** ** The quadratic formula *)

(** [floor(tokens_per_round * ((total_rounds - round) / total_rounds)^2)] in
    exact arithmetic, as the specification writes it. *)
Definition quadratic_exact (tokens_per_round total_rounds round : Z) : Z :=
  Qfloor (inject_Z tokens_per_round
          * (inject_Z (total_rounds - round) / inject_Z total_rounds) ^ 2)%Q.

(** [int(base_amount * ((total_rounds - current_round) / total_rounds) ** 2)]
    as the code evaluates it: the quotient and the product rounded to the
    nearest double, the square as the platform's [pow] returns it. *)
Definition quadratic_double (libm : math_lib) (tokens_per_round total_rounds round : Z) : Z :=
  let x := PyFloat.fl (inject_Z (total_rounds - round) / inject_Z total_rounds) in
  let factor := libm_pow libm x in
  PyFloat.to_int (PyFloat.fl (PyFloat.fl (inject_Z tokens_per_round) * factor)).

(** The same with the square rounded down to a double, and rounded up. *)
Definition quadratic_low (tokens_per_round total_rounds round : Z) : Z :=
  let x := PyFloat.fl (inject_Z (total_rounds - round) / inject_Z total_rounds) in
  let factor := PyFloat.fl_down (x * x) in
  PyFloat.to_int (PyFloat.fl (PyFloat.fl (inject_Z tokens_per_round) * factor)).

Definition quadratic_high (tokens_per_round total_rounds round : Z) : Z :=
  let x := PyFloat.fl (inject_Z (total_rounds - round) / inject_Z total_rounds) in
  let factor := PyFloat.fl_up (x * x) in
  PyFloat.to_int (PyFloat.fl (PyFloat.fl (inject_Z tokens_per_round) * factor)).

(** What is assumed of [pow]: its result lies between the two doubles next
    to the exact square. A faithfully rounded [pow] returns one of the two;
    either way the result is the square itself when that is a double. *)
Definition faithful_pow (libm : math_lib) : Prop :=
  forall x, (PyFloat.fl_down (x * x) <= libm_pow libm x <= PyFloat.fl_up (x * x))%Q.

(** A [pow] that returns for [-x] what it returns for [x]. *)
Definition even_pow (libm : math_lib) : Prop :=
  forall x, libm_pow libm (- x) = libm_pow libm x.

(** The two extremes of a faithfully rounded [pow], for the closed examples:
    the square rounded down, and rounded up. The examples never evaluate
    [math.log] on an integer above 1. *)
Definition libm_down : math_lib :=
  {| libm_log := fun _ => 0%Q; libm_pow := fun x => PyFloat.fl_down (x * x) |}.

Definition libm_up : math_lib :=
  {| libm_log := fun _ => 0%Q; libm_pow := fun x => PyFloat.fl_up (x * x) |}.

(** For the examples that divide by [math.log(total_rounds)]: a logarithm
    that does not vanish. *)
Definition libm_linear_log : math_lib :=
  {| libm_log := inject_Z; libm_pow := libm_pow libm_down |}.

(** ** The selection as the specification words it *)

(** The boxes of a list whose identifier is not in [seen] and has not occurred
    earlier in the list. *)
Fixpoint first_occurrences (seen : gset string) (l : list utxo) : list utxo :=
  match l with
  | [] => []
  | u :: rest =>
      if decide (box_id u ∈ seen) then first_occurrences seen rest
      else u :: first_occurrences ({[box_id u]} ∪ seen) rest
  end.

(** Descending order of a sort key. *)
Definition descending {A} (key : A -> Z) (u v : A) : Prop := key v <= key u.

(** The selection's bookkeeping agrees with its boxes, and no identifier
    occurs twice among them. *)
Definition consistent (st : UTXOSet) : Prop :=
  NoDup (box_id <$> boxes st) /\ box_ids st = list_to_set (box_id <$> boxes st).

(** No token of the snapshot lists a box twice. *)
Definition listed_once (all_utxos : snapshot) : Prop :=
  forall tid, NoDup (box_id <$> get_utxos all_utxos tid).

(** The amount of a token a list of boxes holds. *)
Definition held (l : list utxo) (tid : string) : Z :=
  sum ((fun u => amount_of (tokens u) tid) <$> l).

(** Every box listed under a token holds some of it, as [scan_proxy_utxos]
    lists them. *)
Definition lists_only_holders (all_utxos : snapshot) : Prop :=
  forall tid u, u ∈ get_utxos all_utxos tid -> is_Some (tokens u !! tid).

(** What the selection records is what its boxes hold. *)
Definition recorded (st : UTXOSet) : Prop :=
  total_erg st = sum (value <$> boxes st) /\
  forall tid, is_Some (token_amounts st !! tid) ->
    amount_of (token_amounts st) tid = held (boxes st) tid.

(** ** Conservation as the specification words it *)

Definition is_change (o : OutBox) : bool :=
  match out_contract o with ToProxy => true | ToRecipient _ => false end.

(** The amount of a token an output carries. *)
Definition out_amount (tid : string) (o : OutBox) : Z :=
  match out_tokens o with Some m => amount_of m tid | None => 0 end.

(** The sum of the per-recipient amounts placed in the recipient outputs. *)
Definition recipients_total (plan : Plan) (tid : string) : Z :=
  sum (out_amount tid <$> List.filter (fun o => negb (is_change o)) (outputs plan)).

(** The change amount for a token. *)
Definition change_total (plan : Plan) (tid : string) : Z :=
  sum (out_amount tid <$> List.filter is_change (outputs plan)).

(** The total amount of a token held by the selected input UTXOs. *)
Definition covered_total (plan : Plan) (tid : string) : Z :=
  sum ((fun u => amount_of (tokens u) tid) <$> input_boxes plan).

Definition conserved (plan : Plan) (tid : string) : Prop :=
  recipients_total plan tid + change_total plan tid = covered_total plan tid.

(** A snapshot as [scan_proxy_utxos] builds it: no token lists a box twice,
    and an identifier stands for one record wherever it is listed. *)
Definition well_listed (all_utxos : snapshot) : Prop :=
  listed_once all_utxos /\
  forall t1 t2 u1 u2,
    u1 ∈ get_utxos all_utxos t1 -> u2 ∈ get_utxos all_utxos t2 ->
    box_id u1 = box_id u2 -> u1 = u2.

(** Every listed box that holds some of a token is listed under that token. *)
Definition lists_holders (all_utxos : snapshot) (tid : string) : Prop :=
  forall t u,
    u ∈ get_utxos all_utxos t -> amount_of (tokens u) tid <> 0 ->
    u ∈ get_utxos all_utxos tid.

(** The input collection keeps to listed boxes and takes none twice. *)
Definition collected_ok (all_utxos : snapshot) (st : collected) : Prop :=
  NoDup (box_id <$> inputs st) /\
  used_utxos st = list_to_set (box_id <$> inputs st) /\
  forall u, u ∈ inputs st -> exists t, u ∈ get_utxos all_utxos t.

(** ** Concrete inputs *)

Definition box (id : string) (erg : Z) (held : list (string * Z)) : utxo :=
  Utxo id erg (list_to_map held).

Definition distribution (tid : string) (per_recipient total : Z) : TokenDistribution :=
  {| token_id := tid; amount_per_recipient := per_recipient; total_amount := total |}.

Definition config (tid : string) (total : Z) (type : DistributionType) (per_round : Z)
    : TokenConfig :=
  {| config_token_id := tid; config_total_amount := total;
     distribution_type := type; tokens_per_round := per_round |}.

(** One box holding 5 of token A and plenty of ERG. *)
Definition snapshot_5A : snapshot := [("A", [box "b1" 10000000 [("A", 5)]])].

(** One box holding 5 of token A and no ERG. *)
Definition snapshot_5A_no_erg : snapshot := [("A", [box "b1" 0 [("A", 5)]])].

(** One box holding 12 of token A and plenty of ERG. *)
Definition snapshot_12A : snapshot := [("A", [box "b1" 10000000 [("A", 12)]])].

(** Tokens A and B, 50 of each in a box of its own. *)
Definition snapshot_AB : snapshot :=
  [("A", [box "a1" 10000000 [("A", 50)]]); ("B", [box "b1" 10000000 [("B", 50)]])].

(** Three boxes holding both A and B, listed in the order b2, b1, b3, and a box
    holding A together with a token X nobody asked for. *)
Definition snapshot_ties : snapshot :=
  [("A", [box "c" 1000000 [("A", 9); ("X", 1)];
          box "b2" 1000000 [("A", 1); ("B", 1)];
          box "b1" 1000000 [("A", 1); ("B", 1)];
          box "b3" 1000000 [("A", 1); ("B", 1)]])].

(** Box ab holds tokens A and B and is listed under both; a1 and b1 hold one
    token each. *)
Definition snapshot_shared : snapshot :=
  [("A", [box "ab" 10000000 [("A", 5); ("B", 5)]; box "a1" 1000000 [("A", 20)]]);
   ("B", [box "ab" 10000000 [("A", 5); ("B", 5)]; box "b1" 1000000 [("B", 20)]])].

(** The same box listed twice under one token. *)
Definition snapshot_twice : snapshot :=
  [("A", [box "b1" 10000000 [("A", 5)]; box "b1" 10000000 [("A", 5)]])].

(** total_amount 1000 at 100 per round: 10 rounds. *)
Definition quadratic_1000 : TokenConfig := config "A" 1000 quadratic 100.
Definition logarithmic_1000 : TokenConfig := config "A" 1000 logarithmic 100.

(** total_amount 343 at 49 per round: 7 rounds. *)
Definition quadratic_343 : TokenConfig := config "A" 343 quadratic 49.

(** 157 rounds of 24649. *)
Definition quadratic_157 : TokenConfig := config "A" 3869893 quadratic 24649.

(** total_amount 100 at 100 per round: 1 round. *)
Definition logarithmic_100 : TokenConfig := config "A" 100 logarithmic 100.

Definition linear_B : TokenConfig := config "B" 1000 linear 100.

(** * The rest of the engine *)

(** ** [scan_proxy_utxos] and the snapshot of a cycle *)

(** A box as the node returns it: identifier, value, and its tokens in the
    order [box.getTokens()] gives them. *)
Record node_box := {
  node_box_id : string;
  node_box_value : Z;
  node_box_tokens : list (string * Z)
}.

(** utxo_scanner.py, line 31:
    [{token.getId().toString(): token.getValue() for token in box.getTokens()}]. *)
Definition node_box_token_map (b : node_box) : gmap string Z :=
  foldl (fun m token => <[token.1 := token.2]> m) ∅ (node_box_tokens b).

(** Lines 35-39, the record appended for a box. *)
Definition utxo_of_box (b : node_box) : utxo :=
  Utxo (node_box_id b) (node_box_value b) (node_box_token_map b).

(** utxo_scanner.py, lines 27-39; [unspent_boxes] is what
    [appKit.getUnspentBoxes(proxy_address)] returned. *)
Definition scan_proxy_utxos (unspent_boxes : list node_box) (token_id : option string)
    : list utxo :=
  foldl (fun utxos b =>
           let box_tokens := node_box_token_map b in
           if match token_id with
              | None => true
              | Some tid => bool_decide (is_Some (box_tokens !! tid))
              end
           then utxos ++ [utxo_of_box b]
           else utxos)
        [] unspent_boxes.

(** [d[key] = v] on a dictionary kept in insertion order. *)
Fixpoint dict_set (d : snapshot) (key : string) (v : list utxo) : snapshot :=
  match d with
  | [] => [(key, v)]
  | (k, v') :: rest =>
      if decide (k = key) then (k, v) :: rest else (k, v') :: dict_set rest key v
  end.

(** distribution_bot.py, lines 358-363: the scan of one configured token,
    stored when it found boxes. *)
Definition scan_token (unspent_boxes : list node_box) (all_utxos : snapshot)
    (entry : string * TokenConfig) : snapshot :=
  let token_id := config_token_id entry.2 in
  match scan_proxy_utxos unspent_boxes (Some token_id) with
  | [] => all_utxos
  | (_ :: _) as utxos => dict_set all_utxos token_id utxos
  end.

(** distribution_bot.py, lines 355-363: the scan of every configured token at
    the start of a cycle; the node gives the same unspent boxes at each scan
    of the cycle. *)
Definition scan_all (unspent_boxes : list node_box)
    (tokens_info : list (string * TokenConfig)) : snapshot :=
  foldl (scan_token unspent_boxes) [] tokens_info.

(** ** [validate_config] *)

(** config.py, the fields of [Config] that [validate_config] reads. *)
Record Config := {
  node_url : string;
  explorer_url : string;
  api_key : string;
  network_type : string;
  node_address : string;
  recipient_wallets : list string;
  blocks_between_dispense : Z;
  config_tokens : option (list (string * TokenConfig))
}.

(** The [ValueError]s of [validate_config], by message. *)
Inductive config_error :=
| RecipientsEmpty                     (* "recipient_wallets must be a non-empty list" *)
| BlocksNotPositive                   (* "blocks_between_dispense must be positive" *)
| AmountsNotPositive (token_name : string)
                                      (* "Token amounts must be positive for ..." *)
| TokenIdMissing (token_name : string)
                                      (* "Token ID must be provided for ..." *)
| NodeFieldsMissing.                  (* "All node configuration fields must be filled" *)

(** Truth of a string: not empty. *)
Definition truthy (s : string) : bool := negb (bool_decide (s = EmptyString)).

(** config.py, lines 88-93: the loop over the tokens, [None] when it ends
    without raising. *)
Fixpoint validate_tokens (tokens : list (string * TokenConfig)) : option config_error :=
  match tokens with
  | [] => None
  | (token_name, token_config) :: rest =>
      if (config_total_amount token_config <=? 0) || (tokens_per_round token_config <=? 0)
      then Some (AmountsNotPositive token_name)
      else if negb (truthy (config_token_id token_config))
      then Some (TokenIdMissing token_name)
      else validate_tokens rest
  end.

(** config.py, lines 78-98; [None] when the configuration is accepted. *)
Definition validate_config (config : Config) : option config_error :=
  match recipient_wallets config with
  | [] => Some RecipientsEmpty
  | _ :: _ =>
      if blocks_between_dispense config <=? 0 then Some BlocksNotPositive
      else
        match config_tokens config with
        | Some ((_ :: _) as tokens) => validate_tokens tokens
        | _ =>
            if truthy (node_url config) && truthy (explorer_url config)
               && truthy (api_key config) && truthy (network_type config)
               && truthy (node_address config)
            then None
            else Some NodeFieldsMissing
        end
  end.

(** ** [distribute_tokens] *)

Section DistributeTokens.

(** Whether [appKit.getBoxesById([box_id])] returns a box. *)
Variable box_found : string -> bool.

(** token_distribution.py, lines 13-107: the single-token distribution. The
    result is [None] where the function returns before building a
    transaction, and the plan handed to the transaction builder otherwise. *)
Definition distribute_tokens (utxos : list utxo) (token_id : string)
    (recipient_addresses : list string) (tokens_per_round : Z) : result (option Plan) :=
  let total_available_erg := sum (value <$> utxos) in
  let total_available_tokens := sum ((fun u => amount_of (tokens u) token_id) <$> utxos) in
  if total_available_tokens <? tokens_per_round then Ok None
  else
    let num_recipients := Z.of_nat (length recipient_addresses) in
    let* tokens_per_recipient := floordiv tokens_per_round num_recipients in
    if tokens_per_recipient =? 0 then Ok None
    else
      let erg_per_recipient := NANOERG_PER_RECIPIENT + MIN_BOX_VALUE in
      let total_erg_needed := erg_per_recipient * num_recipients + FEE + MIN_BOX_VALUE in
      if total_available_erg <? total_erg_needed then Ok None
      else
        let input_boxes := List.filter (fun u => box_found (box_id u)) utxos in
        match input_boxes with
        | [] => Ok None
        | _ :: _ =>
            let recipient_outputs :=
              (fun recipient =>
                 {| out_value := erg_per_recipient;
                    out_tokens := Some {[ token_id := tokens_per_recipient ]};
                    out_contract := ToRecipient recipient |}) <$> recipient_addresses in
            let total_erg_used := erg_per_recipient * num_recipients + FEE in
            let total_tokens_used := tokens_per_recipient * num_recipients in
            let change_value := total_available_erg - total_erg_used in
            let change_tokens := total_available_tokens - total_tokens_used in
            let change_outputs :=
              if (0 <? change_value) || (0 <? change_tokens)
              then [{| out_value := Z.max change_value MIN_BOX_VALUE;
                       out_tokens := if 0 <? change_tokens
                                     then Some {[ token_id := change_tokens ]}
                                     else None;
                       out_contract := ToProxy |}]
              else [] in
            Ok (Some {| input_boxes := input_boxes;
                        outputs := recipient_outputs ++ change_outputs |})
        end.

End DistributeTokens.

(** ** A cycle of [main] *)

(** What a call passes as [all_utxos]: the dictionary that the signature of
    [distribute_multiple_tokens] declares, or a list of boxes. *)
Inductive utxos_argument :=
| AsDict (all_utxos : snapshot)
| AsList (selected_boxes : list utxo).

(** What a cycle can see raised, besides the exceptions of the engine. *)
Inductive cycle_exn :=
| Raised (e : exn)
| BoxNoLongerAvailable        (* ValueError "Box ... no longer available" *)
| StopIteration               (* [next] on a generator that yields nothing *)
| AttributeError.             (* 'list' object has no attribute 'get' *)

(** [except ValueError]: [math.log] and the three checks of the engine raise
    ValueError; ZeroDivisionError and OverflowError are ArithmeticErrors. *)
Definition is_value_error (e : cycle_exn) : bool :=
  match e with
  | Raised (MathDomainError | InsufficientTokens _ | InsufficientERG _ _ | NotEnoughERG _ _)
  | BoxNoLongerAvailable => true
  | _ => false
  end.

(** [distribute_multiple_tokens] on the argument it is given. Nothing touches
    [all_utxos] before [all_utxos.get] in the first iteration of the loop over
    the distributions (line 214); a list has no [get]. *)
Definition distribute_multiple_tokens_on (box_found : string -> bool)
    (all_utxos : utxos_argument) (token_distributions : list TokenDistribution)
    (recipient_addresses : list string) : Plan + cycle_exn :=
  let run d :=
    match distribute_multiple_tokens box_found d token_distributions recipient_addresses with
    | Ok plan => inl plan
    | Err e => inr (Raised e)
    end in
  match all_utxos with
  | AsDict d => run d
  | AsList _ =>
      match token_distributions with
      | [] => run []
      | _ :: _ => inr AttributeError
      end
  end.

(** How a cycle ends, by the message it logs. *)
Inductive cycle_outcome :=
| NoUtxosAvailable                    (* "No UTXOs available" *)
| NoTokensReady                       (* "No tokens ready for distribution this round" *)
| SelectionFailed (e : cycle_exn)     (* "UTXO selection failed: ..." *)
| PlanningError (e : cycle_exn)       (* "Error planning distribution: ..." *)
| Distributed (plan : Plan).          (* "Successfully distributed tokens ..." *)

Section Cycle.

Variable libm : math_lib.

(** More than 30 seconds have passed since the scan (line 388). *)
Variable stale : bool.

(** Whether the node returns a box at the rescan (line 391) and when the
    inputs are collected (line 221). *)
Variable box_found_rescan box_found : string -> bool.

(** Lines 397-400: [next] finds the name of each distribution's token. *)
Definition names_found (tokens_info : list (string * TokenConfig))
    (token_distributions : list TokenDistribution) : bool :=
  forallb (fun dist =>
             existsb (fun entry : string * TokenConfig =>
                        bool_decide (config_token_id entry.2 = token_id dist))
                     tokens_info)
          token_distributions.

(** Lines 386-410, once the selection is made. *)
Definition execute_selection (tokens_info : list (string * TokenConfig))
    (utxo_set : UTXOSet) (token_distributions : list TokenDistribution)
    (recipient_wallets : list string) : Plan + cycle_exn :=
  if stale && negb (forallb box_found_rescan (elements (box_ids utxo_set)))
  then inr BoxNoLongerAvailable
  else if negb (names_found tokens_info token_distributions)
  then inr StopIteration
  else distribute_multiple_tokens_on box_found (AsList (boxes utxo_set))
         token_distributions recipient_wallets.

(** distribution_bot.py, lines 354-423: one pass through the body of the
    loop of [main], on what the node returns as unspent boxes. *)
Definition cycle (unspent_boxes : list node_box) (tokens_info : list (string * TokenConfig))
    (current_round : Z) (recipient_wallets : list string) : cycle_outcome :=
  let num_recipients := Z.of_nat (length recipient_wallets) in
  match scan_all unspent_boxes tokens_info with
  | [] => NoUtxosAvailable
  | (_ :: _) as all_utxos =>
      match calculate_token_distributions libm all_utxos tokens_info current_round
              num_recipients with
      | Err e => PlanningError (Raised e)
      | Ok [] => NoTokensReady
      | Ok ((_ :: _) as token_distributions) =>
          let attempt :=
            match select_utxos all_utxos token_distributions num_recipients with
            | Err e => inr (Raised e)
            | Ok utxo_set =>
                execute_selection tokens_info utxo_set token_distributions recipient_wallets
            end in
          match attempt with
          | inl plan => Distributed plan
          | inr e => if is_value_error e then SelectionFailed e else PlanningError e
          end
      end
  end.

End Cycle.

(** ** Measures of a plan *)

(** The ERG the outputs of a plan carry. *)
Definition outputs_erg (plan : Plan) : Z := sum (out_value <$> outputs plan).

(** The ERG the inputs of a plan bring. *)
Definition inputs_erg (plan : Plan) : Z := sum (value <$> input_boxes plan).

(** The boxes the snapshot lists, under whatever token. *)
Definition listed (all_utxos : snapshot) (u : utxo) : Prop :=
  exists tid, u ∈ get_utxos all_utxos tid.

(** No listed box holds a negative amount of a token. *)
Definition amounts_nonnegative (all_utxos : snapshot) : Prop :=
  forall u tid, listed all_utxos u -> 0 <= amount_of (tokens u) tid.

(** ** More concrete inputs *)

Definition node_boxes_AB : list node_box :=
  [ {| node_box_id := "n1"; node_box_value := 10000000;
       node_box_tokens := [("A", 40); ("B", 7)] |};
    {| node_box_id := "n2"; node_box_value := 10000000;
       node_box_tokens := [("A", 60)] |};
    {| node_box_id := "n3"; node_box_value := 10000000;
       node_box_tokens := [("X", 1)] |} ].

Definition linear_A : TokenConfig := config "A" 1000 linear 100.

(** Token A in three boxes of 3, 9 and 5. *)
Definition snapshot_395 : snapshot :=
  [("A", [box "b3" 1000000 [("A", 3)];
          box "b9" 1000000 [("A", 9)];
          box "b5" 1000000 [("A", 5)]])].

Definition tokens_info_AB : list (string * TokenConfig) :=
  [("a", linear_A); ("b", linear_B)].

Definition config_AB : Config :=
  {| node_url := ""; explorer_url := ""; api_key := ""; network_type := "";
     node_address := "9f"; recipient_wallets := ["r1"; "r2"];
     blocks_between_dispense := 5; config_tokens := Some tokens_info_AB |}.

(** One token of each kind of schedule. *)
Definition tokens_info_schedules : list (string * TokenConfig) :=
  [("a", linear_A); ("q", quadratic_1000); ("l", logarithmic_100)].

Definition config_schedules : Config :=
  {| node_url := ""; explorer_url := ""; api_key := ""; network_type := "";
     node_address := "9f"; recipient_wallets := ["r1"; "r2"];
     blocks_between_dispense := 5; config_tokens := Some tokens_info_schedules |}.

(** * Properties *)

(** ** Rounding to a double is monotone *)

Module PyFloatFacts.
Import PyFloat.
Local Open Scope Q_scope.

Lemma pow2_pos e : 0 < 2 ^ e.
Proof. apply Qpower_0_lt. reflexivity. Qed.

Lemma pow2_add a b : 2 ^ (a + b) == 2 ^ a * 2 ^ b.
Proof. apply Qpower_plus. discriminate. Qed.

Lemma pow2_le a b : (a <= b)%Z -> 2 ^ a <= 2 ^ b.
Proof. intros. apply Qpower_le_compat_l; [done | discriminate]. Qed.

Lemma pow2_inject n : (0 <= n)%Z -> inject_Z (2 ^ n) == 2 ^ n.
Proof. intros. apply (Zpower_Qpower 2 n). done. Qed.

Lemma Q_as_ratio (q : Q) : q * inject_Z (Zpos (Qden q)) == inject_Z (Qnum q).
Proof.
  destruct q as [n d]. unfold Qeq, Qmult, inject_Z. simpl. lia.
Qed.

Lemma mag_spec q : 0 < q -> 2 ^ (mag q - 1) <= q /\ q < 2 ^ mag q.
Proof.
  intros Hq.
  assert (Hn : (0 < Qnum q)%Z).
  { destruct q as [n d]. unfold Qlt in Hq. simpl in *. lia. }
  pose proof (Z.log2_spec _ Hn) as [Hn1 Hn2].
  pose proof (Z.log2_spec (Zpos (Qden q)) eq_refl) as [Hd1 Hd2].
  pose proof (Z.log2_nonneg (Qnum q)) as Hln.
  pose proof (Z.log2_nonneg (Zpos (Qden q))) as Hld.
  pose proof (Q_as_ratio q) as Hr.
  unfold mag.
  set (ln := Z.log2 (Qnum q)) in *. set (ld := Z.log2 (Zpos (Qden q))) in *.
  assert (HN1 : 2 ^ ln <= inject_Z (Qnum q)).
  { rewrite <- pow2_inject by done. rewrite <- Zle_Qle. done. }
  assert (HN2 : inject_Z (Qnum q) < 2 ^ (ln + 1)).
  { rewrite <- pow2_inject by lia. rewrite <- Zlt_Qlt. done. }
  assert (HD1 : 2 ^ ld <= inject_Z (Zpos (Qden q))).
  { rewrite <- pow2_inject by done. rewrite <- Zle_Qle. done. }
  assert (HD2 : inject_Z (Zpos (Qden q)) < 2 ^ (ld + 1)).
  { rewrite <- pow2_inject by lia. rewrite <- Zlt_Qlt. done. }
  assert (E1 : 2 ^ (ln - ld + 1) * 2 ^ ld == 2 ^ (ln + 1)).
  { rewrite <- pow2_add. f_equiv. lia. }
  assert (E2 : 2 ^ (ln - ld - 1) * 2 ^ (ld + 1) == 2 ^ ln).
  { rewrite <- pow2_add. f_equiv. lia. }
  pose proof (pow2_pos ld) as P1. pose proof (pow2_pos (ld + 1)) as P2.
  pose proof (pow2_pos (ln - ld + 1)) as P3. pose proof (pow2_pos (ln - ld - 1)) as P4.
  assert (U : q < 2 ^ (ln - ld + 1)).
  { generalize dependent (2 ^ (ln - ld + 1)). generalize dependent (2 ^ ld).
    generalize dependent (2 ^ (ln + 1)).
    generalize dependent (inject_Z (Qnum q)). generalize dependent (inject_Z (Zpos (Qden q))).
    intros. nra. }
  assert (L : 2 ^ (ln - ld - 1) <= q).
  { generalize dependent (2 ^ (ln - ld - 1)). generalize dependent (2 ^ (ld + 1)).
    generalize dependent (2 ^ ln).
    generalize dependent (inject_Z (Qnum q)). generalize dependent (inject_Z (Zpos (Qden q))).
    intros. nra. }
  destruct (Qle_bool (2 ^ (ln - ld)) q) eqn:Hb.
  - apply Qle_bool_iff in Hb. split; [| done].
    replace (ln - ld + 1 - 1)%Z with (ln - ld)%Z by lia. done.
  - split; [done |].
    apply Qnot_le_lt. intros H. apply Qle_bool_iff in H. congruence.
Qed.

Lemma mag_mono x y : 0 < x -> x <= y -> (mag x <= mag y)%Z.
Proof.
  intros Hx Hxy.
  destruct (mag_spec x Hx) as [Lx _].
  destruct (mag_spec y) as [_ Uy]; [lra |].
  destruct (Z_lt_le_dec (mag y) (mag x)) as [Hlt | ]; [| done].
  pose proof (pow2_le (mag y) (mag x - 1) ltac:(lia)). lra.
Qed.

Lemma rne_bounds q : (Qfloor q <= rne q <= Qfloor q + 1)%Z.
Proof.
  unfold rne. destruct (Qcompare _ _); [destruct (Z.even _) | |]; lia.
Qed.

Lemma rne_Z k : rne (inject_Z k) = k.
Proof.
  unfold rne. rewrite Qfloor_Z.
  destruct (Qcompare_spec (inject_Z k - inject_Z k) (1 # 2)); [lra | done | lra].
Qed.

Lemma rne_mono x y : x <= y -> (rne x <= rne y)%Z.
Proof.
  intros Hxy.
  pose proof (Qfloor_resp_le _ _ Hxy) as Hf.
  destruct (Z.eq_dec (Qfloor x) (Qfloor y)) as [E | N].
  - unfold rne. rewrite <- E.
    destruct (Qcompare_spec (x - inject_Z (Qfloor x)) (1 # 2));
      destruct (Qcompare_spec (y - inject_Z (Qfloor x)) (1 # 2));
      try destruct (Z.even (Qfloor x)); try lia; lra.
  - pose proof (rne_bounds x). pose proof (rne_bounds y). lia.
Qed.

Lemma rne_le_Z q k : q <= inject_Z k -> (rne q <= k)%Z.
Proof. intros H. rewrite <- (rne_Z k). by apply rne_mono. Qed.

Lemma rne_ge_Z q k : inject_Z k <= q -> (k <= rne q)%Z.
Proof. intros H. rewrite <- (rne_Z k). by apply rne_mono. Qed.

Lemma scale_le x y e : x <= y -> x / 2 ^ e <= y / 2 ^ e.
Proof.
  intros H. unfold Qdiv. apply Qmult_le_compat_r; [done |].
  apply Qinv_le_0_compat, Qlt_le_weak, pow2_pos.
Qed.

Lemma pow2_div a b : 2 ^ a / 2 ^ b == 2 ^ (a - b).
Proof.
  assert (H : 2 ^ a == 2 ^ (a - b) * 2 ^ b).
  { rewrite <- pow2_add. f_equiv. lia. }
  rewrite H. pose proof (pow2_pos b) as Hb.
  generalize dependent (2 ^ b). generalize (2 ^ (a - b)).
  intros p q _ Hq. field. lra.
Qed.

Lemma round_pos_le_pow2 x e :
  (fexp (mag x) <= e)%Z -> x <= 2 ^ e -> round_pos x <= 2 ^ e.
Proof.
  intros He Hx. unfold round_pos. set (c := fexp (mag x)) in *.
  assert (H : (rne (x / 2 ^ c) <= 2 ^ (e - c))%Z).
  { apply rne_le_Z. rewrite pow2_inject by lia. rewrite <- pow2_div.
    by apply scale_le. }
  rewrite Zle_Qle in H. rewrite pow2_inject in H by lia.
  apply Qle_trans with (2 ^ (e - c) * 2 ^ c).
  - apply Qmult_le_compat_r; [done | apply Qlt_le_weak, pow2_pos].
  - rewrite <- pow2_add. apply pow2_le. lia.
Qed.

Lemma round_pos_ge_pow2 x e :
  (fexp (mag x) <= e)%Z -> 2 ^ e <= x -> 2 ^ e <= round_pos x.
Proof.
  intros He Hx. unfold round_pos. set (c := fexp (mag x)) in *.
  assert (H : (2 ^ (e - c) <= rne (x / 2 ^ c))%Z).
  { apply rne_ge_Z. rewrite pow2_inject by lia. rewrite <- pow2_div.
    by apply scale_le. }
  rewrite Zle_Qle in H. rewrite pow2_inject in H by lia.
  apply Qle_trans with (2 ^ (e - c) * 2 ^ c).
  - rewrite <- pow2_add. apply pow2_le. lia.
  - apply Qmult_le_compat_r; [done | apply Qlt_le_weak, pow2_pos].
Qed.

Lemma round_pos_mono x y : 0 < x -> x <= y -> round_pos x <= round_pos y.
Proof.
  intros Hx Hxy.
  pose proof (mag_mono x y Hx Hxy) as Hm.
  destruct (mag_spec x Hx) as [_ Ux].
  destruct (mag_spec y) as [Ly _]; [lra |].
  destruct (Z.eq_dec (fexp (mag x)) (fexp (mag y))) as [E | N].
  - unfold round_pos. rewrite E.
    apply Qmult_le_compat_r; [| apply Qlt_le_weak, pow2_pos].
    rewrite <- Zle_Qle. apply rne_mono. by apply scale_le.
  - assert (Hlt : (mag x < mag y)%Z).
    { destruct (Z.eq_dec (mag x) (mag y)) as [E' | ]; [by rewrite E' in N | lia]. }
    pose proof (pow2_le (mag x) (mag y - 1) ltac:(lia)) as Hp.
    apply Qle_trans with (2 ^ (mag y - 1)).
    + apply round_pos_le_pow2; [unfold fexp in *; lia | lra].
    + apply round_pos_ge_pow2; [unfold fexp in *; lia | done].
Qed.

Lemma round_pos_nonneg x : 0 <= x -> 0 <= round_pos x.
Proof.
  intros Hx. unfold round_pos. apply Qmult_le_0_compat.
  - change 0 with (inject_Z 0). rewrite <- Zle_Qle. apply rne_ge_Z.
    apply Qle_shift_div_l; [apply pow2_pos | by rewrite Qmult_0_l].
  - apply Qlt_le_weak, pow2_pos.
Qed.

Lemma Qnum_pos q : 0 < q <-> (0 < Qnum q)%Z.
Proof. destruct q as [n d]. unfold Qlt. simpl. lia. Qed.

Lemma Qnum_zero q : q == 0 <-> Qnum q = 0%Z.
Proof. destruct q as [n d]. unfold Qeq. simpl. lia. Qed.

Lemma fl_pos q : 0 < q -> fl q == round_pos q.
Proof.
  intros H. apply Qnum_pos in H. unfold fl.
  destruct (Qnum q); try lia. apply Qred_correct.
Qed.

Lemma fl_zero q : q == 0 -> fl q = 0.
Proof. intros H. apply Qnum_zero in H. unfold fl. by rewrite H. Qed.

Lemma fl_nonneg q : 0 <= q -> 0 <= fl q.
Proof.
  intros H. destruct (Qlt_le_dec 0 q) as [Hp | Hz].
  - rewrite fl_pos by done. by apply round_pos_nonneg.
  - rewrite fl_zero; [done | lra].
Qed.

(** Rounding is monotone (on the non-negative values the engine computes with). *)
Lemma fl_mono x y : 0 <= x -> x <= y -> fl x <= fl y.
Proof.
  intros Hx Hxy. destruct (Qlt_le_dec 0 x) as [Hp | Hz].
  - rewrite !fl_pos by lra. by apply round_pos_mono.
  - rewrite (fl_zero x) by lra. apply fl_nonneg. lra.
Qed.

Lemma fl_one : fl 1 == 1.
Proof. by vm_compute. Qed.

Lemma fl_big : fl (2 ^ 1023) == 2 ^ 1023.
Proof. by vm_compute. Qed.

(** [fl] agrees with the Standard Library's binary64 operations on
    quotients and products of the kind the schedules compute. *)
Lemma fl_agrees_with_binary64 :
  let x := Binary64.div (Binary64.of_Z 7) (Binary64.of_Z 10) in
  let y := Binary64.mul x x in
  let p := Binary64.mul (Binary64.of_Z 100) y in
  Binary64.to_Q x = Some (fl (7 / 10)) /\
  Binary64.to_Q y = Some (fl (fl (7 / 10) * fl (7 / 10))) /\
  Binary64.to_Q p = Some (fl (fl 100 * fl (fl (7 / 10) * fl (7 / 10)))) /\
  Binary64.to_Q (Binary64.div (Binary64.of_Z 4) (Binary64.of_Z 7)) = Some (fl (4 / 7)) /\
  Binary64.to_Q (Binary64.div (Binary64.of_Z 1000) (Binary64.of_Z 100))
  = Some (fl (1000 / 100)).
Proof. vm_compute. repeat split; reflexivity. Qed.

End PyFloatFacts.

(** ** [calculate_token_distributions] *)

Lemma min_floordiv a b n : 0 < n -> Z.min (a / n) (b / n) = Z.min a b / n.
Proof.
  intros Hn. destruct (Z.le_ge_cases a b) as [H | H].
  - rewrite (Z.min_l a b) by done. apply Z.min_l. by apply Z.div_le_mono.
  - rewrite (Z.min_r a b) by lia. apply Z.min_r. apply Z.div_le_mono; lia.
Qed.

Lemma bind_ok {A B} (m : result A) (k : A -> result B) b :
  bind m k = Ok b <-> exists a, m = Ok a /\ k a = Ok b.
Proof.
  destruct m; simpl; split.
  - eauto.
  - by intros (? & [= ->] & ?).
  - done.
  - by intros (? & ? & ?).
Qed.

Lemma calculate_loop_spec libm utxos cfgs r n acc :
  0 < n ->
  calculate_loop libm utxos cfgs r n acc =
  (let* entries := distributions_spec libm utxos cfgs r n in Ok (acc ++ entries)).
Proof.
  intros Hn. revert acc. induction cfgs as [| [name cfg] rest IH]; intros acc; simpl.
  - by rewrite app_nil_r.
  - unfold token_entry_spec.
    destruct (get_utxos utxos (config_token_id cfg)) as [| u us] eqn:Hget.
    + simpl. rewrite IH. by destruct (distributions_spec _ _ _ _ _).
    + set (available := total_available (u :: us) (config_token_id cfg)).
      destruct (available =? 0) eqn:Hav.
      * simpl. rewrite IH. by destruct (distributions_spec _ _ _ _ _).
      * destruct (round_amount libm cfg r) as [amount | e]; [| done]. simpl.
        unfold floordiv. replace (n =? 0) with false by lia. simpl.
        rewrite min_floordiv by done.
        destruct (0 <? Z.min amount available / n); rewrite IH;
          destruct (distributions_spec _ _ _ _ _); simpl; try done.
        by rewrite <- app_assoc.
Qed.

Lemma distributions_spec_entries libm utxos cfgs r n ds :
  distributions_spec libm utxos cfgs r n = Ok ds ->
  forall d, d ∈ ds ->
    exists name cfg amount,
      (name, cfg) ∈ cfgs /\ token_id d = config_token_id cfg /\
      round_amount libm cfg r = Ok amount /\
      amount_per_recipient d
      = Z.min amount (total_available (get_utxos utxos (config_token_id cfg))
                        (config_token_id cfg)) / n /\
      0 < amount_per_recipient d /\
      total_amount d = amount_per_recipient d * n.
Proof.
  revert ds. induction cfgs as [| [name cfg] rest IH]; intros ds; simpl.
  - intros [= <-] d Hd. by apply elem_of_nil in Hd.
  - intros (entry & Hentry & (entries & Hrest & [= <-])%bind_ok)%bind_ok d Hd.
    apply elem_of_app in Hd as [Hd | Hd].
    + unfold token_entry_spec in Hentry.
      destruct (_ =? 0); [injection Hentry as <-; by apply elem_of_nil in Hd |].
      apply bind_ok in Hentry as (amount & Hamount & [= <-]).
      destruct (Z.ltb_spec 0
                  (Z.min amount (total_available (get_utxos utxos (config_token_id cfg))
                                   (config_token_id cfg)) / n)) as [Hpos | _];
        [| by apply elem_of_nil in Hd].
      apply list_elem_of_singleton in Hd as ->.
      exists name, cfg, amount. split; [apply list_elem_of_here | done].
    + destruct (IH entries Hrest d Hd) as (name' & cfg' & amount & Hin & H).
      exists name', cfg', amount. split; [by apply list_elem_of_further | done].
Qed.

(** C6: with a positive recipient count, [calculate_token_distributions]
    returns (or raises) exactly what the specification's wording gives: per
    token, [min(round_amount, available) // recipients] as the per-recipient
    amount and that amount times the recipient count as the total, the token
    being left out altogether when the quotient is not positive or when its
    available total is 0. Every distribution returned is that of a configured
    token, with a positive per-recipient amount of that value. *)
Theorem calculate_token_distributions_per_recipient
    libm utxos token_configs current_round num_recipients :
  0 < num_recipients ->
  calculate_token_distributions libm utxos token_configs current_round num_recipients
  = distributions_spec libm utxos token_configs current_round num_recipients /\
  forall ds,
    calculate_token_distributions libm utxos token_configs current_round
      num_recipients = Ok ds ->
    forall d, d ∈ ds ->
      exists name cfg amount,
        (name, cfg) ∈ token_configs /\ token_id d = config_token_id cfg /\
        round_amount libm cfg current_round = Ok amount /\
        amount_per_recipient d
        = Z.min amount (total_available (get_utxos utxos (config_token_id cfg))
                          (config_token_id cfg)) / num_recipients /\
        0 < amount_per_recipient d /\
        total_amount d = amount_per_recipient d * num_recipients.
Proof.
  intros Hn.
  assert (Heq : calculate_token_distributions libm utxos token_configs current_round
                  num_recipients
                = distributions_spec libm utxos token_configs current_round
                    num_recipients).
  { unfold calculate_token_distributions. rewrite calculate_loop_spec by done.
    by destruct (distributions_spec _ _ _ _ _). }
  split; [done |]. intros ds Hds. rewrite Heq in Hds.
  by apply distributions_spec_entries.
Qed.

Lemma total_available_nil tid : total_available [] tid = 0.
Proof. done. Qed.

Lemma calculate_loop_aborts libm utxos pre name cfg post r n e acc :
  total_available (get_utxos utxos (config_token_id cfg)) (config_token_id cfg) <> 0 ->
  round_amount libm cfg r = Err e ->
  exists e', calculate_loop libm utxos (pre ++ (name, cfg) :: post) r n acc = Err e'.
Proof.
  intros Hav Herr. revert acc.
  induction pre as [| [name' cfg'] pre IH]; intros acc; simpl.
  - destruct (get_utxos utxos (config_token_id cfg)) as [| u us]; [done |].
    apply Z.eqb_neq in Hav. rewrite Hav, Herr. simpl. eauto.
  - destruct (get_utxos utxos (config_token_id cfg')) as [| u' us']; [apply IH |].
    destruct (_ =? 0); [apply IH |].
    destruct (round_amount libm cfg' r); simpl; [| eauto].
    destruct (floordiv _ n); simpl; [| eauto].
    destruct (floordiv _ n); simpl; [| eauto].
    destruct (0 <? _); apply IH.
Qed.

(** C8 (as the code has it): a failure of one token's emission calculation is
    not isolated. Whenever the calculation raises for a configured token that
    has a non-zero available total, [calculate_token_distributions] raises as
    well and returns no distribution, neither of the tokens configured before
    it nor of those after it. *)
Theorem calculate_token_distributions_aborts
    libm utxos pre name cfg post current_round num_recipients e :
  total_available (get_utxos utxos (config_token_id cfg)) (config_token_id cfg) <> 0 ->
  round_amount libm cfg current_round = Err e ->
  exists e',
    calculate_token_distributions libm utxos (pre ++ (name, cfg) :: post)
      current_round num_recipients = Err e'.
Proof. intros. by eapply calculate_loop_aborts. Qed.

(** Without recipients the first token with a non-zero available total ends
    the call: with the error of its emission calculation if that raises, with
    the division by zero of line 179 otherwise. *)
Lemma calculate_loop_no_recipients libm utxos pre name cfg post r acc :
  Forall (fun entry =>
            total_available (get_utxos utxos (config_token_id entry.2))
              (config_token_id entry.2) = 0) pre ->
  total_available (get_utxos utxos (config_token_id cfg)) (config_token_id cfg) <> 0 ->
  calculate_loop libm utxos (pre ++ (name, cfg) :: post) r 0 acc
  = Err (match round_amount libm cfg r with
         | Err e => e
         | Ok _ => ZeroDivisionError
         end).
Proof.
  intros Hpre Hav. induction Hpre as [| [name' cfg'] pre Hz _ IH]; simpl.
  - destruct (get_utxos utxos (config_token_id cfg)) as [| u us]; [done |].
    apply Z.eqb_neq in Hav. rewrite Hav.
    by destruct (round_amount libm cfg r).
  - simpl in Hz. destruct (get_utxos utxos (config_token_id cfg')) as [| u' us']; [done |].
    by rewrite Hz.
Qed.

Lemma first_available_token utxos (cfgs : list (string * TokenConfig)) :
  (exists name cfg, (name, cfg) ∈ cfgs /\
     0 < total_available (get_utxos utxos (config_token_id cfg)) (config_token_id cfg)) ->
  exists pre name cfg post,
    cfgs = pre ++ (name, cfg) :: post /\
    Forall (fun entry =>
              total_available (get_utxos utxos (config_token_id entry.2))
                (config_token_id entry.2) = 0) pre /\
    total_available (get_utxos utxos (config_token_id cfg)) (config_token_id cfg) <> 0.
Proof.
  induction cfgs as [| [name' cfg'] rest IH]; intros (name & cfg & Hin & Hpos).
  - by apply elem_of_nil in Hin.
  - destruct (Z.eq_dec (total_available (get_utxos utxos (config_token_id cfg'))
                          (config_token_id cfg')) 0) as [Hz | Hnz].
    + destruct IH as (pre & name0 & cfg0 & post & -> & Hpre & Hav).
      { apply elem_of_cons in Hin as [[= -> ->] | Hin]; [lia | eauto]. }
      exists ((name', cfg') :: pre), name0, cfg0, post.
      split; [done |]. split; [by constructor | done].
    + exists [], name', cfg', rest. split; [done |]. split; [constructor | done].
Qed.

(** C9 (as the code has it): with a recipient count of 0 the call never
    returns a result when a configured token has a positive available total.
    What it raises is decided by the first configured token whose available
    total is not 0: the error of that token's emission calculation if it
    raises (a math domain error, say), and otherwise the division-by-zero
    error of the unguarded integer division; the tokens configured after it
    are not looked at. In particular the error is the division by zero
    whenever the emission calculations of all the configured tokens
    succeed. *)
Theorem calculate_token_distributions_zero_recipients
    libm utxos token_configs current_round :
  (exists name cfg, (name, cfg) ∈ token_configs /\
     0 < total_available (get_utxos utxos (config_token_id cfg)) (config_token_id cfg)) ->
  (exists pre name cfg post,
     token_configs = pre ++ (name, cfg) :: post /\
     Forall (fun entry =>
               total_available (get_utxos utxos (config_token_id entry.2))
                 (config_token_id entry.2) = 0) pre /\
     total_available (get_utxos utxos (config_token_id cfg)) (config_token_id cfg) <> 0 /\
     calculate_token_distributions libm utxos token_configs current_round 0
     = Err (match round_amount libm cfg current_round with
            | Err e => e
            | Ok _ => ZeroDivisionError
            end)) /\
  ((forall name cfg, (name, cfg) ∈ token_configs ->
      is_ok (round_amount libm cfg current_round) = true) ->
   calculate_token_distributions libm utxos token_configs current_round 0
   = Err ZeroDivisionError).
Proof.
  intros Hsome.
  destruct (first_available_token utxos token_configs Hsome)
    as (pre & name & cfg & post & -> & Hpre & Hav).
  pose proof (calculate_loop_no_recipients libm utxos pre name cfg post current_round []
                Hpre Hav) as Hres.
  split.
  - exists pre, name, cfg, post. by repeat split.
  - intros Hok. unfold calculate_token_distributions. rewrite Hres.
    specialize (Hok name cfg).
    destruct (round_amount libm cfg current_round); [done |].
    discriminate Hok. apply elem_of_app. right. apply list_elem_of_here.
Qed.

(** ** The emission formulas *)

Module EmissionFacts.
Import PyFloat PyFloatFacts.
Local Open Scope Q_scope.

Lemma finite_ok q : 0 <= q -> q <= 2 ^ 1023 -> finite (fl q) = Ok (fl q).
Proof.
  intros H0 H1. unfold finite, overflows.
  destruct (Qle_bool _ _) eqn:Hb; [| done].
  apply Qle_bool_iff in Hb. rewrite Qabs_pos in Hb by by apply fl_nonneg.
  pose proof (fl_mono _ _ H0 H1) as Hm. rewrite fl_big in Hm.
  assert (Hlt : 2 ^ 1023 < 2 ^ 1024) by done.
  exfalso. apply (Qlt_irrefl (2 ^ 1023)).
  eapply Qlt_le_trans; [apply Hlt |]. by eapply Qle_trans.
Qed.

Lemma to_int_floor x : 0 <= x -> to_int x = Qfloor x.
Proof.
  destruct x as [n d]. unfold Qle, to_int, Qfloor. simpl. intros H.
  apply Z.quot_div_nonneg; lia.
Qed.

Lemma to_int_mono x y : 0 <= x -> x <= y -> (to_int x <= to_int y)%Z.
Proof.
  intros Hx Hxy. rewrite !to_int_floor by lra. by apply Qfloor_resp_le.
Qed.

Lemma to_int_nonneg x : 0 <= x -> (0 <= to_int x)%Z.
Proof.
  intros Hx. rewrite to_int_floor by done.
  change 0%Z with (Qfloor 0). by apply Qfloor_resp_le.
Qed.

Lemma inject_Z_pos z : (0 < z)%Z -> 0 < inject_Z z.
Proof. intros H. change 0 with (inject_Z 0). by rewrite <- Zlt_Qlt. Qed.

Lemma inject_Z_nonneg z : (0 <= z)%Z -> 0 <= inject_Z z.
Proof. intros H. change 0 with (inject_Z 0). by rewrite <- Zle_Qle. Qed.

Lemma inject_Z_safe z : (z <= 2 ^ 1023)%Z -> inject_Z z <= 2 ^ 1023.
Proof. intros H. rewrite <- pow2_inject by done. by rewrite <- Zle_Qle. Qed.

(** The share [(total_rounds - current_round) / total_rounds] of a round within
    the schedule, and its rounding. *)
Lemma share_bounds T r :
  (1 <= r)%Z -> (r <= T)%Z -> 0 <= inject_Z (T - r) / inject_Z T <= 1.
Proof.
  intros H1 H2. pose proof (inject_Z_pos T ltac:(lia)) as HT. split.
  - apply Qle_shift_div_l; [done |]. rewrite Qmult_0_l. apply inject_Z_nonneg. lia.
  - apply Qle_shift_div_r; [done |]. rewrite Qmult_1_l. rewrite <- Zle_Qle. lia.
Qed.

Lemma share_antitone T r r' :
  (1 <= r)%Z -> (r <= r')%Z -> (r' <= T)%Z ->
  inject_Z (T - r') / inject_Z T <= inject_Z (T - r) / inject_Z T.
Proof.
  intros H1 H2 H3. pose proof (inject_Z_pos T ltac:(lia)) as HT.
  unfold Qdiv. apply Qmult_le_compat_r.
  - rewrite <- Zle_Qle. lia.
  - apply Qinv_le_0_compat. lra.
Qed.

Lemma fl_unit q : 0 <= q <= 1 -> 0 <= fl q <= 1.
Proof.
  intros [H0 H1]. split; [by apply fl_nonneg |].
  rewrite <- fl_one. by apply fl_mono.
Qed.

Lemma fl_safe q : 0 <= q <= 2 ^ 1023 -> 0 <= fl q <= 2 ^ 1023.
Proof.
  intros [H0 H1]. split; [by apply fl_nonneg |].
  rewrite <- fl_big. by apply fl_mono.
Qed.

Lemma truediv_finite a b :
  (0 <= a)%Z -> (0 < b)%Z -> (a <= 2 ^ 1023)%Z ->
  truediv a b = Ok (fl (inject_Z a / inject_Z b)).
Proof.
  intros Ha Hb Hs. unfold truediv. replace (b =? 0)%Z with false by lia.
  pose proof (inject_Z_pos b Hb) as Hb'. pose proof (inject_Z_nonneg a Ha) as Ha'.
  assert (H1 : 1 <= inject_Z b) by (change 1 with (inject_Z 1); rewrite <- Zle_Qle; lia).
  pose proof (inject_Z_safe a Hs) as Hs'.
  apply finite_ok.
  - apply Qle_shift_div_l; [done |]. by rewrite Qmult_0_l.
  - apply Qle_shift_div_r; [done |].
    generalize dependent (2 ^ 1023). generalize dependent (inject_Z a).
    generalize dependent (inject_Z b). intros. nra.
Qed.

Lemma scaled_finite base y :
  (0 <= base)%Z -> (base <= 2 ^ 1023)%Z -> 0 <= y <= 1 ->
  scaled base y = Ok (to_int (fl (fl (inject_Z base) * y))).
Proof.
  intros Hb Hs Hy. unfold scaled, of_int, mul.
  pose proof (fl_safe (inject_Z base)
                (conj (inject_Z_nonneg _ Hb) (inject_Z_safe _ Hs))) as Hf.
  rewrite finite_ok by (by apply inject_Z_nonneg || by apply inject_Z_safe). simpl.
  rewrite finite_ok; [done | |].
  - generalize dependent (fl (inject_Z base)). intros. nra.
  - generalize dependent (2 ^ 1023). generalize dependent (fl (inject_Z base)).
    intros. nra.
Qed.

Lemma fl_tiny : fl (2 ^ (-1023)) == 2 ^ (-1023).
Proof. by vm_compute. Qed.

Lemma total_rounds_positive cfg :
  (0 < tokens_per_round cfg <= 2 ^ 1023)%Z ->
  (0 < config_total_amount cfg <= 2 ^ 1023)%Z ->
  exists T, total_rounds cfg = Ok T /\ (1 <= T)%Z.
Proof.
  intros [Hb Hbs] [Ht Hts]. unfold total_rounds.
  rewrite truediv_finite by lia. simpl. eexists. split; [done |].
  set (q := inject_Z (config_total_amount cfg) / inject_Z (tokens_per_round cfg)).
  assert (Hq : 2 ^ (-1023) <= q).
  { pose proof (inject_Z_pos _ Hb) as Hb'. pose proof (inject_Z_safe _ Hbs) as Hbs'.
    assert (H1 : 1 <= inject_Z (config_total_amount cfg)).
    { change 1 with (inject_Z 1). rewrite <- Zle_Qle. lia. }
    assert (E : 2 ^ (-1023) * 2 ^ 1023 == 1) by done.
    pose proof (pow2_pos (-1023)) as Hp.
    unfold q. apply Qle_shift_div_l; [done |].
    generalize dependent (2 ^ (-1023)). generalize dependent (2 ^ 1023).
    generalize dependent (inject_Z (tokens_per_round cfg)).
    generalize dependent (inject_Z (config_total_amount cfg)).
    intros. nra. }
  assert (Hf : 0 < fl q).
  { eapply Qlt_le_trans; [apply (pow2_pos (-1023)) |].
    rewrite <- fl_tiny. apply fl_mono; [apply Qlt_le_weak, pow2_pos | done]. }
  pose proof (Qle_ceiling (fl q)) as Hc. unfold ceil.
  assert (Hz : 0 < inject_Z (Qceiling (fl q))) by lra.
  change 0 with (inject_Z 0) in Hz. rewrite <- Zlt_Qlt in Hz. lia.
Qed.

End EmissionFacts.


(** ** Rounding: symmetry, exact values, directed rounding *)

Module RoundingFacts.
Import PyFloat PyFloatFacts EmissionFacts.
Local Open Scope Q_scope.

Lemma round_pos_proper x y : 0 < x -> x == y -> round_pos x == round_pos y.
Proof.
  intros Hx Heq. apply Qle_antisym; apply round_pos_mono; lra.
Qed.

Lemma fl_proper x y : x == y -> fl x = fl y.
Proof.
  intros Heq.
  destruct (Q_dec x 0) as [[Hneg | Hpos] | Hzero].
  - assert (Hx : 0 < - x) by lra. assert (Hy : 0 < - y) by lra.
    pose proof (round_pos_proper (- x) (- y) Hx ltac:(lra)) as Hr.
    apply Qnum_pos in Hx, Hy. simpl in Hx, Hy.
    unfold fl. destruct (Qnum x) eqn:Ex; try lia. destruct (Qnum y) eqn:Ey; try lia.
    apply Qred_complete. by rewrite Hr.
  - assert (Hy : 0 < y) by lra.
    pose proof (round_pos_proper x y Hpos Heq) as Hr.
    apply Qnum_pos in Hpos, Hy.
    unfold fl. destruct (Qnum x) eqn:Ex; try lia. destruct (Qnum y) eqn:Ey; try lia.
    by apply Qred_complete.
  - rewrite (fl_zero x), (fl_zero y); [done | lra | done].
Qed.

Lemma fl_neg q : q < 0 -> fl q == - round_pos (- q).
Proof.
  intros H. assert (Hx : 0 < - q) by lra. apply Qnum_pos in Hx. simpl in Hx.
  unfold fl. destruct (Qnum q) eqn:E; try lia. apply Qred_correct.
Qed.

Lemma fl_opp q : fl (- q) == - fl q.
Proof.
  destruct (Q_dec q 0) as [[Hneg | Hpos] | Hzero].
  - rewrite (fl_pos (- q)) by lra. rewrite (fl_neg q) by done. by rewrite Qopp_involutive.
  - rewrite (fl_neg (- q)) by lra. rewrite (fl_pos q) by done.
    apply Qopp_comp, round_pos_proper; [lra | apply Qopp_involutive].
  - rewrite (fl_zero q) by done. rewrite (fl_zero (- q)) by lra. reflexivity.
Qed.

Lemma overflows_proper x y : x == y -> overflows x = overflows y.
Proof.
  intros Heq. unfold overflows.
  destruct (Qle_bool (2 ^ 1024) (Qabs x)) eqn:Hx, (Qle_bool (2 ^ 1024) (Qabs y)) eqn:Hy;
    try done.
  - apply Qle_bool_iff in Hx. rewrite Heq in Hx. apply Qle_bool_iff in Hx. congruence.
  - apply Qle_bool_iff in Hy. rewrite <- Heq in Hy. apply Qle_bool_iff in Hy. congruence.
Qed.

Lemma overflows_opp x : overflows (- x) = overflows x.
Proof.
  unfold overflows.
  destruct (Qle_bool (2 ^ 1024) (Qabs (- x))) eqn:H1, (Qle_bool (2 ^ 1024) (Qabs x)) eqn:H2;
    try done.
  - apply Qle_bool_iff in H1. rewrite Qabs_opp in H1. apply Qle_bool_iff in H1. congruence.
  - apply Qle_bool_iff in H2. rewrite <- Qabs_opp in H2. apply Qle_bool_iff in H2. congruence.
Qed.

Lemma rne_proper x y : x == y -> rne x = rne y.
Proof. intros H. apply Z.le_antisymm; apply rne_mono; lra. Qed.

(** The integers below 2^53 are doubles. *)
Lemma fl_exact z : (0 <= z < 2 ^ 53)%Z -> fl (inject_Z z) == inject_Z z.
Proof.
  intros [H0 H53]. destruct (Z.eq_dec z 0%Z) as [-> | Hne]; [done |].
  assert (Hpos : 0 < inject_Z z) by (apply inject_Z_pos; lia).
  rewrite fl_pos by done. unfold round_pos.
  destruct (mag_spec (inject_Z z) Hpos) as [Hlow _].
  assert (Hmag : (mag (inject_Z z) <= 53)%Z).
  { destruct (Z_le_gt_dec (mag (inject_Z z)) 53) as [| Hgt]; [done |]. exfalso.
    assert (Hup : inject_Z z < 2 ^ 53).
    { rewrite <- (pow2_inject 53) by lia. rewrite <- Zlt_Qlt. done. }
    pose proof (pow2_le 53 (mag (inject_Z z) - 1) ltac:(lia)) as Hle. lra. }
  set (e := fexp (mag (inject_Z z))).
  assert (He : (e <= 0)%Z) by (unfold e, fexp; lia).
  assert (Hscaled : inject_Z z / 2 ^ e == inject_Z (z * 2 ^ (- e))).
  { rewrite inject_Z_mult, pow2_inject by lia.
    pose proof (pow2_add e (- e)) as Hadd. replace (e + - e)%Z with 0%Z in Hadd by lia.
    change (2 ^ 0) with 1 in Hadd.
    pose proof (pow2_pos e) as Hp.
    apply Qeq_sym. rewrite <- (Qmult_1_r (inject_Z z)) at 2. rewrite Hadd.
    field. lra. }
  rewrite (rne_proper _ _ Hscaled), rne_Z, inject_Z_mult, pow2_inject by lia.
  pose proof (pow2_add (- e) e) as Hadd. replace (- e + e)%Z with 0%Z in Hadd by lia.
  change (2 ^ 0) with 1 in Hadd.
  rewrite <- Qmult_assoc, <- Hadd. ring.
Qed.

(** [int(base * 1.0)] and [int(base * 0.0)]. *)
Lemma scaled_one base : (0 <= base < 2 ^ 53)%Z -> scaled base 1 = Ok base.
Proof.
  intros Hb. rewrite scaled_finite; [| lia | | lra].
  - f_equal. pose proof (fl_exact base Hb) as He.
    rewrite (fl_proper (fl (inject_Z base) * 1) (inject_Z base)) by (rewrite He; ring).
    assert (Hnn : 0 <= fl (inject_Z base)) by (apply fl_nonneg, inject_Z_nonneg; lia).
    rewrite to_int_floor by done. rewrite He. apply Qfloor_Z.
  - etrans; [apply Z.lt_le_incl, Hb |]. by apply Z.pow_le_mono_r.
Qed.

Lemma scaled_zero base : (0 <= base <= 2 ^ 1023)%Z -> scaled base 0 = Ok 0%Z.
Proof.
  intros Hb. rewrite scaled_finite; [| lia | lia | lra].
  f_equal. rewrite (fl_zero (fl (inject_Z base) * 0)) by ring. done.
Qed.

(** Directed rounding: the two doubles next to a value enclose it. *)
Lemma fl_down_pos q :
  0 < q -> fl_down q = inject_Z (Qfloor (q / 2 ^ fexp (mag q))) * 2 ^ fexp (mag q).
Proof.
  intros H. unfold fl_down. destruct (Qle_bool q 0) eqn:E; [| done].
  apply Qle_bool_iff in E. lra.
Qed.

Lemma fl_up_pos q :
  0 < q -> fl_up q = inject_Z (Qceiling (q / 2 ^ fexp (mag q))) * 2 ^ fexp (mag q).
Proof.
  intros H. unfold fl_up. destruct (Qle_bool q 0) eqn:E; [| done].
  apply Qle_bool_iff in E. lra.
Qed.

Lemma fl_down_nonpos q : q <= 0 -> fl_down q = 0.
Proof. intros H. unfold fl_down. apply Qle_bool_iff in H. by rewrite H. Qed.

Lemma fl_up_nonpos q : q <= 0 -> fl_up q = 0.
Proof. intros H. unfold fl_up. apply Qle_bool_iff in H. by rewrite H. Qed.

Lemma scale_back q e : q / 2 ^ e * 2 ^ e == q.
Proof. pose proof (pow2_pos e). field. lra. Qed.

Lemma fl_down_bounds q : 0 <= q -> 0 <= fl_down q <= q.
Proof.
  intros H. destruct (Qlt_le_dec 0 q) as [Hp | Hz].
  - rewrite fl_down_pos by done. set (e := fexp (mag q)).
    pose proof (pow2_pos e) as Pe.
    pose proof (Qfloor_le (q / 2 ^ e)) as Hf.
    assert (H0 : 0 <= q / 2 ^ e) by (apply Qle_shift_div_l; [done | by rewrite Qmult_0_l]).
    assert (Hf0 : 0 <= inject_Z (Qfloor (q / 2 ^ e))).
    { change 0 with (inject_Z 0). rewrite <- Zle_Qle. change 0%Z with (Qfloor 0).
      by apply Qfloor_resp_le. }
    split.
    + apply Qmult_le_0_compat; [done | by apply Qlt_le_weak].
    + rewrite <- (scale_back q e) at 2.
      apply Qmult_le_compat_r; [done | by apply Qlt_le_weak].
  - rewrite fl_down_nonpos by done. split; [done | done].
Qed.

Lemma fl_up_ge q : 0 <= q -> q <= fl_up q.
Proof.
  intros H. destruct (Qlt_le_dec 0 q) as [Hp | Hz].
  - rewrite fl_up_pos by done. set (e := fexp (mag q)).
    pose proof (pow2_pos e) as Pe.
    rewrite <- (scale_back q e) at 1.
    apply Qmult_le_compat_r; [apply Qle_ceiling | by apply Qlt_le_weak].
  - rewrite fl_up_nonpos by done. lra.
Qed.

Lemma mag_unit q : 0 < q -> q <= 1 -> (mag q <= 1)%Z.
Proof.
  intros Hp H1. destruct (mag_spec q Hp) as [Hl _].
  destruct (Z_le_gt_dec (mag q) 1) as [| Hgt]; [done |]. exfalso.
  pose proof (pow2_le 1 (mag q - 1) ltac:(lia)) as Hle.
  change (2 ^ 1) with 2 in Hle. lra.
Qed.

Lemma fl_up_unit q : 0 <= q -> q <= 1 -> fl_up q <= 1.
Proof.
  intros H0 H1. destruct (Qlt_le_dec 0 q) as [Hp | Hz].
  - rewrite fl_up_pos by done.
    pose proof (mag_unit q Hp H1) as Hm.
    set (e := fexp (mag q)).
    assert (He : (e <= 0)%Z) by (unfold e, fexp; lia).
    pose proof (pow2_pos e) as Pe.
    assert (Hy : q / 2 ^ e <= inject_Z (2 ^ (- e))).
    { rewrite pow2_inject by lia. apply Qle_shift_div_r; [done |].
      rewrite <- pow2_add. replace (- e + e)%Z with 0%Z by lia. done. }
    apply Qceiling_resp_le in Hy. rewrite Qceiling_Z in Hy.
    rewrite Zle_Qle in Hy. rewrite pow2_inject in Hy by lia.
    apply Qle_trans with (2 ^ (- e) * 2 ^ e).
    + apply Qmult_le_compat_r; [done | by apply Qlt_le_weak].
    + rewrite <- pow2_add. replace (- e + e)%Z with 0%Z by lia. done.
  - rewrite fl_up_nonpos by done. done.
Qed.

(** A faithful [pow] on the share of a round: the square stays within
    [0, 1], and the amount is the one [quadratic_double] gives. *)
Lemma square_unit x : 0 <= x <= 1 -> 0 <= x * x <= 1.
Proof. intros [H0 H1]. split; nra. Qed.

Lemma faithful_unit libm x :
  faithful_pow libm -> 0 <= x <= 1 -> 0 <= libm_pow libm x <= 1.
Proof.
  intros Hf Hx. destruct (Hf x) as [Hlo Hhi].
  destruct (square_unit x Hx) as [Hs0 Hs1].
  pose proof (fl_down_bounds (x * x) Hs0) as [Hd _].
  pose proof (fl_up_unit (x * x) Hs0 Hs1) as Hu.
  split; [by eapply Qle_trans | by eapply Qle_trans].
Qed.

Lemma finite_small y : 0 <= y -> y <= 2 ^ 1023 -> finite y = Ok y.
Proof.
  intros H0 H1. unfold finite, overflows.
  destruct (Qle_bool _ _) eqn:Hb; [| done].
  apply Qle_bool_iff in Hb. rewrite Qabs_pos in Hb by done.
  assert (Hlt : 2 ^ 1023 < 2 ^ 1024) by done.
  exfalso. apply (Qlt_irrefl (2 ^ 1023)).
  eapply Qlt_le_trans; [apply Hlt |]. by eapply Qle_trans.
Qed.

Lemma pow2_finite libm x :
  faithful_pow libm -> 0 <= x <= 1 -> pow2 libm x = Ok (libm_pow libm x).
Proof.
  intros Hf Hx. destruct (faithful_unit libm x Hf Hx) as [H0 H1].
  unfold pow2. apply finite_small; [done |].
  apply Qle_trans with 1; [done | done].
Qed.

Lemma quadratic_round_amount_double libm cfg T r :
  faithful_pow libm ->
  distribution_type cfg = quadratic ->
  (0 < tokens_per_round cfg <= 2 ^ 1023)%Z ->
  total_rounds cfg = Ok T ->
  (1 <= r <= T)%Z ->
  round_amount libm cfg r = Ok (quadratic_double libm (tokens_per_round cfg) T r).
Proof.
  intros Hf Hty [Hb Hbs] HT [H1 H2]. unfold round_amount. rewrite HT, Hty. simpl.
  pose proof (share_bounds T r H1 H2) as Hs.
  unfold truediv.
  replace (T =? 0)%Z with false by lia.
  rewrite finite_ok; [| apply Hs | apply Qle_trans with 1; [apply Hs | done]]. simpl.
  pose proof (fl_unit _ Hs) as Hx.
  rewrite pow2_finite by done. simpl.
  pose proof (faithful_unit libm _ Hf Hx) as Hy.
  by rewrite scaled_finite by (lia || done).
Qed.

(** Whatever a faithful [pow] returns, the amount lies between the amounts
    for the square rounded down and rounded up. *)
Lemma quadratic_double_bracket libm base T r :
  faithful_pow libm -> (0 <= base)%Z -> (1 <= r)%Z -> (r <= T)%Z ->
  (0 <= quadratic_low base T r)%Z /\
  (quadratic_low base T r <= quadratic_double libm base T r)%Z /\
  (quadratic_double libm base T r <= quadratic_high base T r)%Z.
Proof.
  intros Hf Hb H1 H2. unfold quadratic_low, quadratic_double, quadratic_high.
  pose proof (share_bounds T r H1 H2) as Hs.
  pose proof (fl_unit _ Hs) as Hx.
  set (x := fl (inject_Z (T - r) / inject_Z T)) in *.
  destruct (Hf x) as [Hlo Hhi].
  destruct (square_unit x Hx) as [Hs0 _].
  pose proof (fl_down_bounds (x * x) Hs0) as [Hd _].
  pose proof (fl_nonneg _ (inject_Z_nonneg _ Hb)) as Hfb.
  set (b := fl (inject_Z base)) in *.
  set (lo := fl_down (x * x)) in *. set (hi := fl_up (x * x)) in *.
  set (p := libm_pow libm x) in *.
  assert (Hp0 : 0 <= b * lo) by nra.
  assert (Hp1 : b * lo <= b * p) by nra.
  assert (Hp2 : b * p <= b * hi) by nra.
  assert (Hp3 : 0 <= b * p) by nra.
  split; [| split].
  - apply to_int_nonneg. by apply fl_nonneg.
  - apply to_int_mono; [by apply fl_nonneg | by apply fl_mono].
  - apply to_int_mono; [by apply fl_nonneg | by apply fl_mono].
Qed.

(** The last round: the share is 0, and a faithful [pow] squares 0 exactly. *)
Lemma quadratic_double_last libm base T :
  faithful_pow libm -> (1 <= T)%Z -> quadratic_double libm base T T = 0%Z.
Proof.
  intros Hf HT. unfold quadratic_double. rewrite Z.sub_diag.
  destruct T as [| p | p]; try lia.
  change (fl (inject_Z 0 / inject_Z (Z.pos p))) with 0.
  destruct (Hf 0) as [Hlo Hhi].
  change (fl_down (0 * 0)) with 0 in Hlo. change (fl_up (0 * 0)) with 0 in Hhi.
  assert (Hz : libm_pow libm 0 == 0) by (by apply Qle_antisym).
  rewrite (fl_zero (fl (inject_Z base) * libm_pow libm 0)); [done |].
  rewrite Hz. ring.
Qed.

(** Rounding to an integer moves a value by at most a half. *)
Lemma rne_error y : y - (1 # 2) <= inject_Z (rne y) <= y + (1 # 2).
Proof.
  unfold rne. pose proof (Qfloor_le y) as Hl. pose proof (Qlt_floor y) as Hu.
  rewrite inject_Z_plus in Hu. change (inject_Z 1) with 1 in Hu.
  destruct (Qcompare_spec (y - inject_Z (Qfloor y)) (1 # 2)) as [He | Hlt | Hgt].
  - destruct (Z.even _); [lra |].
    rewrite inject_Z_plus. change (inject_Z 1) with 1. lra.
  - lra.
  - rewrite inject_Z_plus. change (inject_Z 1) with 1. lra.
Qed.

(** [fl] returns its value in lowest terms, so that doubles equal as
    rationals are the same term. *)
Lemma fl_canonical q : Qred (fl q) = fl q.
Proof.
  unfold fl. destruct (Qnum q); [done | |]; apply Qred_complete, Qred_correct.
Qed.

Lemma fl_opp_eq q : fl (- q) = - fl q.
Proof.
  rewrite <- (fl_canonical (- q)), <- (fl_canonical q), <- Qred_opp.
  apply Qred_complete, fl_opp.
Qed.

Lemma square_nonneg (x : Q) : 0 <= x * x.
Proof. nra. Qed.

(** The two extremes are faithful, and rounding down is even. *)
Lemma libm_down_faithful : faithful_pow libm_down.
Proof.
  intros x. simpl. split; [apply Qle_refl |].
  pose proof (square_nonneg x) as H.
  eapply Qle_trans; [apply (fl_down_bounds _ H) | by apply fl_up_ge].
Qed.

Lemma libm_up_faithful : faithful_pow libm_up.
Proof.
  intros x. simpl. split; [| apply Qle_refl].
  pose proof (square_nonneg x) as H.
  eapply Qle_trans; [apply (fl_down_bounds _ H) | by apply fl_up_ge].
Qed.

Lemma Qopp_square (x : Q) : - x * - x = x * x.
Proof. destruct x as [n d]. unfold Qmult, Qopp. simpl. f_equal. lia. Qed.

Lemma libm_down_even : even_pow libm_down.
Proof. intros x. simpl. by rewrite Qopp_square. Qed.

Lemma scaled_proper base y y' : y == y' -> scaled base y = scaled base y'.
Proof.
  intros Heq. unfold scaled, of_int, mul.
  destruct (finite (fl (inject_Z base))) as [b | e]; [| done]. cbn [bind].
  by rewrite (fl_proper (b * y) (b * y')) by (by rewrite Heq).
Qed.

(** Past the last round the share is the negative of an earlier round's. *)
Lemma share_past_last T k :
  fl (inject_Z (T - (T + k)) / inject_Z T) = - fl (inject_Z (T - (T - k)) / inject_Z T).
Proof.
  rewrite <- fl_opp_eq. apply fl_proper.
  replace (T - (T + k))%Z with (- k)%Z by lia. replace (T - (T - k))%Z with k by lia.
  rewrite inject_Z_opp. unfold Qdiv. ring.
Qed.

Lemma quadratic_mirror libm cfg T k :
  even_pow libm ->
  distribution_type cfg = quadratic -> total_rounds cfg = Ok T ->
  round_amount libm cfg (T + k) = round_amount libm cfg (T - k).
Proof.
  intros Heven Hty HT. unfold round_amount. rewrite HT, Hty. cbn [bind].
  unfold truediv. destruct (T =? 0)%Z; [done |].
  rewrite share_past_last. set (x := fl (inject_Z (T - (T - k)) / inject_Z T)).
  unfold finite at 1 2. rewrite overflows_opp.
  destruct (overflows x); [done |]. cbn [bind].
  unfold pow2. by rewrite Heven.
Qed.

(** What a round past the last one releases, by a faithful [pow]. *)
Lemma quadratic_past_last_value libm cfg T k :
  faithful_pow libm ->
  distribution_type cfg = quadratic ->
  (0 < tokens_per_round cfg <= 2 ^ 1023)%Z ->
  total_rounds cfg = Ok T ->
  (0 <= k < T)%Z ->
  round_amount libm cfg (T + k)
  = Ok (to_int (fl (fl (inject_Z (tokens_per_round cfg))
                    * libm_pow libm (- fl (inject_Z (T - (T - k)) / inject_Z T))))) /\
  0 <= libm_pow libm (- fl (inject_Z (T - (T - k)) / inject_Z T)) <= 1.
Proof.
  intros Hf Hty [Hb Hbs] HT Hk.
  unfold round_amount. rewrite HT, Hty. cbn [bind].
  unfold truediv. replace (T =? 0)%Z with false by lia.
  rewrite share_past_last.
  pose proof (share_bounds T (T - k) ltac:(lia) ltac:(lia)) as Hs.
  pose proof (fl_unit _ Hs) as Hx.
  set (x := fl (inject_Z (T - (T - k)) / inject_Z T)) in *.
  assert (Hfin : finite (- x) = Ok (- x)).
  { unfold finite. rewrite overflows_opp.
    pose proof (finite_small x (proj1 Hx)) as Hsm. unfold finite in Hsm.
    destruct (overflows x); [| done].
    discriminate Hsm. apply Qle_trans with 1; [apply Hx | done]. }
  rewrite Hfin. cbn [bind].
  destruct (Hf (- x)) as [Hlo Hhi]. rewrite Qopp_square in Hlo, Hhi.
  destruct (square_unit x Hx) as [Hs0 Hs1].
  pose proof (fl_down_bounds (x * x) Hs0) as [Hd _].
  pose proof (fl_up_unit (x * x) Hs0 Hs1) as Hu.
  set (p := libm_pow libm (- x)) in *.
  assert (Hp : 0 <= p <= 1) by (split; by eapply Qle_trans).
  unfold pow2. fold p.
  rewrite (finite_small p) by (apply Hp || (apply Qle_trans with 1; [apply Hp | done])).
  cbn [bind]. by rewrite scaled_finite by (lia || done).
Qed.

(** With a faithful [pow], the amount of a round past the last one lies
    between the amounts of its mirror round for the square rounded down and
    rounded up. *)
Lemma quadratic_past_last libm cfg T k :
  faithful_pow libm ->
  distribution_type cfg = quadratic ->
  (0 < tokens_per_round cfg <= 2 ^ 1023)%Z ->
  total_rounds cfg = Ok T ->
  (0 <= k < T)%Z ->
  exists amount,
    round_amount libm cfg (T + k) = Ok amount /\
    (quadratic_low (tokens_per_round cfg) T (T - k) <= amount)%Z /\
    (amount <= quadratic_high (tokens_per_round cfg) T (T - k))%Z.
Proof.
  intros Hf Hty Hb HT Hk.
  destruct (quadratic_past_last_value libm cfg T k Hf Hty Hb HT Hk) as [Hval Hp].
  eexists. split; [exact Hval |].
  unfold quadratic_low, quadratic_high.
  pose proof (share_bounds T (T - k) ltac:(lia) ltac:(lia)) as Hs.
  pose proof (fl_unit _ Hs) as Hx.
  set (x := fl (inject_Z (T - (T - k)) / inject_Z T)) in *.
  destruct (Hf (- x)) as [Hlo Hhi]. rewrite Qopp_square in Hlo, Hhi.
  destruct (square_unit x Hx) as [Hs0 _].
  pose proof (fl_down_bounds (x * x) Hs0) as [Hd _].
  pose proof (fl_nonneg _ (inject_Z_nonneg _ (Z.lt_le_incl _ _ (proj1 Hb)))) as Hfb.
  set (b := fl (inject_Z (tokens_per_round cfg))) in *.
  revert Hlo Hhi Hd. generalize (fl_down (x * x)) (fl_up (x * x)) (libm_pow libm (- x)).
  intros lo hi p Hlo Hhi Hd.
  split; (apply to_int_mono; [apply fl_nonneg; nra | apply fl_mono; nra]).
Qed.

(** A faithful [pow] squares [-1] exactly, so the round at twice the last
    one releases the full amount. *)
Lemma quadratic_full libm cfg T :
  faithful_pow libm ->
  distribution_type cfg = quadratic ->
  (0 <= tokens_per_round cfg < 2 ^ 53)%Z ->
  total_rounds cfg = Ok T -> T <> 0%Z ->
  round_amount libm cfg (2 * T) = Ok (tokens_per_round cfg).
Proof.
  intros Hf Hty Hb HT HT0. unfold round_amount. rewrite HT, Hty. cbn [bind].
  unfold truediv. destruct (Z.eqb_spec T 0) as [| _]; [done |].
  rewrite (fl_proper (inject_Z (T - 2 * T) / inject_Z T) (- (1))).
  - change (finite (fl (- (1)))) with (Ok (- (1))). cbn [bind].
    destruct (Hf (- (1))) as [Hlo Hhi].
    assert (Hd : fl_down (- (1) * - (1)) == 1) by (vm_compute; reflexivity).
    assert (Hu : fl_up (- (1) * - (1)) == 1) by (vm_compute; reflexivity).
    rewrite Hd in Hlo. rewrite Hu in Hhi.
    assert (Hp : libm_pow libm (- (1)) == 1) by (by apply Qle_antisym).
    unfold pow2. rewrite finite_small; [| lra | rewrite Hp; done]. cbn [bind].
    rewrite (scaled_proper _ _ 1 Hp). by apply scaled_one.
  - replace (T - 2 * T)%Z with (- T)%Z by lia. rewrite inject_Z_opp.
    assert (inject_Z T / inject_Z T == 1).
    { apply Qmult_inv_r. intros H. apply HT0. unfold Qeq in H. simpl in H. lia. }
    unfold Qdiv in *. rewrite <- H. ring.
Qed.

(** Two different doubles are at least one unit of the smaller apart. *)
Lemma round_pos_gap q' q :
  0 < q' -> q' <= q -> round_pos q' < round_pos q ->
  round_pos q' + 2 ^ fexp (mag q') <= round_pos q.
Proof.
  intros Hq' Hle Hlt.
  pose proof (mag_mono q' q Hq' Hle) as Hm.
  unfold round_pos in *.
  set (e' := fexp (mag q')) in *. set (e := fexp (mag q)) in *.
  assert (He : (e' <= e)%Z) by (unfold e', e, fexp; lia).
  set (n' := rne (q' / 2 ^ e')) in *. set (n := rne (q / 2 ^ e)) in *.
  assert (Hsplit : 2 ^ e == inject_Z (2 ^ (e - e')) * 2 ^ e').
  { rewrite pow2_inject by lia. rewrite <- pow2_add.
    by replace (e - e' + e')%Z with e by lia. }
  pose proof (pow2_pos e') as Pe.
  assert (HK : inject_Z n * 2 ^ e == inject_Z (n * 2 ^ (e - e')) * 2 ^ e').
  { rewrite inject_Z_mult, Hsplit. ring. }
  rewrite HK in Hlt. rewrite HK.
  set (K := (n * 2 ^ (e - e'))%Z) in *.
  assert (Hz : (n' < K)%Z).
  { destruct (Z_lt_le_dec n' K) as [| Hge]; [done |]. exfalso.
    rewrite Zle_Qle in Hge.
    assert (inject_Z K * 2 ^ e' <= inject_Z n' * 2 ^ e')
      by (apply Qmult_le_compat_r; [done | by apply Qlt_le_weak]).
    lra. }
  assert (Hstep : inject_Z n' + 1 <= inject_Z K).
  { change 1 with (inject_Z 1). rewrite <- inject_Z_plus, <- Zle_Qle. lia. }
  revert Pe Hstep. generalize (inject_Z n') (inject_Z K) (2 ^ e'). intros a b p Pe Hstep.
  nra.
Qed.

(** Rounding a rational below half the smallest subnormal gives 0. *)
Lemma round_pos_positive q :
  0 < q -> 0 < round_pos q -> (-1074 <= mag q)%Z.
Proof.
  intros Hq Hr. destruct (Z_le_gt_dec (-1074) (mag q)) as [| Hsmall]; [done |]. exfalso.
  destruct (mag_spec q Hq) as [_ Hu].
  pose proof (pow2_le (mag q) (-1075) ltac:(lia)) as Hp.
  unfold round_pos in Hr.
  replace (fexp (mag q)) with (-1074)%Z in Hr by (unfold fexp; lia).
  pose proof (rne_error (q / 2 ^ (-1074))) as [_ Hn].
  assert (Hy : q / 2 ^ (-1074) < 1 # 2).
  { apply Qlt_shift_div_r; [done |].
    assert (E : (1 # 2) * 2 ^ (-1074) == 2 ^ (-1075)) by done. rewrite E. lra. }
  assert (Hz : (rne (q / 2 ^ (-1074)) <= 0)%Z).
  { assert (Hlt : inject_Z (rne (q / 2 ^ (-1074))) < inject_Z 1)
      by (change (inject_Z 1) with 1; lra).
    rewrite <- Zlt_Qlt in Hlt. lia. }
  rewrite Zle_Qle in Hz. change (inject_Z 0) with 0 in Hz.
  pose proof (pow2_pos (-1074)) as Pp.
  revert Hr Hz Pp. generalize (inject_Z (rne (q / 2 ^ (-1074)))) (2 ^ (-1074)).
  intros n p Hr Hz Pp. nra.
Qed.

Lemma round_pos_rel_gap q' q :
  0 < q' -> q' <= q -> 0 < round_pos q' -> round_pos q' < round_pos q ->
  round_pos q' * (1 + 2 ^ (-53)) <= round_pos q.
Proof.
  intros Hq' Hle Hpos Hlt.
  pose proof (round_pos_gap q' q Hq' Hle Hlt) as Hgap.
  pose proof (round_pos_positive q' Hq' Hpos) as Hm.
  destruct (mag_spec q' Hq') as [_ Hu].
  assert (Ha : round_pos q' <= 2 ^ mag q').
  { apply round_pos_le_pow2; [unfold fexp; lia | by apply Qlt_le_weak]. }
  assert (Hunit : 2 ^ mag q' * 2 ^ (-53) <= 2 ^ fexp (mag q')).
  { rewrite <- pow2_add. apply pow2_le. unfold fexp. lia. }
  assert (Hc : 0 < 2 ^ (-53)) by done.
  revert Hgap Ha Hunit Hc Hpos.
  generalize (round_pos q') (round_pos q) (2 ^ fexp (mag q')) (2 ^ mag q') (2 ^ (-53)).
  intros a b u p c Hgap Ha Hunit Hc Hpos. nra.
Qed.

(** A power of two on the grid of a rational bounds its directed roundings. *)
Lemma fl_up_le_pow2 q k :
  0 < q -> (fexp (mag q) <= k)%Z -> q <= 2 ^ k -> fl_up q <= 2 ^ k.
Proof.
  intros Hq He Hle. rewrite (fl_up_pos q Hq). set (e := fexp (mag q)) in *.
  pose proof (pow2_pos e) as Pe.
  assert (Hy : q / 2 ^ e <= inject_Z (2 ^ (k - e))).
  { rewrite pow2_inject by lia. rewrite <- pow2_div. by apply scale_le. }
  apply Qceiling_resp_le in Hy. rewrite Qceiling_Z in Hy.
  rewrite Zle_Qle in Hy. rewrite pow2_inject in Hy by lia.
  apply Qle_trans with (2 ^ (k - e) * 2 ^ e).
  - apply Qmult_le_compat_r; [done | by apply Qlt_le_weak].
  - rewrite <- pow2_add. apply pow2_le. lia.
Qed.

Lemma fl_down_ge_pow2 q k :
  0 < q -> (fexp (mag q) <= k)%Z -> 2 ^ k <= q -> 2 ^ k <= fl_down q.
Proof.
  intros Hq He Hle. rewrite (fl_down_pos q Hq). set (e := fexp (mag q)) in *.
  pose proof (pow2_pos e) as Pe.
  assert (Hy : inject_Z (2 ^ (k - e)) <= q / 2 ^ e).
  { rewrite pow2_inject by lia. rewrite <- pow2_div. by apply scale_le. }
  apply Qfloor_resp_le in Hy. rewrite Qfloor_Z in Hy.
  rewrite Zle_Qle in Hy. rewrite pow2_inject in Hy by lia.
  apply Qle_trans with (2 ^ (k - e) * 2 ^ e).
  - rewrite <- pow2_add. apply pow2_le. lia.
  - apply Qmult_le_compat_r; [done | by apply Qlt_le_weak].
Qed.

(** Two rationals a relative [2 ^ -52] apart have a double between them,
    unless the larger is below the normal range. *)
Lemma directed_order A B :
  0 < A -> A * (1 + 2 ^ (-52)) <= B -> (-1021 <= mag B)%Z ->
  fl_up A <= fl_down B.
Proof.
  intros HA Hrel HmB.
  assert (Hc : 0 < 2 ^ (-52)) by done.
  assert (HAB : A <= B) by nra.
  assert (HB : 0 < B) by lra.
  pose proof (mag_mono A B HA HAB) as Hm.
  destruct (mag_spec A HA) as [HAl HAu]. destruct (mag_spec B HB) as [HBl HBu].
  destruct (Z.eq_dec (mag A) (mag B)) as [Heq | Hne].
  - rewrite (fl_up_pos A HA), (fl_down_pos B HB). rewrite Heq.
    set (e := fexp (mag B)).
    assert (He : e = (mag B - 1 + -52)%Z) by (unfold e, fexp; lia).
    pose proof (pow2_pos e) as Pe.
    assert (Hu : 2 ^ e <= A * 2 ^ (-52)).
    { rewrite He, pow2_add. apply Qmult_le_compat_r; [by rewrite <- Heq | by apply Qlt_le_weak]. }
    pose proof (Qlt_floor (B / 2 ^ e)) as HN.
    rewrite inject_Z_plus in HN. change (inject_Z 1) with 1 in HN.
    set (N := Qfloor (B / 2 ^ e)) in *.
    pose proof (scale_back B e) as HsB.
    assert (Hlow : A / 2 ^ e <= inject_Z N).
    { apply Qlt_le_weak, Qlt_shift_div_r; [done |].
      revert HN HsB Hu Pe Hrel Hc.
      generalize (inject_Z N) (2 ^ (-52)) (2 ^ e) (B / 2 ^ e).
      intros n c p y HN HsB Hu Pe Hrel Hc.
      assert (Hprod : 0 < (n + 1 - y) * p) by (apply Qmult_lt_0_compat; lra).
      nra. }
    apply Qceiling_resp_le in Hlow. rewrite Qceiling_Z in Hlow. rewrite Zle_Qle in Hlow.
    apply Qmult_le_compat_r; [done | by apply Qlt_le_weak].
  - pose proof (pow2_le (mag A) (mag B - 1) ltac:(lia)) as Hp.
    apply Qle_trans with (2 ^ (mag B - 1)).
    + apply fl_up_le_pow2; [done | unfold fexp; lia | lra].
    + apply fl_down_ge_pow2; [done | unfold fexp; lia | done].
Qed.

Lemma square_rel_gap a b :
  0 < a -> a * (1 + 2 ^ (-53)) <= b -> a * a * (1 + 2 ^ (-52)) <= b * b.
Proof.
  intros Ha Hab.
  assert (Hc : 2 ^ (-53) + 2 ^ (-53) == 2 ^ (-52)) by done.
  assert (Hp : 0 < 2 ^ (-53)) by done.
  revert Hab Hc Hp. generalize (2 ^ (-53)) (2 ^ (-52)). intros c d Hab Hc Hp.
  assert (Ht : 0 < a * (1 + c)) by (apply Qmult_lt_0_compat; lra).
  assert (H1 : 0 <= (b - a * (1 + c)) * (b + a * (1 + c)))
    by (apply Qmult_le_0_compat; lra).
  assert (H2 : 0 <= a * c * (a * c)) by (apply Qmult_le_0_compat; nra).
  assert (E : (b - a * (1 + c)) * (b + a * (1 + c)) + a * c * (a * c)
              == b * b - a * a * (1 + (c + c))) by ring.
  rewrite <- Hc. lra.
Qed.

(** The squares of two rounded shares are ordered as [pow] returns them,
    unless the larger square is below the normal range. *)
Lemma pow_order libm q' q :
  faithful_pow libm -> 0 <= q' -> q' <= q ->
  libm_pow libm (fl q') <= libm_pow libm (fl q) \/
  (0 < fl q /\ fl q * fl q < 2 ^ (-1022) /\ libm_pow libm (fl q') <= 2 ^ (-1022)).
Proof.
  intros Hf Hq' Hle.
  pose proof (fl_mono q' q Hq' Hle) as Hx.
  pose proof (fl_nonneg q' Hq') as Hx0'.
  destruct (Hf (fl q')) as [_ Hhi']. destruct (Hf (fl q)) as [Hlo _].
  pose proof (fl_down_bounds _ (square_nonneg (fl q))) as [Hd0 _].
  destruct (Qlt_le_dec 0 (fl q')) as [Hpos' | Hzero'].
  2: { left. rewrite fl_up_nonpos in Hhi' by nra. lra. }
  assert (Hqpos' : 0 < q').
  { destruct (Qlt_le_dec 0 q') as [| Hz]; [done |].
    rewrite (fl_zero q') in Hpos' by lra. lra. }
  destruct (Qlt_le_dec (fl q') (fl q)) as [Hlt | Hge].
  2: { left. assert (Heq : fl q' = fl q).
       { rewrite <- (fl_canonical q'), <- (fl_canonical q). apply Qred_complete. lra. }
       rewrite Heq. apply Qle_refl. }
  assert (Hqpos : 0 < q) by lra.
  pose proof (fl_pos q' Hqpos') as E'. pose proof (fl_pos q Hqpos) as E.
  assert (Hrel : fl q' * (1 + 2 ^ (-53)) <= fl q).
  { rewrite E', E. apply round_pos_rel_gap; [done | done | by rewrite <- E' |].
    by rewrite <- E', <- E. }
  pose proof (square_rel_gap _ _ Hpos' Hrel) as Hsq.
  assert (HA : 0 < fl q' * fl q') by nra.
  assert (HB : 0 < fl q * fl q) by nra.
  destruct (Z_le_gt_dec (-1021) (mag (fl q * fl q))) as [Hnormal | Hsub].
  - left. pose proof (directed_order _ _ HA Hsq Hnormal) as Hd.
    eapply Qle_trans; [apply Hhi' |]. eapply Qle_trans; [apply Hd | apply Hlo].
  - right. destruct (mag_spec _ HB) as [_ HBu].
    pose proof (pow2_le (mag (fl q * fl q)) (-1022) ltac:(lia)) as Hp.
    assert (HBs : fl q * fl q < 2 ^ (-1022)) by lra.
    split; [lra |]. split; [done |].
    eapply Qle_trans; [apply Hhi' |].
    assert (Hc : 0 < 2 ^ (-52)) by done.
    assert (HAB : fl q' * fl q' <= fl q * fl q) by nra.
    apply fl_up_le_pow2; [done | | lra].
    pose proof (mag_mono _ _ HA HAB). unfold fexp. lia.
Qed.

Lemma to_int_small y : 0 <= y -> y < 1 -> to_int y = 0%Z.
Proof.
  intros H0 H1. rewrite to_int_floor by done.
  pose proof (Qfloor_le y) as Hl. pose proof (Qlt_floor y) as Hu.
  assert (Hlt : inject_Z (Qfloor y) < inject_Z 1) by (change (inject_Z 1) with 1; lra).
  assert (Hgt : inject_Z 0 < inject_Z (Qfloor y + 1)) by (change (inject_Z 0) with 0; lra).
  rewrite <- Zlt_Qlt in Hlt, Hgt. lia.
Qed.

Lemma total_rounds_ceiling cfg T :
  (0 < tokens_per_round cfg)%Z ->
  (0 < config_total_amount cfg <= 2 ^ 1023)%Z ->
  total_rounds cfg = Ok T ->
  T = Qceiling (fl (inject_Z (config_total_amount cfg) / inject_Z (tokens_per_round cfg))).
Proof.
  intros Hb [Ht Hts] HT. unfold total_rounds in HT.
  rewrite truediv_finite in HT by lia. simpl in HT. unfold ceil in HT. congruence.
Qed.

(** A schedule with a share whose square is below the normal range has more
    than [2 ^ 511] rounds, and so at most [2 ^ 512] tokens per round: such a
    square leaves nothing of them. *)
Lemma small_square_amount cfg T r y :
  (0 < tokens_per_round cfg)%Z ->
  (0 < config_total_amount cfg <= 2 ^ 1023)%Z ->
  total_rounds cfg = Ok T ->
  (1 <= r)%Z -> (r <= T)%Z ->
  0 < fl (inject_Z (T - r) / inject_Z T) ->
  fl (inject_Z (T - r) / inject_Z T) * fl (inject_Z (T - r) / inject_Z T) < 2 ^ (-1022) ->
  0 <= y -> y <= 2 ^ (-1022) ->
  to_int (fl (fl (inject_Z (tokens_per_round cfg)) * y)) = 0%Z.
Proof.
  intros Hb Ht HT H1 H2 Hx Hsq Hy0 Hy.
  set (q := inject_Z (T - r) / inject_Z T) in *.
  pose proof (share_bounds T r H1 H2) as [Hq0 _]. fold q in Hq0.
  assert (HTpos : 0 < inject_Z T) by (apply inject_Z_pos; lia).
  (* the share is below 2^-511 *)
  assert (Hxs : fl q < 2 ^ (-511)).
  { assert (E : 2 ^ (-511) * 2 ^ (-511) == 2 ^ (-1022)) by done.
    assert (Hc : 0 < 2 ^ (-511)) by done.
    revert Hx Hsq E Hc. generalize (fl q) (2 ^ (-511)) (2 ^ (-1022)).
    intros x c d Hx Hsq E Hc. nra. }
  assert (Hqs : q < 2 ^ (-511)).
  { destruct (Qlt_le_dec q (2 ^ (-511))) as [| Hge]; [done |]. exfalso.
    assert (Hfl : fl (2 ^ (-511)) == 2 ^ (-511)) by (by vm_compute).
    pose proof (fl_mono _ _ (Qlt_le_weak _ _ (pow2_pos (-511))) Hge) as Hm.
    rewrite Hfl in Hm. lra. }
  assert (Hqpos : 0 < q).
  { destruct (Qlt_le_dec 0 q) as [| Hz]; [done |].
    rewrite (fl_zero q) in Hx by lra. lra. }
  (* so there are more than 2^511 rounds *)
  assert (HTbig : (2 ^ 511 < T)%Z).
  { assert (Hr : (r < T)%Z).
    { destruct (Z.eq_dec r T) as [-> | ]; [| lia]. exfalso.
      unfold q in Hqpos. rewrite Z.sub_diag in Hqpos.
      unfold Qdiv in Hqpos. rewrite Qmult_0_l in Hqpos. lra. }
    assert (Hnum : 1 <= inject_Z (T - r)).
    { change 1 with (inject_Z 1). rewrite <- Zle_Qle. lia. }
    assert (Hqt : q * inject_Z T == inject_Z (T - r)) by (unfold q; field; lra).
    rewrite Zlt_Qlt.
    assert (E : 2 ^ (-511) * inject_Z (2 ^ 511) == 1) by done.
    assert (Hc : 0 < 2 ^ (-511)) by done.
    revert Hqs Hqpos Hnum Hqt E Hc HTpos.
    generalize (inject_Z (2 ^ 511)) (2 ^ (-511)) (inject_Z (T - r)) (inject_Z T) q.
    intros m c n t q0 Hqs Hqpos Hnum Hqt E Hc HTpos. nra. }
  (* so the quotient of the amounts exceeds 2^511 *)
  pose proof (total_rounds_ceiling cfg T Hb Ht HT) as HTc.
  set (t := inject_Z (config_total_amount cfg) / inject_Z (tokens_per_round cfg)) in *.
  pose proof (inject_Z_pos _ Hb) as Hbpos.
  assert (Htbig : 2 ^ 511 < t).
  { destruct (Qlt_le_dec (2 ^ 511) t) as [| Hle]; [done |]. exfalso.
    assert (Ht0 : 0 <= t).
    { unfold t. apply Qle_shift_div_l; [done |]. rewrite Qmult_0_l.
      apply inject_Z_nonneg. lia. }
    assert (Hfl : fl (2 ^ 511) == 2 ^ 511) by (by vm_compute).
    pose proof (fl_mono _ _ Ht0 Hle) as Hm. rewrite Hfl in Hm.
    pose proof (Qceiling_lt (fl t)) as Hc. rewrite <- HTc in Hc.
    assert (Hz : inject_Z (2 ^ 511) <= inject_Z (T - 1)) by (rewrite <- Zle_Qle; lia).
    assert (E : inject_Z (2 ^ 511) == 2 ^ 511) by done.
    lra. }
  (* so tokens_per_round is below 2^512 *)
  assert (Hbase : inject_Z (tokens_per_round cfg) <= 2 ^ 512).
  { assert (Htt : t * inject_Z (tokens_per_round cfg) == inject_Z (config_total_amount cfg))
      by (unfold t; field; lra).
    pose proof (inject_Z_safe _ (proj2 Ht)) as Hts.
    assert (E : 2 ^ 511 * 2 ^ 512 == 2 ^ 1023) by done.
    assert (Hc : 0 < 2 ^ 511) by done.
    revert Htbig Htt Hts E Hc Hbpos.
    generalize (inject_Z (config_total_amount cfg)) (inject_Z (tokens_per_round cfg))
      (2 ^ 1023) (2 ^ 512) (2 ^ 511) t.
    intros a b M c512 c511 t0 Htbig Htt Hts E Hc Hbpos. nra. }
  assert (Hfb : 0 <= fl (inject_Z (tokens_per_round cfg)) <= 2 ^ 512).
  { split; [apply fl_nonneg; lra |].
    assert (Hfl : fl (2 ^ 512) == 2 ^ 512) by (by vm_compute).
    rewrite <- Hfl. apply fl_mono; [lra | done]. }
  assert (Hprod : 0 <= fl (inject_Z (tokens_per_round cfg)) * y <= 2 ^ (-510)).
  { assert (E : 2 ^ 512 * 2 ^ (-1022) == 2 ^ (-510)) by done.
    revert Hfb Hy0 Hy E.
    generalize (fl (inject_Z (tokens_per_round cfg))) (2 ^ 512) (2 ^ (-1022)) (2 ^ (-510)).
    intros b c d f Hfb Hy0 Hy E. split; nra. }
  apply to_int_small; [apply fl_nonneg, Hprod |].
  assert (Hfl : fl (2 ^ (-510)) == 2 ^ (-510)) by (by vm_compute).
  pose proof (fl_mono _ _ (proj1 Hprod) (proj2 Hprod)) as Hm. rewrite Hfl in Hm.
  assert (Hlt : 2 ^ (-510) < 1) by done. lra.
Qed.

(** The amounts of a quadratic schedule do not increase with the round,
    whichever of the two doubles next to a square [pow] returns. *)
Lemma quadratic_double_antitone libm cfg T r r' :
  faithful_pow libm ->
  (0 < tokens_per_round cfg <= 2 ^ 1023)%Z ->
  (0 < config_total_amount cfg <= 2 ^ 1023)%Z ->
  total_rounds cfg = Ok T ->
  (1 <= r)%Z -> (r <= r')%Z -> (r' <= T)%Z ->
  (quadratic_double libm (tokens_per_round cfg) T r'
   <= quadratic_double libm (tokens_per_round cfg) T r)%Z.
Proof.
  intros Hf [Hb Hbs] Ht HT H1 H2 H3. unfold quadratic_double.
  pose proof (share_bounds T r H1 ltac:(lia)) as Hs.
  pose proof (share_bounds T r' ltac:(lia) H3) as Hs'.
  pose proof (share_antitone T r r' H1 H2 H3) as Hle.
  pose proof (faithful_unit libm _ Hf (fl_unit _ Hs)) as Hp.
  pose proof (faithful_unit libm _ Hf (fl_unit _ Hs')) as Hp'.
  pose proof (fl_nonneg _ (inject_Z_nonneg _ (Z.lt_le_incl _ _ Hb))) as Hfb.
  destruct (pow_order libm _ _ Hf (proj1 Hs') Hle) as [Hord | (Hx & Hsq & Hsmall)].
  - revert Hp Hp' Hord Hfb.
    generalize (libm_pow libm (fl (inject_Z (T - r') / inject_Z T)))
      (libm_pow libm (fl (inject_Z (T - r) / inject_Z T)))
      (fl (inject_Z (tokens_per_round cfg))).
    intros p' p b Hp Hp' Hord Hfb.
    apply to_int_mono; [apply fl_nonneg; nra | apply fl_mono; nra].
  - rewrite (small_square_amount cfg T r _ Hb Ht HT H1 ltac:(lia) Hx Hsq (proj1 Hp') Hsmall).
    apply to_int_nonneg, fl_nonneg.
    revert Hp Hfb. generalize (libm_pow libm (fl (inject_Z (T - r) / inject_Z T)))
      (fl (inject_Z (tokens_per_round cfg))). intros p b Hp Hfb. nra.
Qed.

(** Past the last round the amounts do not decrease with the round. *)
Lemma quadratic_past_last_grows libm cfg T k k' :
  faithful_pow libm ->
  distribution_type cfg = quadratic ->
  (0 < tokens_per_round cfg <= 2 ^ 1023)%Z ->
  (0 < config_total_amount cfg <= 2 ^ 1023)%Z ->
  total_rounds cfg = Ok T ->
  (0 <= k)%Z -> (k <= k')%Z -> (k' < T)%Z ->
  exists amount amount',
    round_amount libm cfg (T + k) = Ok amount /\
    round_amount libm cfg (T + k') = Ok amount' /\
    (0 <= amount)%Z /\ (amount <= amount')%Z.
Proof.
  intros Hf Hty Hb Ht HT H1 H2 H3.
  destruct (quadratic_past_last_value libm cfg T k Hf Hty Hb HT ltac:(lia)) as [Hval Hp].
  destruct (quadratic_past_last_value libm cfg T k' Hf Hty Hb HT ltac:(lia)) as [Hval' Hp'].
  eexists _, _. split; [exact Hval |]. split; [exact Hval' |].
  pose proof (fl_nonneg _ (inject_Z_nonneg _ (Z.lt_le_incl _ _ (proj1 Hb)))) as Hfb.
  set (mirrored := {| libm_log := libm_log libm; libm_pow := fun x => libm_pow libm (- x) |}).
  assert (Hfm : faithful_pow mirrored).
  { intros x. simpl. rewrite <- (Qopp_square x). apply Hf. }
  pose proof (share_bounds T (T - k) ltac:(lia) ltac:(lia)) as Hs.
  pose proof (share_antitone T (T - k') (T - k) ltac:(lia) ltac:(lia) ltac:(lia)) as Hle.
  destruct (pow_order mirrored _ _ Hfm (proj1 Hs) Hle) as [Hord | (Hx & Hsq & Hsmall)];
    simpl in *.
  - revert Hp Hp' Hord Hfb.
    generalize (libm_pow libm (- fl (inject_Z (T - (T - k)) / inject_Z T)))
      (libm_pow libm (- fl (inject_Z (T - (T - k')) / inject_Z T)))
      (fl (inject_Z (tokens_per_round cfg))).
    intros p p' b Hp Hp' Hord Hfb.
    split; [apply to_int_nonneg, fl_nonneg; nra |].
    apply to_int_mono; [apply fl_nonneg; nra | apply fl_mono; nra].
  - rewrite (small_square_amount cfg T (T - k') _ (proj1 Hb) Ht HT ltac:(lia) ltac:(lia)
               Hx Hsq (proj1 Hp) Hsmall).
    split; [done |]. apply to_int_nonneg, fl_nonneg.
    revert Hp' Hfb.
    generalize (libm_pow libm (- fl (inject_Z (T - (T - k')) / inject_Z T)))
      (fl (inject_Z (tokens_per_round cfg))). intros p b Hp' Hfb. nra.
Qed.

End RoundingFacts.

(** C7 (as the code has it): for a quadratic token with positive amounts that
    fit a double, on a platform whose [pow] is faithful (it returns one of the
    two doubles next to the exact square), total_rounds is at least 1 and at
    every round from 1 to total_rounds the calculation returns
    [int(tokens_per_round * ((total_rounds - round) / total_rounds) ** 2)] as
    double-precision arithmetic evaluates it: the quotient and the product
    rounded to the nearest double, the square as [pow] returns it. That
    amount is non-negative and lies between the amounts the same formula
    gives with the square rounded down and rounded up; it does not increase
    with the round; it is 0 at the last round; tokens_per_round = 100 with
    total_amount = 1000 gives 10 rounds and 25 at round 5. *)
Theorem quadratic_round_amount libm cfg :
  faithful_pow libm ->
  distribution_type cfg = quadratic ->
  0 < tokens_per_round cfg <= 2 ^ 1023 ->
  0 < config_total_amount cfg <= 2 ^ 1023 ->
  exists T,
    total_rounds cfg = Ok T /\ 1 <= T /\
    (forall r, 1 <= r <= T ->
       round_amount libm cfg r = Ok (quadratic_double libm (tokens_per_round cfg) T r) /\
       0 <= quadratic_low (tokens_per_round cfg) T r /\
       quadratic_low (tokens_per_round cfg) T r
       <= quadratic_double libm (tokens_per_round cfg) T r /\
       quadratic_double libm (tokens_per_round cfg) T r
       <= quadratic_high (tokens_per_round cfg) T r) /\
    (forall r r', 1 <= r -> r <= r' -> r' <= T ->
       quadratic_double libm (tokens_per_round cfg) T r'
       <= quadratic_double libm (tokens_per_round cfg) T r) /\
    round_amount libm cfg T = Ok 0 /\
    (tokens_per_round cfg = 100 -> config_total_amount cfg = 1000 ->
     T = 10 /\ round_amount libm cfg 5 = Ok 25).
Proof.
  intros Hf Hty Hb Ht.
  destruct (EmissionFacts.total_rounds_positive cfg Hb Ht) as (T & HT & HT1).
  exists T. split; [done |]. split; [done |]. split; [| split; [| split]].
  - intros r Hr. split.
    + by apply RoundingFacts.quadratic_round_amount_double.
    + apply RoundingFacts.quadratic_double_bracket; [done | lia | lia | lia].
  - intros r r' H1 H2 H3. by apply RoundingFacts.quadratic_double_antitone.
  - rewrite (RoundingFacts.quadratic_round_amount_double libm cfg T T) by (done || lia).
    by rewrite RoundingFacts.quadratic_double_last.
  - intros E1 E2.
    assert (T = 10) as ->.
    { unfold total_rounds in HT. rewrite E1, E2 in HT. vm_compute in HT. congruence. }
    split; [done |].
    rewrite (RoundingFacts.quadratic_round_amount_double libm cfg 10 5) by (done || lia).
    rewrite E1.
    destruct (RoundingFacts.quadratic_double_bracket libm 100 10 5 Hf)
      as (_ & Hlo & Hhi); [lia .. |].
    change (quadratic_low 100 10 5) with 25 in Hlo.
    change (quadratic_high 100 10 5) with 25 in Hhi.
    f_equal. lia.
Qed.

(** ** Stable descending sort *)

Section Sorting.
Context {A : Type} (key : A -> Z).

Lemma insert_desc_perm x l : insert_desc key x l ≡ₚ x :: l.
Proof.
  induction l as [| y l IH]; simpl; [done |].
  destruct (key x <? key y); [| done].
  rewrite IH. apply Permutation_swap.
Qed.

Lemma sort_desc_perm l : sort_desc key l ≡ₚ l.
Proof.
  induction l as [| x l IH]; simpl; [done |].
  rewrite insert_desc_perm. by rewrite IH.
Qed.

Lemma insert_desc_sorted x l :
  StronglySorted (descending key) l ->
  StronglySorted (descending key) (insert_desc key x l).
Proof.
  induction 1 as [| y l Hl IH Hy]; simpl.
  - repeat constructor.
  - destruct (Z.ltb_spec (key x) (key y)) as [Hlt | Hge].
    + constructor; [done |]. rewrite insert_desc_perm.
      constructor; [unfold descending; lia | done].
    + constructor; [by constructor |]. constructor; [done |].
      eapply Forall_impl; [apply Hy |]. unfold descending. intros. lia.
Qed.

Lemma sort_desc_sorted l : StronglySorted (descending key) (sort_desc key l).
Proof.
  induction l as [| x l IH]; simpl; [constructor | by apply insert_desc_sorted].
Qed.

Lemma insert_desc_stable k x l :
  filter (fun u => key u = k) (insert_desc key x l) = filter (fun u => key u = k) (x :: l).
Proof.
  induction l as [| y l IH]; simpl; [done |].
  destruct (Z.ltb_spec (key x) (key y)) as [Hlt | Hge]; [| done].
  rewrite (filter_cons _ y), IH, !(filter_cons _ x), (filter_cons _ y).
  repeat case_decide; try done; lia.
Qed.

(** Boxes with equal keys keep the order they had before the sort. *)
Lemma sort_desc_stable k l :
  filter (fun u => key u = k) (sort_desc key l) = filter (fun u => key u = k) l.
Proof.
  induction l as [| x l IH]; simpl; [done |].
  rewrite insert_desc_stable, !(filter_cons _ x), IH. done.
Qed.

End Sorting.

(** ** [select_utxos]: no box is taken twice *)

Lemma consistent_snoc st st' box :
  consistent st ->
  box_id box ∉ box_ids st ->
  boxes st' = boxes st ++ [box] ->
  box_ids st' = {[box_id box]} ∪ box_ids st ->
  consistent st'.
Proof.
  intros [Hnd Hids] Hnew Hb Hi. split.
  - rewrite Hb, fmap_app. apply NoDup_app. split; [done |]. split.
    + intros x Hx ->%list_elem_of_singleton.
      apply Hnew. rewrite Hids. by apply elem_of_list_to_set.
    + apply NoDup_singleton.
  - rewrite Hi, Hb, Hids, fmap_app. simpl. rewrite list_to_set_snoc_L. apply (comm_L _).
Qed.

Lemma use_multi_token_box_consistent st box :
  consistent st -> consistent (use_multi_token_box st box).
Proof.
  intros H. unfold use_multi_token_box. case_decide; [done |].
  by eapply consistent_snoc.
Qed.

Lemma first_pass_consistent all_utxos st :
  consistent st -> consistent (first_pass all_utxos st).
Proof.
  unfold first_pass. generalize (sort_desc (needed_tokens_held (token_amounts st))
                                   (multi_token_boxes all_utxos)).
  intros l. revert st. induction l as [| u l IH]; intros st H; simpl; [done |].
  by apply IH, use_multi_token_box_consistent.
Qed.

Lemma top_up_consistent dist l st :
  consistent st ->
  NoDup (box_id <$> l) ->
  (forall u, u ∈ l -> box_id u ∉ box_ids st) ->
  consistent (top_up dist st l).
Proof.
  revert st. induction l as [| u l IH]; intros st Hc Hnd Hfresh; simpl; [done |].
  destruct (_ <=? _); [done |].
  rewrite fmap_cons in Hnd. apply NoDup_cons in Hnd as [Hu Hnd].
  apply IH; [| done |].
  - eapply consistent_snoc; [done | | done | done].
    apply Hfresh. apply list_elem_of_here.
  - intros v Hv. simpl. intros [Heq%elem_of_singleton | Hin]%elem_of_union.
    + apply Hu. rewrite <- Heq. by apply list_elem_of_fmap_2.
    + by apply (Hfresh v); [apply list_elem_of_further |].
Qed.

Lemma available_boxes_unused all_utxos st tid u :
  u ∈ available_boxes all_utxos st tid ->
  (box_id u ∉ box_ids st) /\ (u ∈ get_utxos all_utxos tid).
Proof.
  unfold available_boxes. rewrite sort_desc_perm. by intros ?%list_elem_of_filter.
Qed.

Lemma available_boxes_NoDup all_utxos st tid :
  listed_once all_utxos -> NoDup (box_id <$> available_boxes all_utxos st tid).
Proof.
  intros Hu. unfold available_boxes. rewrite sort_desc_perm.
  apply (sublist_NoDup _ (box_id <$> get_utxos all_utxos tid)); [apply Hu | apply fmap_sublist, sublist_filter].
Qed.

Lemma fill_missing_consistent all_utxos st dist :
  listed_once all_utxos -> consistent st -> consistent (fill_missing all_utxos st dist).
Proof.
  intros Hu Hc. unfold fill_missing. destruct (_ <? _); [| done].
  apply top_up_consistent; [done | by apply available_boxes_NoDup |].
  intros u Hin. by apply available_boxes_unused in Hin as [? _].
Qed.

Lemma second_pass_consistent all_utxos dists st :
  listed_once all_utxos -> consistent st -> consistent (second_pass all_utxos dists st).
Proof.
  intros Hu. unfold second_pass. revert st.
  induction dists as [| d dists IH]; intros st Hc; simpl; [done |].
  by apply IH, fill_missing_consistent.
Qed.

Lemma select_utxos_ok all_utxos dists n s :
  select_utxos all_utxos dists n = Ok s ->
  s = two_pass_selection all_utxos dists /\
  missing_tokens dists s = [] /\
  needed_erg n <= total_erg s.
Proof.
  unfold select_utxos. destruct (missing_tokens _ _) eqn:Hm; [| done].
  destruct (Z.ltb_spec (total_erg (two_pass_selection all_utxos dists)) (needed_erg n));
    [done |].
  by intros [= <-].
Qed.

(** C4 (as the code has it): when [select_utxos] succeeds on a snapshot in
    which no token lists a box twice, no UTXO identifier occurs more than once
    among the selected boxes, and the returned [box_ids] is exactly the set of
    their identifiers: one used-identifier set serves both passes and all the
    tokens, so a box listed under several tokens is still taken once. Pass 1
    tests membership before each consumption; pass 2 tests it once, when it
    builds the list of candidates of a token, and not again before each
    consumption, which is why a list with a repeated box is excluded. *)
Theorem select_utxos_no_double_spend all_utxos token_distributions num_recipients s :
  listed_once all_utxos ->
  select_utxos all_utxos token_distributions num_recipients = Ok s ->
  NoDup (box_id <$> boxes s) /\
  box_ids s = list_to_set (box_id <$> boxes s).
Proof.
  intros Hu [-> _]%select_utxos_ok.
  apply second_pass_consistent; [done |].
  apply first_pass_consistent. split; [constructor | done].
Qed.

(** ** [select_utxos]: the amounts recorded *)

(** [token_amounts[dist.token_id]] never misses: the keys set up from the
    distributions stay through both passes, so [amount_of] reads what the
    subscript reads. *)
Lemma initial_token_amounts_keys dists d :
  d ∈ dists -> is_Some (initial_token_amounts dists !! token_id d).
Proof.
  unfold initial_token_amounts. generalize (∅ : gmap string Z).
  induction dists as [| d' dists IH] using rev_ind; intros m Hin.
  - by apply elem_of_nil in Hin.
  - rewrite foldl_app. simpl. apply lookup_insert_is_Some'.
    apply elem_of_app in Hin as [Hin | ->%list_elem_of_singleton]; [| by left].
    right. by apply IH.
Qed.

Lemma add_box_tokens_keys (ta : gmap string Z) box tid :
  is_Some (ta !! tid) -> is_Some (add_box_tokens ta box !! tid).
Proof.
  intros Hta. unfold add_box_tokens.
  apply (map_fold_weak_ind (fun (r : gmap string Z) (_ : gmap string Z) =>
                              is_Some (r !! tid))); [done |].
  intros i x m r _ Hr. destruct (r !! i); [| done].
  apply lookup_insert_is_Some'. by right.
Qed.

Lemma top_up_keys dist l st tid :
  is_Some (token_amounts st !! tid) -> is_Some (token_amounts (top_up dist st l) !! tid).
Proof.
  revert st. induction l as [| u l IH]; intros st Hst; simpl; [done |].
  destruct (_ <=? _); [done |]. apply IH. simpl.
  apply lookup_insert_is_Some'. by right.
Qed.

Lemma first_pass_keys all_utxos st tid :
  is_Some (token_amounts st !! tid) ->
  is_Some (token_amounts (first_pass all_utxos st) !! tid).
Proof.
  unfold first_pass.
  generalize (sort_desc (needed_tokens_held (token_amounts st))
                (multi_token_boxes all_utxos)).
  intros l. revert st. induction l as [| u l IH]; intros st Hst; simpl; [done |].
  apply IH. unfold use_multi_token_box. case_decide; [done |]. simpl.
  by apply add_box_tokens_keys.
Qed.

Lemma second_pass_keys all_utxos dists st tid :
  is_Some (token_amounts st !! tid) ->
  is_Some (token_amounts (second_pass all_utxos dists st) !! tid).
Proof.
  unfold second_pass. revert st.
  induction dists as [| d dists IH]; intros st Hst; simpl; [done |].
  apply IH. unfold fill_missing. destruct (_ <? _); [| done]. by apply top_up_keys.
Qed.

Lemma two_pass_selection_keys all_utxos dists d :
  d ∈ dists ->
  is_Some (token_amounts (two_pass_selection all_utxos dists) !! token_id d).
Proof.
  intros Hd. unfold two_pass_selection.
  apply second_pass_keys, first_pass_keys. by apply initial_token_amounts_keys.
Qed.

(** ** [select_utxos]: the order of the first pass *)

Lemma first_occurrences_elem seen l u : u ∈ first_occurrences seen l -> u ∈ l.
Proof.
  revert seen. induction l as [| v l IH]; intros seen; simpl; [done |].
  case_decide.
  - intros H'. by eapply list_elem_of_further, IH.
  - intros [-> | H']%elem_of_cons; [apply list_elem_of_here |].
    by eapply list_elem_of_further, IH.
Qed.

Lemma first_pass_fold l st :
  boxes (foldl use_multi_token_box st l) = boxes st ++ first_occurrences (box_ids st) l /\
  box_ids (foldl use_multi_token_box st l) = box_ids st ∪ list_to_set (box_id <$> l).
Proof.
  revert st. induction l as [| u l IH]; intros st; simpl.
  - split; [by rewrite app_nil_r | by rewrite (right_id_L ∅ (∪))].
  - destruct (IH (use_multi_token_box st u)) as [-> ->].
    unfold use_multi_token_box. case_decide as Hin; simpl.
    + split; [done |].
      apply set_eq. intros x. rewrite !elem_of_union, elem_of_singleton.
      split; [tauto | intros [? | [-> | ?]]; tauto].
    + split; [by rewrite <- app_assoc |].
      rewrite (assoc_L (∪)). f_equal. apply (comm_L _).
Qed.

Lemma get_utxos_listed all_utxos tid u :
  u ∈ get_utxos all_utxos tid -> exists entry, entry ∈ all_utxos /\ u ∈ entry.2.
Proof.
  induction all_utxos as [| [k us] rest IH]; simpl; [by intros ?%elem_of_nil |].
  case_decide.
  - intros Hu. exists (k, us). split; [apply list_elem_of_here | done].
  - intros (entry & ? & ?)%IH. exists entry. split; [by apply list_elem_of_further | done].
Qed.

Lemma multi_token_boxes_elem all_utxos u :
  u ∈ multi_token_boxes all_utxos <->
  (1 < size (tokens u))%nat /\ exists entry, entry ∈ all_utxos /\ u ∈ entry.2.
Proof.
  unfold multi_token_boxes. rewrite list_elem_of_In, in_flat_map. split.
  - intros (entry & He & Hu). apply list_elem_of_In in He, Hu.
    apply list_elem_of_filter in Hu as [? ?]. eauto.
  - intros (Hs & entry & He & Hu). exists entry.
    rewrite <- !list_elem_of_In. split; [done |]. by apply list_elem_of_filter.
Qed.

Lemma top_up_grows dist l st :
  exists taken,
    boxes (top_up dist st l) = boxes st ++ taken /\
    (forall u, u ∈ taken -> u ∈ l) /\
    box_ids st ⊆ box_ids (top_up dist st l).
Proof.
  revert st. induction l as [| u l IH]; intros st; simpl.
  - exists []. by rewrite app_nil_r.
  - destruct (_ <=? _).
    + exists []. rewrite app_nil_r. split; [done |]. split; [| done].
      by intros ? ?%elem_of_nil.
    + destruct (IH (use_box_for (token_id dist) st u)) as (taken & Hb & Hin & Hsub).
      exists (u :: taken). simpl in *. split; [by rewrite Hb, <- app_assoc |]. split.
      * intros v [-> | Hv]%elem_of_cons; [apply list_elem_of_here |].
        by apply list_elem_of_further, Hin.
      * etrans; [| apply Hsub]. apply union_subseteq_r.
Qed.

Lemma second_pass_grows all_utxos dists st :
  exists taken,
    boxes (second_pass all_utxos dists st) = boxes st ++ taken /\
    (forall u, u ∈ taken ->
       (box_id u ∉ box_ids st) /\ exists tid, u ∈ get_utxos all_utxos tid) /\
    box_ids st ⊆ box_ids (second_pass all_utxos dists st).
Proof.
  unfold second_pass. revert st. induction dists as [| d dists IH]; intros st; simpl.
  - exists []. rewrite app_nil_r. split; [done |]. split; [| done].
    by intros ? ?%elem_of_nil.
  - assert (Hstep : exists taken,
              boxes (fill_missing all_utxos st d) = boxes st ++ taken /\
              (forall u, u ∈ taken ->
                 (box_id u ∉ box_ids st) /\ exists tid, u ∈ get_utxos all_utxos tid) /\
              box_ids st ⊆ box_ids (fill_missing all_utxos st d)).
    { unfold fill_missing. destruct (_ <? _).
      - destruct (top_up_grows d (available_boxes all_utxos st (token_id d)) st)
          as (taken & Hb & Hin & Hsub).
        exists taken. split; [done |]. split; [| done].
        intros u Hu. apply Hin, available_boxes_unused in Hu as [? ?]. eauto.
      - exists []. rewrite app_nil_r. split; [done |]. split; [| done].
        by intros ? ?%elem_of_nil. }
    destruct Hstep as (taken1 & Hb1 & Hin1 & Hsub1).
    destruct (IH (fill_missing all_utxos st d)) as (taken2 & Hb2 & Hin2 & Hsub2).
    exists (taken1 ++ taken2). split; [by rewrite Hb2, Hb1, <- app_assoc |]. split.
    + intros u [Hu | Hu]%elem_of_app; [by apply Hin1 |].
      destruct (Hin2 u Hu) as [Hfresh Hl]. split; [| done].
      intros Hc. apply Hfresh. by apply Hsub1.
    + by etrans.
Qed.

(** C5 (as the code has it): the candidates of pass 1 are exactly the listed
    boxes holding more than one token of any kind, requested or not. They are
    sorted, by a stable sort, in descending order of the number of distinct
    requested tokens they hold, so boxes with equal counts keep their
    snapshot order (identifiers are not compared), and each is consumed at its
    first occurrence. Every box selected in pass 1 precedes every box that pass
    2 adds, and those hold at most one token: a box holding two requested
    tokens is selected ahead of any single-token box, whatever the amounts. *)
Theorem first_pass_selection_order all_utxos token_distributions :
  let st0 := empty_selection token_distributions in
  let key := needed_tokens_held (token_amounts st0) in
  let candidates := multi_token_boxes all_utxos in
  let sorted := sort_desc key candidates in
  let st1 := first_pass all_utxos st0 in
  (forall u, u ∈ candidates <->
     (1 < size (tokens u))%nat /\ exists entry, entry ∈ all_utxos /\ u ∈ entry.2) /\
  sorted ≡ₚ candidates /\
  StronglySorted (descending key) sorted /\
  (forall k, filter (fun u => key u = k) sorted = filter (fun u => key u = k) candidates) /\
  boxes st1 = first_occurrences ∅ sorted /\
  (forall u, u ∈ candidates -> box_id u ∈ box_ids st1) /\
  exists rest,
    boxes (two_pass_selection all_utxos token_distributions) = boxes st1 ++ rest /\
    Forall (fun u => (1 < size (tokens u))%nat) (boxes st1) /\
    Forall (fun u => (size (tokens u) <= 1)%nat) rest.
Proof.
  intros st0 key candidates sorted st1.
  destruct (first_pass_fold sorted st0) as [Hboxes Hids].
  change (foldl use_multi_token_box st0 sorted) with st1 in Hboxes, Hids.
  simpl in Hboxes.
  assert (Hused : forall u, u ∈ candidates -> box_id u ∈ box_ids st1).
  { intros u Hu. rewrite Hids. apply elem_of_union_r, elem_of_list_to_set.
    apply list_elem_of_fmap_2. unfold sorted. by rewrite sort_desc_perm. }
  split; [apply multi_token_boxes_elem |].
  split; [apply sort_desc_perm |].
  split; [apply sort_desc_sorted |].
  split; [intros k; apply sort_desc_stable |].
  split; [done |]. split; [done |].
  destruct (second_pass_grows all_utxos token_distributions st1) as (rest & Hb & Hin & _).
  exists rest. split; [done |]. split.
  - apply Forall_forall. intros u Hu. rewrite Hboxes in Hu.
    apply first_occurrences_elem in Hu. unfold sorted in Hu.
    rewrite sort_desc_perm in Hu. by apply multi_token_boxes_elem in Hu as [? _].
  - apply Forall_forall. intros u Hu.
    destruct (Hin u Hu) as [Hfresh (tid & Hl)].
    destruct (le_lt_dec (size (tokens u)) 1) as [| Hgt]; [done |].
    exfalso. apply Hfresh, Hused. apply multi_token_boxes_elem.
    split; [done |]. by eapply get_utxos_listed.
Qed.

(** ** [select_utxos]: what is recorded is held *)

Lemma amount_of_empty tid : amount_of ∅ tid = 0.
Proof. unfold amount_of. by rewrite lookup_empty. Qed.

Lemma sum_app l1 l2 : sum (l1 ++ l2) = sum l1 + sum l2.
Proof. unfold sum. induction l1 as [| x l1 IH]; simpl; lia. Qed.

Lemma sum_perm l1 l2 : l1 ≡ₚ l2 -> sum l1 = sum l2.
Proof. unfold sum. induction 1; simpl; lia. Qed.

Lemma amount_of_insert (m : gmap string Z) k v tid :
  amount_of (<[k := v]> m) tid = if decide (k = tid) then v else amount_of m tid.
Proof. unfold amount_of. rewrite lookup_insert. by case_decide. Qed.

Lemma sum_fmap_snoc {A} (f : A -> Z) l x : sum (f <$> l ++ [x]) = sum (f <$> l) + f x.
Proof. rewrite fmap_app, sum_app. unfold sum. simpl. lia. Qed.

Lemma held_snoc l u tid : held (l ++ [u]) tid = held l tid + amount_of (tokens u) tid.
Proof. apply (sum_fmap_snoc (fun v => amount_of (tokens v) tid)). Qed.

Lemma initial_token_amounts_zero dists tid v :
  initial_token_amounts dists !! tid = Some v -> v = 0.
Proof.
  unfold initial_token_amounts.
  assert (H : forall m : gmap string Z,
            (forall v, m !! tid = Some v -> v = 0) ->
            foldl (fun m dist => <[token_id dist := 0]> m) m dists !! tid = Some v -> v = 0).
  { induction dists as [| d dists IH]; intros m Hm; simpl; [apply Hm |].
    apply IH. intros w. rewrite lookup_insert. case_decide; [by intros [= <-] | apply Hm]. }
  apply H. intros w. by rewrite lookup_empty.
Qed.

Lemma add_box_tokens_lookup (ta : gmap string Z) box tid :
  add_box_tokens ta box !! tid
  = (fun have => have + amount_of (tokens box) tid) <$> ta !! tid.
Proof.
  unfold add_box_tokens.
  apply (map_fold_weak_ind (fun (r m : gmap string Z) =>
           forall tid, r !! tid = (fun have => have + amount_of m tid) <$> ta !! tid)).
  - intros t. rewrite amount_of_empty. destruct (ta !! t); simpl; [f_equal; lia | done].
  - intros i x m r Hi IH t. unfold amount_of in *.
    destruct (decide (t = i)) as [-> | Hne].
    + specialize (IH i). rewrite Hi in IH. simpl in IH. rewrite lookup_insert_eq. simpl.
      rewrite IH. destruct (ta !! i); simpl; [| done].
      rewrite lookup_insert_eq. f_equal. lia.
    + rewrite (lookup_insert_ne m) by done. rewrite <- IH.
      destruct (r !! i); [by rewrite lookup_insert_ne | done].
Qed.

Lemma single_token (m : gmap string Z) t tid :
  (size m <= 1)%nat -> is_Some (m !! t) -> tid <> t -> m !! tid = None.
Proof.
  intros Hsize Ht Hne. destruct (m !! tid) as [y |] eqn:Htid; [| done]. exfalso.
  pose proof (map_size_delete_Some t m Ht) as Hdel.
  assert (Hne0 : size (delete t m) <> 0%nat).
  { apply (map_size_ne_0_lookup_2 _ tid). rewrite lookup_delete_ne by done. by rewrite Htid. }
  lia.
Qed.

Lemma use_multi_token_box_recorded st box :
  recorded st -> recorded (use_multi_token_box st box).
Proof.
  intros [Herg Htok]. unfold use_multi_token_box. case_decide; [done |].
  split; simpl.
  - rewrite sum_fmap_snoc. lia.
  - intros tid. rewrite held_snoc. unfold amount_of at 1.
    rewrite add_box_tokens_lookup. intros Hsome.
    destruct (token_amounts st !! tid) as [have |] eqn:Hhave; [| by destruct Hsome].
    simpl. specialize (Htok tid). rewrite Hhave in Htok. unfold amount_of in Htok at 1.
    rewrite Hhave in Htok. simpl in Htok. rewrite <- Htok; [done | by eexists].
Qed.

Lemma first_pass_recorded all_utxos st :
  recorded st -> recorded (first_pass all_utxos st).
Proof.
  unfold first_pass.
  generalize (sort_desc (needed_tokens_held (token_amounts st))
                (multi_token_boxes all_utxos)).
  intros l. revert st. induction l as [| u l IH]; intros st Hst; simpl; [done |].
  by apply IH, use_multi_token_box_recorded.
Qed.

Lemma top_up_recorded dist l st :
  recorded st ->
  is_Some (token_amounts st !! token_id dist) ->
  (forall u, u ∈ l -> (size (tokens u) <= 1)%nat /\ is_Some (tokens u !! token_id dist)) ->
  recorded (top_up dist st l).
Proof.
  revert st. induction l as [| u l IH]; intros st Hrec Hkey Hl; simpl; [done |].
  destruct (_ <=? _); [done |].
  destruct (Hl u (list_elem_of_here _ _)) as [Hsize Hholds].
  apply IH.
  - destruct Hrec as [Herg Htok]. split; simpl.
    + rewrite sum_fmap_snoc. lia.
    + intros tid Hsome. rewrite held_snoc, amount_of_insert.
      case_decide as Heq.
      * subst tid. by rewrite Htok by done.
      * rewrite lookup_insert_ne in Hsome by done.
        unfold amount_of at 2. rewrite (single_token _ (token_id dist) tid) by done.
        simpl. rewrite <- Htok by done. lia.
  - simpl. apply lookup_insert_is_Some'. by left.
  - intros v Hv. by apply Hl, list_elem_of_further.
Qed.

(** Once the first pass is over, the boxes left to the second pass hold one
    token at most: on a snapshot that lists boxes under tokens they hold,
    both passes record exactly what the selected boxes hold. *)
Lemma two_pass_selection_recorded all_utxos dists :
  lists_only_holders all_utxos ->
  recorded (two_pass_selection all_utxos dists).
Proof.
  intros Hholds. unfold two_pass_selection.
  set (st0 := empty_selection dists).
  assert (H1 : recorded (first_pass all_utxos st0)).
  { apply first_pass_recorded. split; [done |].
    intros tid [v Hv]. unfold amount_of. simpl in *. rewrite Hv.
    by rewrite (initial_token_amounts_zero _ _ _ Hv). }
  assert (Hused : forall u, u ∈ multi_token_boxes all_utxos ->
                    box_id u ∈ box_ids (first_pass all_utxos st0)).
  { intros u Hu. unfold first_pass.
    destruct (first_pass_fold (sort_desc (needed_tokens_held (token_amounts st0))
                                 (multi_token_boxes all_utxos)) st0) as [_ ->].
    apply elem_of_union_r, elem_of_list_to_set, list_elem_of_fmap_2.
    by rewrite sort_desc_perm. }
  assert (Hkeys : forall d, d ∈ dists ->
                    is_Some (token_amounts (first_pass all_utxos st0) !! token_id d)).
  { intros d Hd. by apply first_pass_keys, initial_token_amounts_keys. }
  revert H1 Hused Hkeys. generalize (first_pass all_utxos st0). clear st0.
  unfold second_pass. induction dists as [| d dists IH] using rev_ind;
    intros st Hrec Hused Hkeys; [done |].
  rewrite foldl_app. simpl.
  set (st' := foldl (fill_missing all_utxos) st dists).
  assert (Hrec' : recorded st').
  { apply IH; [done | done |]. intros d' Hd'. apply Hkeys, elem_of_app. by left. }
  destruct (second_pass_grows all_utxos dists st) as (_ & _ & _ & Hsub).
  unfold second_pass in Hsub. fold st' in Hsub.
  unfold fill_missing. destruct (_ <? _); [| done].
  apply top_up_recorded; [done | |].
  - apply (second_pass_keys all_utxos dists st), Hkeys, elem_of_app.
    right. by apply list_elem_of_singleton.
  - intros u [Hfresh Hlisted]%available_boxes_unused. split; [| by apply Hholds].
    destruct (le_lt_dec (size (tokens u)) 1) as [| Hgt]; [done |].
    exfalso. apply Hfresh, Hsub, Hused. apply multi_token_boxes_elem.
    split; [done |]. by eapply get_utxos_listed.
Qed.

Lemma top_up_erg dist l st :
  total_erg st = sum (value <$> boxes st) ->
  total_erg (top_up dist st l) = sum (value <$> boxes (top_up dist st l)).
Proof.
  revert st. induction l as [| u l IH]; intros st Hst; simpl; [done |].
  destruct (_ <=? _); [done |]. apply IH. simpl. rewrite sum_fmap_snoc. lia.
Qed.

(** The ERG total recorded is the ERG of the selected boxes. *)
Lemma two_pass_selection_erg all_utxos dists :
  total_erg (two_pass_selection all_utxos dists)
  = sum (value <$> boxes (two_pass_selection all_utxos dists)).
Proof.
  unfold two_pass_selection, second_pass.
  assert (H1 : total_erg (first_pass all_utxos (empty_selection dists))
               = sum (value <$> boxes (first_pass all_utxos (empty_selection dists)))).
  { unfold first_pass.
    generalize (sort_desc (needed_tokens_held (token_amounts (empty_selection dists)))
                  (multi_token_boxes all_utxos)).
    assert (H0 : total_erg (empty_selection dists)
                 = sum (value <$> boxes (empty_selection dists))) by done.
    revert H0. generalize (empty_selection dists). intros st H0 l. revert st H0.
    induction l as [| u l IH]; intros st H0; simpl; [done |].
    apply IH. unfold use_multi_token_box. case_decide; [done |]. simpl.
    rewrite sum_fmap_snoc. lia. }
  revert H1. generalize (first_pass all_utxos (empty_selection dists)).
  generalize dists at 1 2 as ds.
  induction ds as [| d ds IH]; intros st Hst; simpl; [done |].
  apply IH. unfold fill_missing. destruct (_ <? _); [| done]. by apply top_up_erg.
Qed.

(** ** [select_utxos]: outcome *)

Lemma missing_tokens_nil dists st :
  missing_tokens dists st = [] <->
  forall d, d ∈ dists -> total_amount d <= amount_of (token_amounts st) (token_id d).
Proof.
  unfold missing_tokens. induction dists as [| d dists IH]; simpl.
  - split; [intros _ d Hd; by apply elem_of_nil in Hd | done].
  - rewrite filter_cons. case_decide as Hd; simpl.
    + split; [done |]. intros H. specialize (H d (list_elem_of_here _ _)). lia.
    + rewrite IH. split.
      * intros H d' [-> | Hin]%elem_of_cons; [lia | by apply H].
      * intros H d' Hin. by apply H, list_elem_of_further.
Qed.

Lemma missing_tokens_elem dists st d :
  d ∈ dists ->
  amount_of (token_amounts st) (token_id d) < total_amount d <->
  Shortfall (token_id d) (total_amount d) (amount_of (token_amounts st) (token_id d))
    ∈ missing_tokens dists st.
Proof.
  intros Hin. unfold missing_tokens. rewrite list_elem_of_fmap. split.
  - intros Hlt. exists d. split; [done |]. by apply list_elem_of_filter.
  - intros (d' & [= E1 E2 E3] & [Hlt _]%list_elem_of_filter). lia.
Qed.

(** C3 (as the code has it): [select_utxos] either returns the two-pass
    selection, whose recorded amount of every distributed token is at least
    that distribution's total_amount and whose ERG total is at least
    [(per_recipient + minimum) * recipients + fee]; or it fails, naming every
    token that is short (with the amount needed and the amount held) when
    there is one, and naming the ERG shortfall only when no token is short.
    It fails exactly when one of the two requirements is not met after the
    two passes. The ERG total recorded is that of the selected boxes, and so
    are the token amounts on a snapshot that lists boxes under tokens they
    hold. *)
Theorem select_utxos_outcome all_utxos token_distributions num_recipients :
  let st := two_pass_selection all_utxos token_distributions in
  let short d := amount_of (token_amounts st) (token_id d) < total_amount d in
  match select_utxos all_utxos token_distributions num_recipients with
  | Ok s =>
      s = st /\
      (forall d, d ∈ token_distributions -> ~ short d) /\
      needed_erg num_recipients <= total_erg s
  | Err e =>
      (e = InsufficientTokens (missing_tokens token_distributions st) /\
       exists d, d ∈ token_distributions /\ short d) \/
      (e = InsufficientERG (needed_erg num_recipients) (total_erg st) /\
       (forall d, d ∈ token_distributions -> ~ short d) /\
       total_erg st < needed_erg num_recipients)
  end /\
  (forall d, d ∈ token_distributions ->
     short d <->
     Shortfall (token_id d) (total_amount d) (amount_of (token_amounts st) (token_id d))
       ∈ missing_tokens token_distributions st) /\
  total_erg st = sum (value <$> boxes st) /\
  (lists_only_holders all_utxos ->
   forall d, d ∈ token_distributions ->
     amount_of (token_amounts st) (token_id d) = held (boxes st) (token_id d)).
Proof.
  intros st short.
  split; [| split; [intros d Hd; by apply missing_tokens_elem | split]];
    [| apply two_pass_selection_erg |].
  2: { intros Hholds d Hd.
       apply (two_pass_selection_recorded all_utxos token_distributions Hholds).
       by apply two_pass_selection_keys. }
  unfold select_utxos. fold st.
  destruct (missing_tokens token_distributions st) as [| m ms] eqn:Hm.
  - pose proof (proj1 (missing_tokens_nil _ _) Hm) as Hall.
    assert (Hnone : forall d, d ∈ token_distributions -> ~ short d).
    { intros d Hd. specialize (Hall d Hd). unfold short. lia. }
    destruct (Z.ltb_spec (total_erg st) (needed_erg num_recipients)).
    + right. split; [done |]. split; [exact Hnone | done].
    + split; [done |]. split; [exact Hnone | done].
  - left. split; [done |].
    assert (Hin : m ∈ missing_tokens token_distributions st).
    { rewrite Hm. apply list_elem_of_here. }
    unfold missing_tokens in Hin.
    apply list_elem_of_fmap in Hin as (d & _ & [Hlt Hd]%list_elem_of_filter).
    by exists d.
Qed.

(** ** [distribute_multiple_tokens] *)

Lemma sum_const {A} (l : list A) c : sum ((fun _ => c) <$> l) = c * Z.of_nat (length l).
Proof.
  unfold sum. induction l as [| x l IH]; [simpl; lia |].
  rewrite fmap_cons. cbn [foldr length]. rewrite Nat2Z.inj_succ. lia.
Qed.

Lemma recipient_tokens_fold dists (m : gmap string Z) tid :
  tid ∉ token_id <$> dists ->
  foldl (fun m dist => <[token_id dist := amount_per_recipient dist]> m) m dists !! tid
  = m !! tid.
Proof.
  revert m. induction dists as [| d dists IH]; intros m Hnot; simpl; [done |].
  rewrite fmap_cons in Hnot. apply not_elem_of_cons in Hnot as [Hne Hnot].
  rewrite IH by done. by rewrite lookup_insert_ne.
Qed.

Lemma recipient_tokens_lookup dists d :
  NoDup (token_id <$> dists) -> d ∈ dists ->
  recipient_tokens dists !! token_id d = Some (amount_per_recipient d).
Proof.
  unfold recipient_tokens. generalize (∅ : gmap string Z).
  induction dists as [| d' dists IH]; intros m Hnd Hin; simpl.
  - by apply elem_of_nil in Hin.
  - rewrite fmap_cons in Hnd. apply NoDup_cons in Hnd as [Hnot Hnd].
    apply elem_of_cons in Hin as [-> | Hin]; [| by apply IH].
    rewrite recipient_tokens_fold by done. by rewrite lookup_insert_eq.
Qed.

Lemma change_tokens_fold all_utxos used dists (m : gmap string Z) tid :
  (forall d, d ∈ dists -> token_id d = tid ->
     used_total all_utxos used tid <= total_amount d) ->
  foldl (fun m dist =>
           let change_amount :=
             used_total all_utxos used (token_id dist) - total_amount dist in
           if 0 <? change_amount then <[token_id dist := change_amount]> m else m)
        m dists !! tid
  = m !! tid.
Proof.
  revert m. induction dists as [| d dists IH]; intros m Hle; simpl; [done |].
  rewrite IH by (intros; apply Hle; [by apply list_elem_of_further | done]).
  destruct (Z.ltb_spec 0 (used_total all_utxos used (token_id d) - total_amount d));
    [| done].
  apply lookup_insert_ne. intros E.
  specialize (Hle d (list_elem_of_here _ _) E). rewrite E in *. lia.
Qed.


Lemma change_tokens_lookup all_utxos used dists d :
  NoDup (token_id <$> dists) -> d ∈ dists ->
  amount_of (change_tokens all_utxos used dists) (token_id d)
  = Z.max 0 (used_total all_utxos used (token_id d) - total_amount d).
Proof.
  unfold change_tokens, amount_of.
  assert (H : forall m : gmap string Z,
    m !! token_id d = None -> NoDup (token_id <$> dists) -> d ∈ dists ->
    default 0 (foldl (fun m dist =>
           let change_amount :=
             used_total all_utxos used (token_id dist) - total_amount dist in
           if 0 <? change_amount then <[token_id dist := change_amount]> m else m)
        m dists !! token_id d)
    = Z.max 0 (used_total all_utxos used (token_id d) - total_amount d));
    [| by apply H].
  induction dists as [| d' dists IH]; intros m Hm Hnd Hin; simpl.
  - by apply elem_of_nil in Hin.
  - rewrite fmap_cons in Hnd. apply NoDup_cons in Hnd as [Hnot Hnd].
    apply elem_of_cons in Hin as [-> | Hin].
    + rewrite change_tokens_fold.
      * destruct (Z.ltb_spec 0 (used_total all_utxos used (token_id d') - total_amount d')).
        -- rewrite lookup_insert_eq. simpl. lia.
        -- rewrite Hm. simpl. lia.
      * intros d Hd E. exfalso. apply Hnot. rewrite <- E. by apply list_elem_of_fmap_2.
    + apply IH; [| done | done].
      destruct (0 <? _); [| done]. rewrite lookup_insert_ne; [done |].
      intros E. apply Hnot. rewrite E. by apply list_elem_of_fmap_2.
Qed.

Lemma filter_recipient_outputs (f : string -> OutBox) recipients :
  (forall r, is_change (f r) = false) ->
  List.filter (fun o => negb (is_change o)) (f <$> recipients) = f <$> recipients /\
  List.filter is_change (f <$> recipients) = [].
Proof.
  intros Hf. induction recipients as [| r rs [IH1 IH2]]; [done |].
  rewrite fmap_cons. cbn [List.filter]. rewrite (Hf r). cbn [negb].
  by rewrite IH1, IH2.
Qed.


Lemma collect_token_ok box_found all_utxos tid l st remaining :
  collected_ok all_utxos st ->
  (forall u, u ∈ l -> exists t, u ∈ get_utxos all_utxos t) ->
  collected_ok all_utxos (collect_token box_found tid st remaining l).
Proof.
  revert st remaining. induction l as [| u l IH]; intros st remaining Hok Hl; simpl; [done |].
  assert (Hl' : forall v, v ∈ l -> exists t, v ∈ get_utxos all_utxos t).
  { intros v Hv. by apply Hl, list_elem_of_further. }
  case_decide as Hused; [by apply IH |].
  destruct (box_found (box_id u)).
  - assert (Hok' : collected_ok all_utxos
                     {| inputs := inputs st ++ [u];
                        used_utxos := {[box_id u]} ∪ used_utxos st;
                        total_available_erg := total_available_erg st + value u |}).
    { destruct Hok as (Hnd & Hids & Hlisted). split; [| split]; simpl.
      - rewrite fmap_app. apply NoDup_app. split; [done |]. split.
        + intros x Hx ->%list_elem_of_singleton.
          apply Hused. rewrite Hids. by apply elem_of_list_to_set.
        + apply NoDup_singleton.
      - rewrite Hids, fmap_app. simpl. rewrite list_to_set_snoc_L. apply (comm_L _).
      - intros v [Hv | ->%list_elem_of_singleton]%elem_of_app; [by apply Hlisted |].
        apply Hl, list_elem_of_here. }
    destruct (_ <=? 0); [done | by apply IH].
  - destruct (_ <=? 0); [done | by apply IH].
Qed.

Lemma collect_inputs_ok box_found all_utxos dists :
  collected_ok all_utxos (collect_inputs box_found all_utxos dists).
Proof.
  unfold collect_inputs.
  assert (H0 : collected_ok all_utxos
                 {| inputs := []; used_utxos := ∅; total_available_erg := 0 |}).
  { split; [constructor |]. split; [done |]. by intros ? ?%elem_of_nil. }
  revert H0. generalize {| inputs := []; used_utxos := ∅; total_available_erg := 0 |}.
  induction dists as [| d dists IH]; intros st Hok; simpl; [done |].
  apply IH, collect_token_ok; [done | eauto].
Qed.

Lemma sum_filter_zero {A} `{EqDecision A} (a : A -> Z) (P : A -> Prop)
    `{forall x, Decision (P x)} (l : list A) :
  (forall x, x ∈ l -> ~ P x -> a x = 0) ->
  sum (a <$> l) = sum (a <$> filter P l).
Proof.
  intros Hz. induction l as [| x l IH]; [done |].
  rewrite filter_cons, fmap_cons.
  assert (IH' : sum (a <$> l) = sum (a <$> filter P l)).
  { apply IH. intros y Hy. by apply Hz, list_elem_of_further. }
  case_decide as HP.
  - rewrite fmap_cons. unfold sum in *. simpl. lia.
  - specialize (Hz x (list_elem_of_here _ _) HP). unfold sum in *. simpl. lia.
Qed.

(** On a well-listed snapshot the amount the code computes over the used boxes
    listed under a token is the amount the collected inputs hold. *)
Lemma used_total_covered box_found all_utxos dists tid :
  well_listed all_utxos ->
  lists_holders all_utxos tid ->
  let st := collect_inputs box_found all_utxos dists in
  used_total all_utxos (used_utxos st) tid
  = sum ((fun u => amount_of (tokens u) tid) <$> inputs st).
Proof.
  intros [Honce Hsame] Hholders st.
  destruct (collect_inputs_ok box_found all_utxos dists) as (Hnd & Hids & Hlisted).
  fold st in Hnd, Hids, Hlisted. unfold used_total.
  rewrite (sum_filter_zero (fun u => amount_of (tokens u) tid)
             (fun u => u ∈ get_utxos all_utxos tid) (inputs st)).
  - apply sum_perm, fmap_Permutation. apply NoDup_Permutation.
    + apply NoDup_filter. eapply NoDup_fmap_1, Honce.
    + apply NoDup_filter. by eapply NoDup_fmap_1.
    + intros u. rewrite !list_elem_of_filter. split.
      * intros [Hu Hin]. split; [done |].
        rewrite Hids in Hu. apply elem_of_list_to_set in Hu.
        apply list_elem_of_fmap in Hu as (u' & Heq & Hu').
        destruct (Hlisted u' Hu') as (t & Ht).
        by rewrite (Hsame tid t u u' Hin Ht Heq).
      * intros [Hin Hu]. split; [| done].
        rewrite Hids. apply elem_of_list_to_set. by apply list_elem_of_fmap_2.
  - intros u Hu Hnot. destruct (Z.eq_dec (amount_of (tokens u) tid) 0) as [| Hne]; [done |].
    exfalso. apply Hnot. destruct (Hlisted u Hu) as (t & Ht). by eapply Hholders.
Qed.

(** C1 (as the code has it): the function makes no conservation check and
    aborts on none. On a snapshot listing every box once under each token it
    holds, with one distribution per token whose total_amount is its
    per-recipient amount times the number of recipients, a plan it returns
    conserves a distributed token (recipient amounts plus change amount equal
    the amount held by the selected inputs) exactly when those inputs hold at
    least the distribution's total_amount. *)
Theorem distribute_conserves_when_covered
    box_found all_utxos token_distributions recipient_addresses plan d :
  well_listed all_utxos ->
  lists_holders all_utxos (token_id d) ->
  NoDup (token_id <$> token_distributions) ->
  d ∈ token_distributions ->
  total_amount d = amount_per_recipient d * Z.of_nat (length recipient_addresses) ->
  distribute_multiple_tokens box_found all_utxos token_distributions recipient_addresses
  = Ok plan ->
  conserved plan (token_id d) <-> total_amount d <= covered_total plan (token_id d).
Proof.
  intros Hwl Hh Hnd Hd Htotal Hplan.
  pose proof (used_total_covered box_found all_utxos token_distributions (token_id d)
                Hwl Hh) as Hused. simpl in Hused.
  unfold distribute_multiple_tokens in Hplan.
  destruct (_ <? _) eqn:Herg in Hplan; [done |].
  injection Hplan as <-.
  unfold conserved, recipients_total, change_total, covered_total in *. simpl in *.
  rewrite !List.filter_app, !fmap_app, !sum_app.
  match goal with |- context [List.filter _ (?f <$> recipient_addresses)] =>
    destruct (filter_recipient_outputs f recipient_addresses) as [-> ->]; [done |]
  end.
  rewrite <- list_fmap_compose. unfold compose, out_amount at 1. simpl.
  unfold amount_of at 1. rewrite (recipient_tokens_lookup _ d) by done. simpl.
  rewrite sum_const, <- Htotal.
  set (st := collect_inputs box_found all_utxos token_distributions) in *.
  set (change := change_tokens all_utxos (used_utxos st) token_distributions) in *.
  pose proof (change_tokens_lookup all_utxos (used_utxos st) token_distributions d Hnd Hd)
    as Hchange. fold change in Hchange. rewrite Hused in Hchange.
  destruct (_ || _) eqn:Hor; simpl.
  - unfold out_amount. simpl. case_bool_decide as Hempty; simpl.
    + rewrite Hempty, amount_of_empty in Hchange. lia.
    + lia.
  - apply orb_false_elim in Hor as [_ Hne]. apply negb_false_iff in Hne.
    apply bool_decide_eq_true in Hne. rewrite Hne, amount_of_empty in Hchange. lia.
Qed.

(** * Concrete cases *)

(** ** Conservation (C1) *)

(** With 5 of token A in the pool and 10 requested, the plan is returned all
    the same: 10 go to the recipient, no change is recorded, 5 came in. *)
Lemma distribute_returns_unbalanced_plan :
  match distribute_multiple_tokens (fun _ => true) snapshot_5A
          [distribution "A" 10 10] ["r1"] with
  | Ok plan =>
      recipients_total plan "A" = 10 /\ change_total plan "A" = 0 /\
      covered_total plan "A" = 5 /\ ~ conserved plan "A"
  | Err _ => False
  end.
Proof. vm_compute. repeat split; done. Qed.

Lemma snapshot_12A_well_listed : well_listed snapshot_12A.
Proof.
  split.
  - intros tid. simpl. case_decide; simpl; [apply NoDup_singleton | constructor].
  - intros t1 t2 u1 u2 H1 H2 _. simpl in H1, H2.
    repeat case_decide;
      try (by apply elem_of_nil in H1); try (by apply elem_of_nil in H2).
    apply list_elem_of_singleton in H1, H2. congruence.
Qed.

Lemma snapshot_12A_lists_holders : lists_holders snapshot_12A "A".
Proof.
  intros t u. simpl. case_decide; simpl; [done | by intros ?%elem_of_nil].
Qed.

Lemma distribute_conserves_when_covered_witness :
  exists plan,
    distribute_multiple_tokens (fun _ => true) snapshot_12A
      [distribution "A" 5 10] ["r1"; "r2"] = Ok plan /\
    conserved plan "A".
Proof.
  eexists. split; [vm_compute; reflexivity |].
  apply (distribute_conserves_when_covered (fun _ => true) snapshot_12A
           [distribution "A" 5 10] ["r1"; "r2"] _ (distribution "A" 5 10)).
  - apply snapshot_12A_well_listed.
  - apply snapshot_12A_lists_holders.
  - apply NoDup_singleton.
  - apply list_elem_of_here.
  - reflexivity.
  - vm_compute. reflexivity.
  - vm_compute. discriminate.
Defined.

(** ** The checks of [distribute_multiple_tokens] (C10) *)


(** ** The logarithmic schedule out of range (C2) *)



(** ** Selection (C3, C4, C5) *)

(** Token A and ERG are both short; the error names token A only. *)
Lemma select_utxos_names_tokens_only :
  select_utxos snapshot_5A_no_erg [distribution "A" 10 10] 1
  = Err (InsufficientTokens [Shortfall "A" 10 5]) /\
  total_erg (two_pass_selection snapshot_5A_no_erg [distribution "A" 10 10]) = 0 /\
  needed_erg 1 = 3000000.
Proof. vm_compute. repeat split; done. Qed.

Lemma snapshot_12A_lists_only_holders : lists_only_holders snapshot_12A.
Proof.
  intros tid u. simpl. case_decide as Htid; [| by intros ?%elem_of_nil].
  intros ->%list_elem_of_singleton. subst tid. by eexists.
Qed.

Lemma select_utxos_outcome_witness :
  exists s,
    select_utxos snapshot_12A [distribution "A" 5 10] 2 = Ok s /\
    needed_erg 2 <= total_erg s /\
    amount_of (token_amounts s) "A" = held (boxes s) "A".
Proof.
  pose proof (select_utxos_outcome snapshot_12A [distribution "A" 5 10] 2) as H.
  cbv zeta in H. destruct H as (H & _ & _ & Hheld).
  destruct (select_utxos snapshot_12A [distribution "A" 5 10] 2) as [s | e] eqn:E.
  - exists s. destruct H as (-> & _ & Herg). split; [done |]. split; [done |].
    apply (Hheld snapshot_12A_lists_only_holders (distribution "A" 5 10)).
    apply list_elem_of_here.
  - exfalso. vm_compute in E. discriminate.
Defined.

Lemma snapshot_shared_listed_once : listed_once snapshot_shared.
Proof.
  intros tid. simpl. repeat case_decide; simpl; try constructor;
    try (rewrite list_elem_of_singleton; discriminate); try apply NoDup_singleton.
Qed.

(** Box ab is met twice in pass 1 and once more in the candidates of each
    token in pass 2, and is taken once. *)
Lemma select_utxos_no_double_spend_witness :
  exists s,
    select_utxos snapshot_shared [distribution "A" 10 20; distribution "B" 10 20] 2 = Ok s /\
    box_id <$> boxes s = ["ab"; "a1"; "b1"] /\
    NoDup (box_id <$> boxes s) /\
    box_ids s = list_to_set (box_id <$> boxes s).
Proof.
  destruct (select_utxos snapshot_shared [distribution "A" 10 20; distribution "B" 10 20] 2)
    as [s | e] eqn:E; [| by vm_compute in E].
  exists s. split; [reflexivity |]. split.
  - unfold select_utxos in E. vm_compute in E. injection E as <-. reflexivity.
  - apply (select_utxos_no_double_spend snapshot_shared
             [distribution "A" 10 20; distribution "B" 10 20] 2 s).
    + apply snapshot_shared_listed_once.
    + exact E.
Defined.

(** Without that assumption the property fails: a box listed twice under one
    token passes the membership test of pass 2 twice and is consumed twice. *)
Lemma box_listed_twice_is_taken_twice :
  match select_utxos snapshot_twice [distribution "A" 10 10] 1 with
  | Ok s => box_id <$> boxes s = ["b1"; "b1"]
  | Err _ => False
  end.
Proof. by vm_compute. Qed.

(** Box c holds one requested token only (with an unrequested one) and is
    still consumed in pass 1; b2, b1 and b3 hold both requested tokens and are
    consumed in their snapshot order, which is no order of their identifiers. *)
Lemma first_pass_ignores_identifiers :
  let requested := [distribution "A" 1 1; distribution "B" 1 1] in
  box_id <$> boxes (first_pass snapshot_ties (empty_selection requested))
  = ["b2"; "b1"; "b3"; "c"] /\
  (fun u => (box_id u, needed_tokens_held (initial_token_amounts requested) u))
    <$> multi_token_boxes snapshot_ties
  = [("c", 1); ("b2", 2); ("b1", 2); ("b3", 2)].
Proof. vm_compute. split; done. Qed.

Lemma first_pass_selection_order_witness :
  let requested := [distribution "A" 1 1; distribution "B" 1 1] in
  let key := needed_tokens_held (token_amounts (empty_selection requested)) in
  StronglySorted (descending key) (sort_desc key (multi_token_boxes snapshot_ties)) /\
  boxes (first_pass snapshot_ties (empty_selection requested))
  = first_occurrences ∅ (sort_desc key (multi_token_boxes snapshot_ties)).
Proof.
  pose proof (first_pass_selection_order snapshot_ties
                [distribution "A" 1 1; distribution "B" 1 1]) as H.
  cbv zeta in H. destruct H as (_ & _ & Hsorted & _ & Hboxes & _).
  split; [exact Hsorted | exact Hboxes].
Defined.

(** ** Per-recipient amounts (C6) *)

Lemma calculate_token_distributions_per_recipient_witness :
  calculate_token_distributions libm_down snapshot_12A [("a", quadratic_1000)] 5 2
  = distributions_spec libm_down snapshot_12A [("a", quadratic_1000)] 5 2 /\
  calculate_token_distributions libm_down snapshot_12A [("a", quadratic_1000)] 5 2
  = Ok [distribution "A" 6 12].
Proof.
  split.
  - apply (calculate_token_distributions_per_recipient libm_down snapshot_12A
             [("a", quadratic_1000)] 5 2). lia.
  - vm_compute. reflexivity.
Defined.

(** ** The quadratic schedule (C7) *)

(** 49 per round over 7 rounds, round 3: the exact formula gives
    floor(49 * 16/49) = 16, the code 15, whichever of the two doubles next to
    the square [pow] returns. *)
Lemma quadratic_falls_below_exact_floor :
  total_rounds quadratic_343 = Ok 7 /\
  (forall libm, faithful_pow libm -> round_amount libm quadratic_343 3 = Ok 15) /\
  quadratic_exact 49 7 3 = 16.
Proof.
  split; [vm_compute; reflexivity |]. split; [| vm_compute; reflexivity].
  intros libm Hf.
  assert (HT : total_rounds quadratic_343 = Ok 7) by (vm_compute; reflexivity).
  assert (Hb : 0 < tokens_per_round quadratic_343 <= 2 ^ 1023)
    by (vm_compute; split; [reflexivity | discriminate]).
  assert (Hr : 1 <= 3 <= 7) by lia.
  rewrite (RoundingFacts.quadratic_round_amount_double libm quadratic_343 7 3
             Hf eq_refl Hb HT Hr).
  change (tokens_per_round quadratic_343) with 49.
  destruct (RoundingFacts.quadratic_double_bracket libm 49 7 3 Hf)
    as (_ & Hlo & Hhi); [lia .. |].
  assert (El : quadratic_low 49 7 3 = 15) by (vm_compute; reflexivity).
  assert (Eh : quadratic_high 49 7 3 = 15) by (vm_compute; reflexivity).
  rewrite El in Hlo. rewrite Eh in Hhi. f_equal. lia.
Qed.

Lemma quadratic_round_amount_witness :
  exists T,
    total_rounds quadratic_1000 = Ok T /\
    (forall r r', 1 <= r -> r <= r' -> r' <= T ->
       quadratic_double libm_down (tokens_per_round quadratic_1000) T r'
       <= quadratic_double libm_down (tokens_per_round quadratic_1000) T r) /\
    round_amount libm_down quadratic_1000 T = Ok 0 /\
    round_amount libm_down quadratic_1000 5 = Ok 25.
Proof.
  assert (Hb : 0 < tokens_per_round quadratic_1000 <= 2 ^ 1023)
    by (vm_compute; split; [reflexivity | discriminate]).
  assert (Ht : 0 < config_total_amount quadratic_1000 <= 2 ^ 1023)
    by (vm_compute; split; [reflexivity | discriminate]).
  destruct (quadratic_round_amount libm_down quadratic_1000
              RoundingFacts.libm_down_faithful eq_refl Hb Ht)
    as (T & HT & _ & _ & Hmono & H0 & H25).
  exists T. split; [exact HT |]. split; [exact Hmono |]. split; [exact H0 |].
  exact (proj2 (H25 eq_refl eq_refl)).
Defined.

(** Where the exact square is not a double, the choice [pow] makes can show:
    24649 per round over 157 rounds, round 57, gives 9999 with the square
    rounded down and 10000 with the square rounded up, and both roundings
    are faithful. *)
Lemma quadratic_depends_on_pow :
  faithful_pow libm_down /\ faithful_pow libm_up /\
  total_rounds quadratic_157 = Ok 157 /\
  round_amount libm_down quadratic_157 57 = Ok 9999 /\
  round_amount libm_up quadratic_157 57 = Ok 10000 /\
  quadratic_low 24649 157 57 = 9999 /\
  quadratic_high 24649 157 57 = 10000.
Proof.
  split; [apply RoundingFacts.libm_down_faithful |].
  split; [apply RoundingFacts.libm_up_faithful |].
  vm_compute. repeat split; reflexivity.
Qed.

(** The square of the double 100/157 lies between the doubles
    0x1.9f6ec3c5cc41fp-2, which is the nearest, and 0x1.9f6ec3c5cc420p-2. A
    [pow] that returns the second is faithful and not correctly rounded; the
    amount of that round is then 10000. *)
Lemma square_of_100_over_157 :
  let x := PyFloat.fl (100 / 157) in
  (PyFloat.fl_down (x * x) == inject_Z 0x19f6ec3c5cc41f * 2 ^ (-54))%Q /\
  (PyFloat.fl (x * x) == inject_Z 0x19f6ec3c5cc41f * 2 ^ (-54))%Q /\
  (PyFloat.fl_up (x * x) == inject_Z 0x19f6ec3c5cc420 * 2 ^ (-54))%Q.
Proof. vm_compute. repeat split; reflexivity. Qed.

(** ** Failures and the recipient count (C8, C9) *)

(** Token A's schedule raises; token B, fine on its own, is not returned. *)
Lemma one_bad_token_blocks_the_others :
  calculate_token_distributions libm_down snapshot_AB
    [("a", logarithmic_100); ("b", linear_B)] 1 1 = Err ZeroDivisionError /\
  calculate_token_distributions libm_down snapshot_AB [("b", linear_B)] 1 1
  = Ok [distribution "B" 50 50].
Proof. vm_compute. split; done. Qed.

Lemma calculate_token_distributions_aborts_witness :
  exists e,
    calculate_token_distributions libm_down snapshot_AB
      ([] ++ ("a", logarithmic_100) :: [("b", linear_B)]) 1 1 = Err e.
Proof.
  apply (calculate_token_distributions_aborts libm_down snapshot_AB []
           "a" logarithmic_100 [("b", linear_B)] 1 1 ZeroDivisionError).
  - vm_compute. discriminate.
  - vm_compute. reflexivity.
Defined.

(** No recipients, a token with 50 available, the round past the schedule: the
    error is the math domain error of the emission formula. *)
Lemma zero_recipients_other_error :
  0 < total_available (get_utxos snapshot_AB "A") "A" /\
  calculate_token_distributions libm_down snapshot_AB [("a", logarithmic_1000)] 11 0
  = Err MathDomainError.
Proof. vm_compute. split; done. Qed.

(** Token B is linear and comes first, token A is logarithmic and past its
    last round: the division by zero of token B is what the caller sees. *)
Lemma calculate_token_distributions_zero_recipients_witness :
  calculate_token_distributions libm_down snapshot_AB [("b", linear_B)] 1 0
  = Err ZeroDivisionError /\
  exists pre name cfg post,
    [("b", linear_B); ("a", logarithmic_1000)] = pre ++ (name, cfg) :: post /\
    total_available (get_utxos snapshot_AB (config_token_id cfg)) (config_token_id cfg) <> 0 /\
    calculate_token_distributions libm_down snapshot_AB
      [("b", linear_B); ("a", logarithmic_1000)] 11 0
    = Err (match round_amount libm_down cfg 11 with
           | Err e => e
           | Ok _ => ZeroDivisionError
           end).
Proof.
  split.
  - apply (calculate_token_distributions_zero_recipients libm_down snapshot_AB
             [("b", linear_B)] 1).
    + exists "b", linear_B. split; [apply list_elem_of_here | by vm_compute].
    + intros name cfg [[= -> ->] | H]%elem_of_cons; [by vm_compute |].
      by apply elem_of_nil in H.
  - destruct (calculate_token_distributions_zero_recipients libm_down snapshot_AB
                [("b", linear_B); ("a", logarithmic_1000)] 11)
      as [(pre & name & cfg & post & Hsplit & _ & Hav & Hres) _].
    + exists "b", linear_B. split; [apply list_elem_of_here | by vm_compute].
    + exists pre, name, cfg, post. split; [exact Hsplit |]. split; [exact Hav | exact Hres].
Defined.

(** The same call, evaluated: the first token decides, so the math domain
    error of token A's formula is not what is raised. *)
Lemma zero_recipients_first_token_decides :
  round_amount libm_down logarithmic_1000 11 = Err MathDomainError /\
  calculate_token_distributions libm_down snapshot_AB
    [("b", linear_B); ("a", logarithmic_1000)] 11 0 = Err ZeroDivisionError /\
  calculate_token_distributions libm_down snapshot_AB
    [("a", logarithmic_1000); ("b", linear_B)] 11 0 = Err MathDomainError.
Proof. vm_compute. repeat split; done. Qed.

(** * Further properties *)

(** ** [scan_proxy_utxos] *)

Lemma node_box_token_map_is_Some b tid :
  is_Some (node_box_token_map b !! tid) <-> tid ∈ (node_box_tokens b).*1.
Proof.
  unfold node_box_token_map.
  assert (H : forall (l : list (string * Z)) (m : gmap string Z),
            is_Some (foldl (fun m token => <[token.1 := token.2]> m) m l !! tid) <->
            is_Some (m !! tid) \/ tid ∈ l.*1).
  { induction l as [| [t v] l IH]; intros m; simpl.
    - rewrite elem_of_nil. tauto.
    - rewrite IH, lookup_insert_is_Some', elem_of_cons. split; [| intros [? | [-> | ?]]];
        [intros [[-> | ?] | ?] | | |]; tauto. }
  rewrite H, lookup_empty, is_Some_alt. tauto.
Qed.

Lemma node_box_token_map_value b tid v :
  node_box_token_map b !! tid = Some v -> (tid, v) ∈ node_box_tokens b.
Proof.
  unfold node_box_token_map.
  assert (H : forall (l : list (string * Z)) (m : gmap string Z),
            foldl (fun m token => <[token.1 := token.2]> m) m l !! tid = Some v ->
            m !! tid = Some v \/ (tid, v) ∈ l).
  { induction l as [| [t w] l IH]; intros m; simpl; [by left |].
    intros [Hm | Hl]%IH; [| right; by apply list_elem_of_further].
    apply lookup_insert_Some in Hm as [[<- <-] | [_ Hm]]; [| by left].
    right. apply list_elem_of_here. }
  intros [Hm | Hl]%H; [by rewrite lookup_empty in Hm | done].
Qed.

Lemma scan_fold (keep : node_box -> bool) l acc :
  foldl (fun utxos b => if keep b then utxos ++ [utxo_of_box b] else utxos) acc l
  = acc ++ (utxo_of_box <$> List.filter keep l).
Proof.
  revert acc. induction l as [| b l IH]; intros acc; simpl; [by rewrite app_nil_r |].
  rewrite IH. destruct (keep b); [| done]. by rewrite <- app_assoc.
Qed.

Lemma scan_proxy_utxos_Some unspent tid :
  scan_proxy_utxos unspent (Some tid)
  = utxo_of_box
      <$> List.filter (fun b => bool_decide (is_Some (node_box_token_map b !! tid))) unspent.
Proof.
  exact (scan_fold (fun b => bool_decide (is_Some (node_box_token_map b !! tid))) unspent []).
Qed.

Lemma scan_proxy_utxos_elem unspent tid u :
  u ∈ scan_proxy_utxos unspent (Some tid) <->
  exists b, b ∈ unspent /\ u = utxo_of_box b /\ is_Some (tokens u !! tid).
Proof.
  rewrite scan_proxy_utxos_Some, list_elem_of_fmap. split.
  - intros (b & -> & Hb). apply list_elem_of_In, filter_In in Hb as [Hb Hk].
    apply bool_decide_eq_true in Hk. exists b. by rewrite list_elem_of_In.
  - intros (b & Hb & -> & Hk). exists b. split; [done |].
    apply list_elem_of_In, filter_In. split; [by apply list_elem_of_In |].
    by apply bool_decide_eq_true.
Qed.

Lemma filter_sublist {A} (f : A -> bool) l : List.filter f l `sublist_of` l.
Proof.
  induction l as [| x l IH]; simpl; [constructor |].
  destruct (f x); by constructor.
Qed.

(** X1: scanning for a token returns, in the node's order, the record of
    exactly those unspent boxes whose token list mentions the token, each
    holding it under its identifier; scanning without a token returns the
    record of every unspent box. No box of the node is returned twice. *)
Theorem scan_proxy_utxos_returns_holders unspent_boxes :
  scan_proxy_utxos unspent_boxes None = utxo_of_box <$> unspent_boxes /\
  forall tid,
    scan_proxy_utxos unspent_boxes (Some tid)
    = utxo_of_box
        <$> List.filter (fun b => bool_decide (tid ∈ (node_box_tokens b).*1)) unspent_boxes /\
    (forall u, u ∈ scan_proxy_utxos unspent_boxes (Some tid) -> is_Some (tokens u !! tid)) /\
    box_id <$> scan_proxy_utxos unspent_boxes (Some tid)
      `sublist_of` node_box_id <$> unspent_boxes.
Proof.
  split.
  - etrans; [exact (scan_fold (fun _ => true) unspent_boxes []) |]. simpl. f_equal.
    induction unspent_boxes as [| b l IH]; simpl; [done | by rewrite IH].
  - intros tid. split; [| split].
    + rewrite scan_proxy_utxos_Some. f_equal.
      induction unspent_boxes as [| b l IH]; simpl; [done |].
      rewrite IH. rewrite (bool_decide_ext _ _ (node_box_token_map_is_Some b tid)). done.
    + by intros u (b & _ & _ & Hk)%scan_proxy_utxos_elem.
    + rewrite scan_proxy_utxos_Some, <- list_fmap_compose.
      change (box_id ∘ utxo_of_box) with node_box_id.
      apply fmap_sublist, filter_sublist.
Qed.

(** ** The snapshot of a cycle *)

Lemma get_utxos_dict_set d key v tid :
  get_utxos (dict_set d key v) tid = if decide (key = tid) then v else get_utxos d tid.
Proof.
  induction d as [| [k v'] rest IH]; simpl.
  - by destruct (decide (key = tid)).
  - destruct (decide (k = key)) as [-> | Hne]; simpl.
    + by destruct (decide (key = tid)).
    + rewrite IH. destruct (decide (k = tid)) as [-> | ?]; [| done].
      by destruct (decide (key = tid)).
Qed.

Lemma dict_set_keys d key v : NoDup d.*1 -> NoDup (dict_set d key v).*1.
Proof.
  assert (Hk : forall d, forall k, k ∈ (dict_set d key v).*1 -> k = key \/ k ∈ d.*1).
  { clear d. induction d as [| [k' v'] rest IH]; simpl; intros k.
    - intros ->%list_elem_of_singleton. by left.
    - destruct (decide (k' = key)) as [-> | Hne]; simpl.
      + intros [-> | ?]%elem_of_cons; [by left | right; by apply list_elem_of_further].
      + intros [-> | [-> | ?]%IH]%elem_of_cons;
          [right; apply list_elem_of_here | by left | right; by apply list_elem_of_further]. }
  induction d as [| [k v'] rest IH]; simpl; intros Hnd.
  - apply NoDup_singleton.
  - apply NoDup_cons in Hnd as [Hk' Hnd].
    destruct (decide (k = key)) as [-> | Hne]; simpl; apply NoDup_cons.
    + done.
    + split; [| by apply IH]. intros [-> | ?]%Hk; done.
Qed.

Lemma get_utxos_scan_token unspent d entry tid :
  (get_utxos d tid = [] \/ get_utxos d tid = scan_proxy_utxos unspent (Some tid)) ->
  get_utxos (scan_token unspent d entry) tid
  = if decide (config_token_id entry.2 = tid)
    then scan_proxy_utxos unspent (Some tid)
    else get_utxos d tid.
Proof.
  intros Hd. unfold scan_token.
  destruct (scan_proxy_utxos unspent (Some (config_token_id entry.2))) as [| u us] eqn:Hscan.
  - case_decide as Heq; [| done]. subst tid. rewrite Hscan. by destruct Hd as [-> | ->].
  - rewrite get_utxos_dict_set. case_decide as Heq; [| done]. subst tid. by rewrite Hscan.
Qed.

(** The scan loop, from any dictionary whose entries are scans already. *)
Lemma scan_all_fold unspent infos (d : snapshot) tid :
  (forall t, get_utxos d t = [] \/ get_utxos d t = scan_proxy_utxos unspent (Some t)) ->
  get_utxos (foldl (scan_token unspent) d infos) tid
  = if decide (tid ∈ config_token_id <$> infos.*2)
    then scan_proxy_utxos unspent (Some tid)
    else get_utxos d tid.
Proof.
  revert d. induction infos as [| [name cfg] infos IH]; intros d Hd; cbn [foldl].
  - destruct (decide _) as [Hin |]; [by apply elem_of_nil in Hin | done].
  - rewrite IH.
    + rewrite get_utxos_scan_token by apply Hd. rewrite !fmap_cons. cbn [snd].
      destruct (decide (tid ∈ config_token_id <$> infos.*2)) as [Hin | Hnin].
      * rewrite decide_True; [done | by apply list_elem_of_further].
      * destruct (decide (config_token_id cfg = tid)) as [<- | Hne].
        -- rewrite decide_True; [done | apply list_elem_of_here].
        -- rewrite decide_False; [done |].
           intros [-> | ?]%elem_of_cons; done.
    + intros t. rewrite get_utxos_scan_token by apply Hd.
      destruct (decide (config_token_id (name, cfg).2 = t)); [by right | apply Hd].
Qed.

Lemma scan_all_get unspent infos tid :
  get_utxos (scan_all unspent infos) tid
  = if decide (tid ∈ config_token_id <$> infos.*2)
    then scan_proxy_utxos unspent (Some tid)
    else [].
Proof. unfold scan_all. rewrite scan_all_fold; [done |]. intros t. by left. Qed.

Lemma scan_all_listed unspent infos tid u :
  u ∈ get_utxos (scan_all unspent infos) tid ->
  (tid ∈ config_token_id <$> infos.*2) /\
  exists b, b ∈ unspent /\ u = utxo_of_box b /\ is_Some (tokens u !! tid).
Proof.
  rewrite scan_all_get. case_decide; [| by intros ?%elem_of_nil].
  by intros ?%scan_proxy_utxos_elem.
Qed.

Lemma NoDup_fmap_eq {A B} (f : A -> B) (l : list A) x y :
  NoDup (f <$> l) -> x ∈ l -> y ∈ l -> f x = f y -> x = y.
Proof.
  induction l as [| z l IH]; [by intros _ ?%elem_of_nil |].
  rewrite fmap_cons. intros [Hz Hnd]%NoDup_cons.
  intros [-> | Hx]%elem_of_cons [-> | Hy]%elem_of_cons Heq; [done | | | by apply IH].
  - exfalso. apply Hz. rewrite Heq. by apply list_elem_of_fmap_2.
  - exfalso. apply Hz. rewrite <- Heq. by apply list_elem_of_fmap_2.
Qed.

Lemma scan_all_well_listed unspent infos :
  NoDup (node_box_id <$> unspent) -> well_listed (scan_all unspent infos).
Proof.
  intros Hnd. split.
  - intros tid. rewrite scan_all_get.
    case_decide; [| constructor].
    rewrite scan_proxy_utxos_Some, <- list_fmap_compose.
    change (box_id ∘ utxo_of_box) with node_box_id.
    assert (Hsub : node_box_id
                     <$> List.filter
                           (fun b => bool_decide (is_Some (node_box_token_map b !! tid)))
                           unspent
                   `sublist_of` node_box_id <$> unspent)
      by apply fmap_sublist, filter_sublist.
    by eapply sublist_NoDup.
  - intros t1 t2 u1 u2 (_ & b1 & Hb1 & -> & _)%scan_all_listed
      (_ & b2 & Hb2 & -> & _)%scan_all_listed Heq.
    f_equal. by apply (NoDup_fmap_eq node_box_id unspent).
Qed.

Lemma scan_all_lists_only_holders unspent infos :
  lists_only_holders (scan_all unspent infos).
Proof. intros tid u Hu. by apply scan_all_listed in Hu as (_ & b & _ & _ & ?). Qed.

Lemma scan_all_lists_holders unspent infos name cfg :
  (name, cfg) ∈ infos -> lists_holders (scan_all unspent infos) (config_token_id cfg).
Proof.
  intros Hin t u (_ & b & Hb & -> & _)%scan_all_listed Hne.
  rewrite scan_all_get. rewrite decide_True.
  - apply scan_proxy_utxos_elem. exists b. split; [done |]. split; [done |].
    unfold amount_of in Hne. by destruct (tokens (utxo_of_box b) !! config_token_id cfg).
  - apply list_elem_of_fmap. exists cfg. split; [done |].
    apply list_elem_of_fmap. by exists (name, cfg).
Qed.

(** The entries of the snapshot: one per token, none empty, each the scan of
    its token. *)
Lemma scan_all_entries unspent infos :
  NoDup (scan_all unspent infos).*1 /\
  forall tid utxos, (tid, utxos) ∈ scan_all unspent infos ->
    utxos <> [] /\ utxos = scan_proxy_utxos unspent (Some tid).
Proof.
  unfold scan_all.
  assert (H : forall infos (d : snapshot),
            (NoDup d.*1 /\
             forall tid utxos, (tid, utxos) ∈ d ->
               utxos <> [] /\ utxos = scan_proxy_utxos unspent (Some tid)) ->
            let d' := foldl (scan_token unspent) d infos in
            NoDup d'.*1 /\
            forall tid utxos, (tid, utxos) ∈ d' ->
              utxos <> [] /\ utxos = scan_proxy_utxos unspent (Some tid)).
  { clear infos. induction infos as [| [name cfg] infos IH]; intros d Hd; simpl; [done |].
    apply IH. unfold scan_token. simpl.
    destruct (scan_proxy_utxos unspent (Some (config_token_id cfg)))
      as [| u us] eqn:Hscan; [done |].
    destruct Hd as [Hnd Hd]. split; [by apply dict_set_keys |].
    clear IH Hnd. induction d as [| [k v] rest IHd]; simpl.
    - intros tid utxos [= -> ->]%list_elem_of_singleton. by rewrite Hscan.
    - assert (Hrest : forall tid utxos, (tid, utxos) ∈ rest ->
                utxos <> [] /\ utxos = scan_proxy_utxos unspent (Some tid)).
      { intros. by apply Hd, list_elem_of_further. }
      destruct (decide (k = config_token_id cfg)) as [-> | Hne].
      + intros tid utxos [[= -> ->] | Hin]%elem_of_cons; [by rewrite Hscan | by apply Hrest].
      + intros tid utxos [[= -> ->] | Hin]%elem_of_cons;
          [apply Hd, list_elem_of_here | by apply IHd]. }
  apply (H infos []). split; [constructor |]. by intros ? ? ?%elem_of_nil.
Qed.

(** X2: the snapshot a cycle builds from unspent boxes with distinct
    identifiers is well formed: no token lists a box twice, an identifier
    stands for one record wherever it is listed, every listed box holds the
    token it is listed under, and a box holding a configured token is listed
    under it. *)
Theorem scan_all_well_formed unspent_boxes tokens_info :
  NoDup (node_box_id <$> unspent_boxes) ->
  let all_utxos := scan_all unspent_boxes tokens_info in
  well_listed all_utxos /\
  lists_only_holders all_utxos /\
  forall name cfg, (name, cfg) ∈ tokens_info ->
    lists_holders all_utxos (config_token_id cfg).
Proof.
  intros Hnd all_utxos. split; [by apply scan_all_well_listed |].
  split; [apply scan_all_lists_only_holders |].
  intros name cfg. apply scan_all_lists_holders.
Qed.

(** X3: looking a token up in the snapshot of a cycle gives the scan for that
    token when the token is configured and the empty list otherwise; the
    snapshot has one entry per token and no entry with an empty list. *)
Theorem scan_all_lookup unspent_boxes tokens_info :
  let all_utxos := scan_all unspent_boxes tokens_info in
  (forall tid,
     get_utxos all_utxos tid
     = if decide (tid ∈ config_token_id <$> tokens_info.*2)
       then scan_proxy_utxos unspent_boxes (Some tid)
       else []) /\
  NoDup all_utxos.*1 /\
  forall tid utxos, (tid, utxos) ∈ all_utxos ->
    utxos <> [] /\ utxos = scan_proxy_utxos unspent_boxes (Some tid).
Proof.
  intros all_utxos. split; [intros tid; apply scan_all_get |]. apply scan_all_entries.
Qed.

Lemma node_boxes_AB_distinct : NoDup (node_box_id <$> node_boxes_AB).
Proof. apply (bool_decide_unpack _). by vm_compute. Qed.

Lemma scan_all_well_formed_witness :
  well_listed (scan_all node_boxes_AB tokens_info_AB) /\
  lists_only_holders (scan_all node_boxes_AB tokens_info_AB) /\
  lists_holders (scan_all node_boxes_AB tokens_info_AB) "B".
Proof.
  destruct (scan_all_well_formed node_boxes_AB tokens_info_AB node_boxes_AB_distinct)
    as (Hwell & Hholders & Hlists).
  split; [done |]. split; [done |].
  apply (Hlists "b" linear_B). apply list_elem_of_further, list_elem_of_here.
Defined.

(** ** [calculate_token_distributions]: what a plan may ask for *)

Lemma distributions_spec_sublist libm utxos cfgs r n ds :
  distributions_spec libm utxos cfgs r n = Ok ds ->
  token_id <$> ds `sublist_of` config_token_id <$> cfgs.*2.
Proof.
  revert ds. induction cfgs as [| [name cfg] rest IH]; intros ds; simpl.
  - intros [= <-]. constructor.
  - intros (entry & Hentry & (entries & Hrest & [= <-])%bind_ok)%bind_ok.
    rewrite fmap_app. specialize (IH entries Hrest).
    unfold token_entry_spec in Hentry.
    destruct (_ =? 0); [injection Hentry as <-; by apply sublist_cons |].
    apply bind_ok in Hentry as (amount & _ & [= <-]).
    destruct (0 <? _); simpl; [by apply sublist_skip | by apply sublist_cons].
Qed.

Lemma calculate_is_spec libm utxos cfgs r n :
  0 < n ->
  calculate_token_distributions libm utxos cfgs r n
  = distributions_spec libm utxos cfgs r n.
Proof.
  intros Hn. unfold calculate_token_distributions. rewrite calculate_loop_spec by done.
  by destruct (distributions_spec _ _ _ _ _).
Qed.

(** X4: a plan of [calculate_token_distributions] stays within reach. Its
    distributions follow the order of the configuration, at most one per
    configured entry; each asks for a positive total that neither exceeds
    what the snapshot lists of the token nor what the token's schedule
    releases in the round. *)
Theorem calculate_token_distributions_within_reach
    libm utxos token_configs current_round num_recipients ds :
  0 < num_recipients ->
  calculate_token_distributions libm utxos token_configs current_round num_recipients
  = Ok ds ->
  token_id <$> ds `sublist_of` config_token_id <$> token_configs.*2 /\
  forall d, d ∈ ds ->
    get_utxos utxos (token_id d) <> [] /\
    0 < total_amount d
      <= total_available (get_utxos utxos (token_id d)) (token_id d) /\
    exists name cfg amount,
      (name, cfg) ∈ token_configs /\ token_id d = config_token_id cfg /\
      round_amount libm cfg current_round = Ok amount /\
      total_amount d <= amount.
Proof.
  intros Hn Hds. rewrite calculate_is_spec in Hds by done.
  split; [by eapply distributions_spec_sublist |].
  intros d Hd.
  destruct (distributions_spec_entries _ _ _ _ _ _ Hds d Hd)
    as (name & cfg & amount & Hin & Htid & Hamount & Hper & Hpos & Htotal).
  rewrite Htid.
  set (available := total_available (get_utxos utxos (config_token_id cfg))
                      (config_token_id cfg)) in *.
  pose proof (Z.mul_div_le (Z.min amount available) num_recipients Hn) as Hle.
  rewrite <- Hper in Hle.
  assert (Htot : 0 < total_amount d <= Z.min amount available) by nia.
  assert (Hav : 0 < available) by lia.
  split; [| split].
  - intros Hnil. unfold available in Hav. rewrite Hnil in Hav. by vm_compute in Hav.
  - lia.
  - exists name, cfg, amount. repeat (split; [done |]). lia.
Qed.

Lemma calculate_token_distributions_within_reach_witness :
  exists ds,
    calculate_token_distributions libm_down snapshot_12A [("a", linear_A)] 1 2 = Ok ds /\
    token_id <$> ds `sublist_of` ["A"] /\
    forall d, d ∈ ds ->
      0 < total_amount d <= total_available (get_utxos snapshot_12A (token_id d)) (token_id d).
Proof.
  eexists. split; [by vm_compute |].
  destruct (calculate_token_distributions_within_reach libm_down snapshot_12A
              [("a", linear_A)] 1 2 [distribution "A" 6 12]) as [Hsub Hall].
  - lia.
  - by vm_compute.
  - split; [exact Hsub |]. intros d Hd. by destruct (Hall d Hd) as (_ & ? & _).
Defined.

Lemma calculate_loop_nothing_available libm utxos cfgs r n acc :
  (forall name cfg, (name, cfg) ∈ cfgs ->
     total_available (get_utxos utxos (config_token_id cfg)) (config_token_id cfg) = 0) ->
  calculate_loop libm utxos cfgs r n acc = Ok acc.
Proof.
  revert acc. induction cfgs as [| [name cfg] rest IH]; intros acc Hnone; simpl; [done |].
  assert (Hrest : calculate_loop libm utxos rest r n acc = Ok acc).
  { apply IH. intros name' cfg' Hin. by apply (Hnone name'), list_elem_of_further. }
  specialize (Hnone name cfg (list_elem_of_here _ _)).
  destruct (get_utxos utxos (config_token_id cfg)) as [| u us]; [done |].
  by rewrite Hnone.
Qed.

(** X5: when the snapshot lists nothing of any configured token (no box, or
    boxes whose amounts add up to 0), [calculate_token_distributions] returns
    the empty plan without evaluating a schedule or dividing by the recipient
    count: it raises nothing, whatever the configuration, the round and the
    recipient count, 0 included. *)
Theorem calculate_token_distributions_nothing_available
    libm utxos token_configs current_round num_recipients :
  (forall name cfg, (name, cfg) ∈ token_configs ->
     total_available (get_utxos utxos (config_token_id cfg)) (config_token_id cfg) = 0) ->
  calculate_token_distributions libm utxos token_configs current_round num_recipients
  = Ok [].
Proof. apply calculate_loop_nothing_available. Qed.

Lemma calculate_token_distributions_nothing_available_witness :
  calculate_token_distributions libm_down snapshot_AB [("a", config "C" 0 logarithmic 0)] 7 0
  = Ok [].
Proof.
  apply calculate_token_distributions_nothing_available.
  intros name cfg [= -> ->]%list_elem_of_singleton. by vm_compute.
Defined.

(** ** [validate_config] *)

Lemma truthy_spec s : truthy s = true <-> s <> EmptyString.
Proof. unfold truthy. by rewrite negb_true_iff, bool_decide_eq_false. Qed.

Lemma validate_tokens_None tokens :
  validate_tokens tokens = None <->
  Forall (fun entry : string * TokenConfig =>
            0 < config_total_amount entry.2 /\ 0 < tokens_per_round entry.2 /\
            config_token_id entry.2 <> EmptyString) tokens.
Proof.
  induction tokens as [| [name cfg] rest IH]; simpl.
  - split; [constructor | done].
  - rewrite Forall_cons. simpl.
    destruct (Z.leb_spec (config_total_amount cfg) 0); simpl; [split; [done | lia] |].
    destruct (Z.leb_spec (tokens_per_round cfg) 0); simpl; [split; [done | lia] |].
    destruct (truthy (config_token_id cfg)) eqn:Hid; simpl.
    + apply truthy_spec in Hid. rewrite IH. tauto.
    + split; [done |]. intros [(_ & _ & Hid') _]. apply truthy_spec in Hid'. congruence.
Qed.

(** X6: [validate_config] accepts a configuration exactly when it names a
    recipient, waits a positive number of blocks, and either carries tokens
    that all have positive amounts and an identifier, or carries none (no
    token table, or an empty one) and fills every node field. With tokens the
    node fields are not looked at. *)
Theorem validate_config_accepts config :
  validate_config config = None <->
  recipient_wallets config <> [] /\
  0 < blocks_between_dispense config /\
  match config_tokens config with
  | Some ((_ :: _) as tokens) =>
      Forall (fun entry : string * TokenConfig =>
                0 < config_total_amount entry.2 /\ 0 < tokens_per_round entry.2 /\
                config_token_id entry.2 <> EmptyString) tokens
  | _ =>
      node_url config <> EmptyString /\ explorer_url config <> EmptyString /\
      api_key config <> EmptyString /\ network_type config <> EmptyString /\
      node_address config <> EmptyString
  end.
Proof.
  unfold validate_config.
  destruct (recipient_wallets config) as [| w ws]; [split; [done | by intros [? _]] |].
  destruct (Z.leb_spec (blocks_between_dispense config) 0);
    [split; [done | intros (_ & ? & _); lia] |].
  assert (Hnode :
    (if truthy (node_url config) && truthy (explorer_url config) && truthy (api_key config)
        && truthy (network_type config) && truthy (node_address config)
     then None else Some NodeFieldsMissing) = None <->
    node_url config <> EmptyString /\ explorer_url config <> EmptyString /\
    api_key config <> EmptyString /\ network_type config <> EmptyString /\
    node_address config <> EmptyString).
  { rewrite <- !truthy_spec.
    destruct (truthy (node_url config)), (truthy (explorer_url config)),
      (truthy (api_key config)), (truthy (network_type config)),
      (truthy (node_address config)); simpl; split; try done; intros (? & ? & ? & ? & ?); done. }
  destruct (config_tokens config) as [[| entry tokens] |].
  - rewrite Hnode. split; [by intros ? | by intros (_ & _ & ?)].
  - rewrite validate_tokens_None. split; [by intros ? | by intros (_ & _ & ?)].
  - rewrite Hnode. split; [by intros ? | by intros (_ & _ & ?)].
Qed.

(** X7: among the tokens of a configuration that names a recipient and waits
    a positive number of blocks, [validate_config] reports the first one that
    is not in order, and for it the amounts before the identifier. *)
Theorem validate_config_reports_first_bad_token config pre name cfg post :
  recipient_wallets config <> [] ->
  0 < blocks_between_dispense config ->
  config_tokens config = Some (pre ++ (name, cfg) :: post) ->
  Forall (fun entry : string * TokenConfig =>
            0 < config_total_amount entry.2 /\ 0 < tokens_per_round entry.2 /\
            config_token_id entry.2 <> EmptyString) pre ->
  config_total_amount cfg <= 0 \/ tokens_per_round cfg <= 0 \/
    config_token_id cfg = EmptyString ->
  validate_config config
  = Some (if (config_total_amount cfg <=? 0) || (tokens_per_round cfg <=? 0)
          then AmountsNotPositive name else TokenIdMissing name).
Proof.
  intros Hrec Hblocks Htokens Hpre Hbad. unfold validate_config.
  destruct (recipient_wallets config) as [| w ws]; [done |].
  destruct (Z.leb_spec (blocks_between_dispense config) 0); [lia |].
  rewrite Htokens.
  assert (Hloop : validate_tokens (pre ++ (name, cfg) :: post)
                  = Some (if (config_total_amount cfg <=? 0) || (tokens_per_round cfg <=? 0)
                          then AmountsNotPositive name else TokenIdMissing name)).
  { clear Htokens. induction Hpre as [| [name' cfg'] pre (Ht & Hr & Hid) _ IH]; simpl.
    - destruct (Z.leb_spec (config_total_amount cfg) 0); [done |].
      destruct (Z.leb_spec (tokens_per_round cfg) 0); [done |]. simpl.
      destruct (truthy (config_token_id cfg)) eqn:Hid; [| done].
      apply truthy_spec in Hid. exfalso. destruct Hbad as [? | [? | ?]]; [lia | lia | done].
    - simpl in *. replace (config_total_amount cfg' <=? 0) with false by lia.
      replace (tokens_per_round cfg' <=? 0) with false by lia. simpl.
      apply truthy_spec in Hid. by rewrite Hid. }
  by destruct pre.
Qed.

Lemma validate_config_reports_first_bad_token_witness :
  validate_config
    {| node_url := ""; explorer_url := ""; api_key := ""; network_type := "";
       node_address := "9f"; recipient_wallets := ["r1"];
       blocks_between_dispense := 5;
       config_tokens :=
         Some ([("a", linear_A)] ++ ("z", config "Z" 0 linear 5) :: [("y", config "" 1 linear 1)]) |}
  = Some (AmountsNotPositive "z").
Proof.
  apply (validate_config_reports_first_bad_token _ [("a", linear_A)] "z"
           (config "Z" 0 linear 5) [("y", config "" 1 linear 1)]).
  - done.
  - done.
  - reflexivity.
  - repeat constructor; done.
  - left. simpl. lia.
Defined.

(** ** What validation leaves to the schedule *)

Lemma validate_config_tokens_ok config tokens name cfg :
  validate_config config = None ->
  config_tokens config = Some tokens ->
  (name, cfg) ∈ tokens ->
  0 < config_total_amount cfg /\ 0 < tokens_per_round cfg /\
  config_token_id cfg <> EmptyString.
Proof.
  unfold validate_config. intros Hvalid Htokens Hin. rewrite Htokens in Hvalid.
  destruct (recipient_wallets config); [done |].
  destruct (_ <=? 0); [done |].
  destruct tokens as [| entry rest]; [by apply elem_of_nil in Hin |].
  apply validate_tokens_None in Hvalid.
  rewrite Forall_forall in Hvalid. by apply (Hvalid (name, cfg)).
Qed.

Module ScheduleFacts.
Import PyFloat PyFloatFacts EmissionFacts.
Local Open Scope Q_scope.

(** A token whose total does not exceed what it releases per round has one
    round. *)
Lemma total_rounds_one cfg :
  (0 < tokens_per_round cfg <= 2 ^ 1023)%Z ->
  (0 < config_total_amount cfg <= tokens_per_round cfg)%Z ->
  total_rounds cfg = Ok 1%Z.
Proof.
  intros [Hb Hbs] [Ht Hts].
  destruct (total_rounds_positive cfg) as (T & HT & HT1); [lia | lia |].
  rewrite HT. f_equal. apply Z.le_antisymm; [| done].
  unfold total_rounds in HT. rewrite truediv_finite in HT by lia.
  simpl in HT. injection HT as <-.
  set (q := inject_Z (config_total_amount cfg) / inject_Z (tokens_per_round cfg)).
  assert (Hq : 0 <= q <= 1).
  { pose proof (inject_Z_pos _ Hb) as Hb'. pose proof (inject_Z_pos _ Ht) as Ht'.
    unfold q. split.
    - apply Qle_shift_div_l; [done |]. lra.
    - apply Qle_shift_div_r; [done |]. rewrite Qmult_1_l. by rewrite <- Zle_Qle. }
  apply fl_unit in Hq as [_ Hq]. unfold ceil.
  apply Qceiling_resp_le in Hq. by change (Qceiling 1) with 1%Z in Hq.
Qed.

End ScheduleFacts.

(** X8: what [validate_config] accepts, the schedule can still refuse. Every
    token of an accepted configuration (with amounts that fit a double) has
    at least one round; a linear or constant token releases its
    tokens_per_round at every round, with no last round; a quadratic token,
    on a platform whose [pow] is faithful, follows its formula in double
    precision up to the last round, between the amounts for the square
    rounded down and rounded up; but a logarithmic token whose total does
    not exceed its tokens_per_round has a single round, and its calculation
    raises at every round. *)
Theorem validated_token_schedule libm config tokens name cfg :
  validate_config config = None ->
  config_tokens config = Some tokens ->
  (name, cfg) ∈ tokens ->
  config_total_amount cfg <= 2 ^ 1023 ->
  tokens_per_round cfg <= 2 ^ 1023 ->
  exists T,
    total_rounds cfg = Ok T /\ 1 <= T /\
    (distribution_type cfg = linear \/ distribution_type cfg = constant ->
     forall r, round_amount libm cfg r = Ok (tokens_per_round cfg)) /\
    (distribution_type cfg = quadratic -> faithful_pow libm ->
     forall r, 1 <= r <= T ->
       round_amount libm cfg r = Ok (quadratic_double libm (tokens_per_round cfg) T r) /\
       quadratic_low (tokens_per_round cfg) T r
       <= quadratic_double libm (tokens_per_round cfg) T r /\
       quadratic_double libm (tokens_per_round cfg) T r
       <= quadratic_high (tokens_per_round cfg) T r) /\
    (distribution_type cfg = logarithmic ->
     config_total_amount cfg <= tokens_per_round cfg ->
     T = 1 /\ forall r, is_ok (round_amount libm cfg r) = false).
Proof.
  intros Hvalid Htokens Hin Htotal Hround.
  assert (Hok : 0 < config_total_amount cfg /\ 0 < tokens_per_round cfg).
  { by destruct (validate_config_tokens_ok _ _ _ _ Hvalid Htokens Hin) as (? & ? & _). }
  destruct Hok as [Ht Hb].
  destruct (EmissionFacts.total_rounds_positive cfg) as (T & HT & HT1); [lia | lia |].
  exists T. split; [done |]. split; [done |]. split; [| split].
  - intros Hty r. unfold round_amount. rewrite HT. simpl. by destruct Hty as [-> | ->].
  - intros Hty Hf r Hr. split.
    + apply RoundingFacts.quadratic_round_amount_double; [done | done | lia | done | done].
    + apply RoundingFacts.quadratic_double_bracket; [done | lia | lia | lia].
  - intros Hty Hle.
    assert (T = 1) as ->.
    { rewrite ScheduleFacts.total_rounds_one in HT by lia. congruence. }
    split; [done |]. intros r. unfold round_amount. rewrite HT, Hty. simpl.
    unfold math_log. destruct (1 - r + 1 <=? 0); [done |]. simpl.
    by destruct (1 - r + 1 =? 1).
Qed.

Lemma validated_token_schedule_witness :
  (exists T, total_rounds linear_A = Ok T /\ 1 <= T /\
     forall r, round_amount libm_down linear_A r = Ok (tokens_per_round linear_A)) /\
  (exists T, total_rounds quadratic_1000 = Ok T /\ 1 <= T /\
     forall r, 1 <= r <= T ->
       round_amount libm_down quadratic_1000 r
       = Ok (quadratic_double libm_down (tokens_per_round quadratic_1000) T r)) /\
  (forall r, is_ok (round_amount libm_down logarithmic_100 r) = false).
Proof.
  assert (Hvalid : validate_config config_schedules = None) by reflexivity.
  assert (Htokens : config_tokens config_schedules = Some tokens_info_schedules)
    by reflexivity.
  assert (Ha : ("a", linear_A) ∈ tokens_info_schedules) by apply list_elem_of_here.
  assert (Hq : ("q", quadratic_1000) ∈ tokens_info_schedules)
    by apply list_elem_of_further, list_elem_of_here.
  assert (Hl : ("l", logarithmic_100) ∈ tokens_info_schedules)
    by apply list_elem_of_further, list_elem_of_further, list_elem_of_here.
  assert (B1 : 1000 <= 2 ^ 1023) by discriminate.
  assert (B2 : 100 <= 2 ^ 1023) by discriminate.
  assert (B3 : 100 <= 100) by discriminate.
  split; [| split].
  - destruct (validated_token_schedule libm_down config_schedules tokens_info_schedules
                "a" linear_A Hvalid Htokens Ha B1 B2)
      as (T & HT & HT1 & Hlinear & _).
    exists T. split; [exact HT |]. split; [exact HT1 |].
    exact (Hlinear (or_introl eq_refl)).
  - destruct (validated_token_schedule libm_down config_schedules tokens_info_schedules
                "q" quadratic_1000 Hvalid Htokens Hq B1 B2)
      as (T & HT & HT1 & _ & Hquadratic & _).
    exists T. split; [exact HT |]. split; [exact HT1 |].
    intros r Hr. exact (proj1 (Hquadratic eq_refl RoundingFacts.libm_down_faithful r Hr)).
  - destruct (validated_token_schedule libm_down config_schedules tokens_info_schedules
                "l" logarithmic_100 Hvalid Htokens Hl B2 B2)
      as (T & HT & HT1 & _ & _ & Hlogarithmic).
    exact (proj2 (Hlogarithmic eq_refl B3)).
Defined.

(** ** [select_utxos]: tokens that are there are found *)

Lemma get_utxos_entry (all_utxos : snapshot) k us :
  NoDup all_utxos.*1 -> (k, us) ∈ all_utxos -> get_utxos all_utxos k = us.
Proof.
  induction all_utxos as [| [k' us'] rest IH]; simpl; [by intros _ ?%elem_of_nil |].
  intros [Hk Hnd]%NoDup_cons [[= -> ->] | Hin]%elem_of_cons.
  - by rewrite decide_True.
  - rewrite decide_False; [by apply IH |]. intros ->. apply Hk.
    apply list_elem_of_fmap. by exists (k, us).
Qed.

Lemma multi_token_boxes_listed all_utxos u :
  NoDup all_utxos.*1 -> u ∈ multi_token_boxes all_utxos -> listed all_utxos u.
Proof.
  intros Hnd (_ & [k us] & Hentry & Hu)%multi_token_boxes_elem.
  exists k. by rewrite (get_utxos_entry all_utxos k us).
Qed.

Lemma first_pass_listed all_utxos st :
  NoDup all_utxos.*1 ->
  (forall u, u ∈ boxes st -> listed all_utxos u) ->
  forall u, u ∈ boxes (first_pass all_utxos st) -> listed all_utxos u.
Proof.
  intros Hnd Hst u. unfold first_pass.
  destruct (first_pass_fold (sort_desc (needed_tokens_held (token_amounts st))
                               (multi_token_boxes all_utxos)) st) as [-> _].
  intros [Hu | Hu]%elem_of_app; [by apply Hst |].
  apply first_occurrences_elem in Hu. rewrite sort_desc_perm in Hu.
  by apply multi_token_boxes_listed.
Qed.

Lemma second_pass_listed all_utxos dists st :
  (forall u, u ∈ boxes st -> listed all_utxos u) ->
  forall u, u ∈ boxes (second_pass all_utxos dists st) -> listed all_utxos u.
Proof.
  intros Hst u. destruct (second_pass_grows all_utxos dists st) as (taken & -> & Htaken & _).
  intros [Hu | Hu]%elem_of_app; [by apply Hst |]. by destruct (Htaken u Hu) as [_ ?].
Qed.

(** The second pass keeps the record straight from any state in which the
    boxes with several tokens are used up. *)
Lemma second_pass_recorded all_utxos dists st :
  lists_only_holders all_utxos ->
  recorded st ->
  (forall u, u ∈ multi_token_boxes all_utxos -> box_id u ∈ box_ids st) ->
  (forall d, d ∈ dists -> is_Some (token_amounts st !! token_id d)) ->
  recorded (second_pass all_utxos dists st).
Proof.
  intros Hholds. unfold second_pass. revert st.
  induction dists as [| d dists IH] using rev_ind; intros st Hrec Hused Hkeys; [done |].
  rewrite foldl_app. simpl.
  set (st' := foldl (fill_missing all_utxos) st dists).
  assert (Hrec' : recorded st').
  { apply IH; [done | done |]. intros d' Hd'. apply Hkeys, elem_of_app. by left. }
  destruct (second_pass_grows all_utxos dists st) as (_ & _ & _ & Hsub).
  unfold second_pass in Hsub. fold st' in Hsub.
  unfold fill_missing. destruct (_ <? _); [| done].
  apply top_up_recorded; [done | |].
  - apply (second_pass_keys all_utxos dists st), Hkeys, elem_of_app.
    right. by apply list_elem_of_singleton.
  - intros u [Hfresh Hlisted]%available_boxes_unused. split; [| by apply Hholds].
    destruct (le_lt_dec (size (tokens u)) 1) as [| Hgt]; [done |].
    exfalso. apply Hfresh, Hsub, Hused. apply multi_token_boxes_elem.
    split; [done |]. by eapply get_utxos_listed.
Qed.

(** The top-up loop ends with the target met or with every box it was given
    taken. *)
Lemma top_up_meets_or_exhausts dist l st :
  total_amount dist <= amount_of (token_amounts (top_up dist st l)) (token_id dist) \/
  forall u, u ∈ l -> box_id u ∈ box_ids (top_up dist st l).
Proof.
  revert st. induction l as [| u l IH]; intros st; simpl.
  - right. by intros ? ?%elem_of_nil.
  - destruct (Z.leb_spec (total_amount dist) (amount_of (token_amounts st) (token_id dist)));
      [by left |].
    destruct (IH (use_box_for (token_id dist) st u)) as [Hmet | Hall]; [by left |].
    right. intros v [-> | Hv]%elem_of_cons; [| by apply Hall].
    destruct (top_up_grows dist l (use_box_for (token_id dist) st u)) as (_ & _ & _ & Hsub).
    apply Hsub. simpl. by apply elem_of_union_l, elem_of_singleton.
Qed.

Lemma fill_missing_meets_or_exhausts all_utxos st dist :
  total_amount dist
    <= amount_of (token_amounts (fill_missing all_utxos st dist)) (token_id dist) \/
  forall u, u ∈ get_utxos all_utxos (token_id dist) ->
    box_id u ∈ box_ids (fill_missing all_utxos st dist).
Proof.
  unfold fill_missing.
  destruct (Z.ltb_spec (amount_of (token_amounts st) (token_id dist)) (total_amount dist));
    [| by left].
  destruct (top_up_grows dist (available_boxes all_utxos st (token_id dist)) st)
    as (_ & _ & _ & Hsub).
  destruct (top_up_meets_or_exhausts dist (available_boxes all_utxos st (token_id dist)) st)
    as [? | Hall]; [by left |].
  right. intros u Hu.
  destruct (decide (box_id u ∈ box_ids st)) as [Hin | Hnin]; [by apply Hsub |].
  apply Hall. unfold available_boxes. rewrite sort_desc_perm. by apply list_elem_of_filter.
Qed.

Lemma sum_nonneg {A} (f : A -> Z) l : (forall x, x ∈ l -> 0 <= f x) -> 0 <= sum (f <$> l).
Proof.
  induction l as [| x l IH]; intros Hl; [done |].
  rewrite fmap_cons. change (0 <= f x + sum (f <$> l)).
  pose proof (Hl x (list_elem_of_here _ _)).
  assert (0 <= sum (f <$> l)) by (apply IH; intros; by apply Hl, list_elem_of_further).
  lia.
Qed.

Lemma sum_nonneg_sub {A} (f : A -> Z) l1 l2 :
  NoDup l1 -> (forall x, x ∈ l1 -> x ∈ l2) -> (forall x, x ∈ l2 -> 0 <= f x) ->
  sum (f <$> l1) <= sum (f <$> l2).
Proof.
  intros Hnd Hsub Hnn.
  apply NoDup_submseteq in Hsub; [| done].
  apply submseteq_Permutation in Hsub as [k Hk].
  rewrite (sum_perm (f <$> l2) (f <$> l1 ++ k)) by (by rewrite Hk).
  rewrite fmap_app, sum_app.
  assert (0 <= sum (f <$> k)); [| lia].
  apply sum_nonneg. intros x Hx. apply Hnn. rewrite Hk. apply elem_of_app. by right.
Qed.

(** Once every box listed under a token is selected, the selection holds all
    there is of the token. *)
Lemma exhausted_holds_all all_utxos st tid :
  well_listed all_utxos -> amounts_nonnegative all_utxos -> consistent st ->
  (forall u, u ∈ boxes st -> listed all_utxos u) ->
  (forall u, u ∈ get_utxos all_utxos tid -> box_id u ∈ box_ids st) ->
  total_available (get_utxos all_utxos tid) tid <= held (boxes st) tid.
Proof.
  intros [Honce Hsame] Hnn [_ Hids] Hlisted Hall.
  unfold total_available, held. apply sum_nonneg_sub.
  - eapply NoDup_fmap_1, (Honce tid).
  - intros u Hu. specialize (Hall u Hu). rewrite Hids in Hall.
    apply elem_of_list_to_set, list_elem_of_fmap in Hall as (v & Hid & Hv).
    destruct (Hlisted v Hv) as [t Ht].
    by rewrite (Hsame tid t u v Hu Ht Hid).
  - intros u Hu. apply Hnn. by apply Hlisted.
Qed.

Lemma top_up_amount_mono dist l st tid :
  (forall u, u ∈ l -> 0 <= amount_of (tokens u) (token_id dist)) ->
  amount_of (token_amounts st) tid <= amount_of (token_amounts (top_up dist st l)) tid.
Proof.
  revert st. induction l as [| u l IH]; intros st Hl; simpl; [done |].
  destruct (_ <=? _); [done |].
  etrans; [| apply IH; intros; by apply Hl, list_elem_of_further].
  simpl. rewrite amount_of_insert. case_decide as Heq; [| done]. subst tid.
  specialize (Hl u (list_elem_of_here _ _)). lia.
Qed.

Lemma second_pass_amount_mono all_utxos dists st tid :
  amounts_nonnegative all_utxos ->
  amount_of (token_amounts st) tid
    <= amount_of (token_amounts (second_pass all_utxos dists st)) tid.
Proof.
  intros Hnn. unfold second_pass. revert st.
  induction dists as [| d dists IH]; intros st; simpl; [done |].
  etrans; [| apply IH]. unfold fill_missing. destruct (_ <? _); [| done].
  apply top_up_amount_mono. intros u [_ Hu]%available_boxes_unused.
  apply Hnn. by exists (token_id d).
Qed.

Lemma second_pass_covers all_utxos pre d post st :
  well_listed all_utxos -> lists_only_holders all_utxos -> amounts_nonnegative all_utxos ->
  consistent st -> recorded st ->
  (forall u, u ∈ boxes st -> listed all_utxos u) ->
  (forall u, u ∈ multi_token_boxes all_utxos -> box_id u ∈ box_ids st) ->
  (forall d', d' ∈ pre ++ [d] -> is_Some (token_amounts st !! token_id d')) ->
  total_amount d <= total_available (get_utxos all_utxos (token_id d)) (token_id d) ->
  total_amount d
    <= amount_of (token_amounts (second_pass all_utxos (pre ++ d :: post) st)) (token_id d).
Proof.
  intros Hwell Hholds Hnn Hcons Hrec Hlisted Hused Hkeys Hav.
  assert (Hsplit : second_pass all_utxos (pre ++ d :: post) st
                   = second_pass all_utxos post (second_pass all_utxos (pre ++ [d]) st)).
  { unfold second_pass. rewrite <- foldl_app. by rewrite <- app_assoc. }
  rewrite Hsplit. etrans; [| by apply second_pass_amount_mono].
  set (st_d := second_pass all_utxos (pre ++ [d]) st).
  assert (Hrec_d : recorded st_d) by (by apply second_pass_recorded).
  assert (Hcons_d : consistent st_d) by (apply second_pass_consistent; [apply Hwell | done]).
  assert (Hlisted_d : forall u, u ∈ boxes st_d -> listed all_utxos u)
    by (by apply second_pass_listed).
  assert (Hkey_d : is_Some (token_amounts st_d !! token_id d)).
  { apply second_pass_keys, Hkeys, elem_of_app. right. by apply list_elem_of_singleton. }
  assert (Hstep : st_d = fill_missing all_utxos (second_pass all_utxos pre st) d).
  { unfold st_d, second_pass. by rewrite foldl_app. }
  destruct (fill_missing_meets_or_exhausts all_utxos (second_pass all_utxos pre st) d)
    as [Hmet | Hall]; rewrite <- Hstep in *; [done |].
  destruct Hrec_d as [_ Htok]. rewrite (Htok _ Hkey_d).
  etrans; [apply Hav |]. by apply exhausted_holds_all.
Qed.

Lemma two_pass_selection_covers all_utxos dists d :
  NoDup all_utxos.*1 ->
  well_listed all_utxos -> lists_only_holders all_utxos -> amounts_nonnegative all_utxos ->
  d ∈ dists ->
  total_amount d <= total_available (get_utxos all_utxos (token_id d)) (token_id d) ->
  total_amount d
    <= amount_of (token_amounts (two_pass_selection all_utxos dists)) (token_id d).
Proof.
  intros Hkeys Hwell Hholds Hnn Hd Hav. unfold two_pass_selection.
  set (st0 := empty_selection dists).
  assert (Hrec0 : recorded st0).
  { split; [done |]. intros tid [v Hv]. unfold amount_of. simpl in *. rewrite Hv.
    by rewrite (initial_token_amounts_zero _ _ _ Hv). }
  assert (Hused : forall u, u ∈ multi_token_boxes all_utxos ->
                    box_id u ∈ box_ids (first_pass all_utxos st0)).
  { intros u Hu. unfold first_pass.
    destruct (first_pass_fold (sort_desc (needed_tokens_held (token_amounts st0))
                                 (multi_token_boxes all_utxos)) st0) as [_ ->].
    apply elem_of_union_r, elem_of_list_to_set, list_elem_of_fmap_2.
    by rewrite sort_desc_perm. }
  destruct (list_elem_of_split _ _ Hd) as (pre & post & Hdists).
  rewrite Hdists at 1. apply second_pass_covers; try done.
  - apply first_pass_consistent. split; [constructor | done].
  - by apply first_pass_recorded.
  - apply first_pass_listed; [done |]. by intros ? ?%elem_of_nil.
  - intros d' Hd'. apply first_pass_keys, initial_token_amounts_keys.
    rewrite Hdists. apply elem_of_app in Hd' as [? | ->%list_elem_of_singleton].
    + apply elem_of_app. by left.
    + apply elem_of_app. right. apply list_elem_of_here.
Qed.

Lemma select_utxos_covered all_utxos dists n :
  NoDup all_utxos.*1 ->
  well_listed all_utxos -> lists_only_holders all_utxos -> amounts_nonnegative all_utxos ->
  (forall d, d ∈ dists ->
     total_amount d <= total_available (get_utxos all_utxos (token_id d)) (token_id d)) ->
  (forall d, d ∈ dists ->
     total_amount d <= held (boxes (two_pass_selection all_utxos dists)) (token_id d)) /\
  select_utxos all_utxos dists n
  = if total_erg (two_pass_selection all_utxos dists) <? needed_erg n
    then Err (InsufficientERG (needed_erg n) (total_erg (two_pass_selection all_utxos dists)))
    else Ok (two_pass_selection all_utxos dists).
Proof.
  intros Hkeys Hwell Hholds Hnn Hav.
  assert (Hcov : forall d, d ∈ dists ->
                   total_amount d
                   <= amount_of (token_amounts (two_pass_selection all_utxos dists))
                        (token_id d)).
  { intros d Hd. apply two_pass_selection_covers; try done. by apply Hav. }
  split.
  - intros d Hd.
    destruct (two_pass_selection_recorded all_utxos dists Hholds) as [_ Htok].
    rewrite <- Htok; [by apply Hcov | by apply two_pass_selection_keys].
  - unfold select_utxos.
    by rewrite (proj2 (missing_tokens_nil dists (two_pass_selection all_utxos dists)) Hcov).
Qed.

(** X9: what the snapshot lists, the selection finds. On a snapshot as a scan
    builds it (a box listed once per token it holds, under one record, with
    no negative amount), whenever every distribution asks for no more than
    the snapshot lists of its token, the two passes gather at least the
    amount asked for every token: [select_utxos] never reports a token short,
    and returns the selection unless its ERG falls short. *)
Theorem select_utxos_finds_available_tokens all_utxos token_distributions num_recipients :
  NoDup all_utxos.*1 ->
  well_listed all_utxos -> lists_only_holders all_utxos -> amounts_nonnegative all_utxos ->
  (forall d, d ∈ token_distributions ->
     total_amount d <= total_available (get_utxos all_utxos (token_id d)) (token_id d)) ->
  let st := two_pass_selection all_utxos token_distributions in
  (forall d, d ∈ token_distributions -> total_amount d <= held (boxes st) (token_id d)) /\
  select_utxos all_utxos token_distributions num_recipients
  = if total_erg st <? needed_erg num_recipients
    then Err (InsufficientERG (needed_erg num_recipients) (total_erg st))
    else Ok st.
Proof. intros. by apply select_utxos_covered. Qed.

Lemma snapshot_12A_amounts_nonnegative : amounts_nonnegative snapshot_12A.
Proof.
  intros u tid [t Hu]. simpl in Hu. case_decide; [| by apply elem_of_nil in Hu].
  apply list_elem_of_singleton in Hu as ->. unfold amount_of, box. simpl.
  destruct (decide (tid = "A")) as [-> | Hne]; [done |].
  rewrite lookup_insert_ne by done. by rewrite lookup_empty.
Qed.

Lemma select_utxos_finds_available_tokens_witness :
  10 <= held (boxes (two_pass_selection snapshot_12A [distribution "A" 5 10])) "A" /\
  is_ok (select_utxos snapshot_12A [distribution "A" 5 10] 2) = true.
Proof.
  destruct (select_utxos_finds_available_tokens snapshot_12A [distribution "A" 5 10] 2)
    as [Hheld Hsel].
  - apply (bool_decide_unpack _). by vm_compute.
  - apply snapshot_12A_well_listed.
  - apply snapshot_12A_lists_only_holders.
  - apply snapshot_12A_amounts_nonnegative.
  - intros d ->%list_elem_of_singleton. by vm_compute.
  - split; [apply (Hheld (distribution "A" 5 10)), list_elem_of_here |].
    rewrite Hsel. by vm_compute.
Defined.

(** ** A cycle: scan, plan, select *)

Lemma scan_all_amounts_nonnegative unspent infos :
  (forall b t a, b ∈ unspent -> (t, a) ∈ node_box_tokens b -> 0 <= a) ->
  amounts_nonnegative (scan_all unspent infos).
Proof.
  intros Hnn u tid [t (_ & b & Hb & -> & _)%scan_all_listed].
  unfold amount_of. simpl.
  destruct (node_box_token_map b !! tid) as [v |] eqn:Hv; simpl; [| done].
  apply node_box_token_map_value in Hv. by eapply Hnn.
Qed.

(** X10: within a cycle the selection cannot run short of tokens. When the
    node's unspent boxes have distinct identifiers and no negative token
    value, the distributions [calculate_token_distributions] plans on the
    snapshot of the scan are all covered by [select_utxos] on that snapshot:
    the selected boxes hold at least the total of every distribution, no
    identifier is selected twice, and the only failure left is an ERG
    shortfall. *)
Theorem cycle_selection_never_short
    libm unspent_boxes tokens_info current_round num_recipients ds :
  NoDup (node_box_id <$> unspent_boxes) ->
  (forall b t a, b ∈ unspent_boxes -> (t, a) ∈ node_box_tokens b -> 0 <= a) ->
  0 < num_recipients ->
  let all_utxos := scan_all unspent_boxes tokens_info in
  calculate_token_distributions libm all_utxos tokens_info current_round num_recipients
  = Ok ds ->
  let st := two_pass_selection all_utxos ds in
  (forall d, d ∈ ds -> total_amount d <= held (boxes st) (token_id d)) /\
  NoDup (box_id <$> boxes st) /\
  select_utxos all_utxos ds num_recipients
  = if total_erg st <? needed_erg num_recipients
    then Err (InsufficientERG (needed_erg num_recipients) (total_erg st))
    else Ok st.
Proof.
  intros Hnd Hnn Hn all_utxos Hds st.
  pose proof (scan_all_well_listed unspent_boxes tokens_info Hnd) as Hwell.
  fold all_utxos in Hwell.
  destruct (select_utxos_covered all_utxos ds num_recipients) as [Hheld Hsel].
  - apply scan_all_entries.
  - done.
  - apply scan_all_lists_only_holders.
  - by apply scan_all_amounts_nonnegative.
  - intros d Hd. rewrite calculate_is_spec in Hds by done.
    destruct (distributions_spec_entries _ _ _ _ _ _ Hds d Hd)
      as (name & cfg & amount & _ & -> & _ & Hper & Hpos & Htotal).
    pose proof (Z.mul_div_le
                  (Z.min amount (total_available (get_utxos all_utxos (config_token_id cfg))
                                   (config_token_id cfg)))
                  num_recipients Hn) as Hle.
    rewrite <- Hper in Hle. nia.
  - split; [done |]. split; [| done].
    apply second_pass_consistent; [apply Hwell |].
    apply first_pass_consistent. split; [constructor | done].
Qed.

Lemma cycle_selection_never_short_witness :
  exists ds,
    calculate_token_distributions libm_down (scan_all node_boxes_AB tokens_info_AB)
      tokens_info_AB 1 2 = Ok ds /\
    (forall d, d ∈ ds ->
       total_amount d
       <= held (boxes (two_pass_selection (scan_all node_boxes_AB tokens_info_AB) ds))
            (token_id d)) /\
    is_ok (select_utxos (scan_all node_boxes_AB tokens_info_AB) ds 2) = true.
Proof.
  exists [distribution "A" 50 100; distribution "B" 3 6]. split; [by vm_compute |].
  destruct (cycle_selection_never_short libm_down node_boxes_AB tokens_info_AB 1 2
              [distribution "A" 50 100; distribution "B" 3 6]) as (Hheld & _ & Hsel).
  - apply node_boxes_AB_distinct.
  - intros b t a Hb Hta. vm_compute in Hb.
    repeat (apply elem_of_cons in Hb as [-> | Hb];
            [simpl in Hta;
             repeat (apply elem_of_cons in Hta as [[= -> ->] | Hta]; [lia |]);
             by apply elem_of_nil in Hta |]).
    by apply elem_of_nil in Hb.
  - lia.
  - by vm_compute.
  - split; [exact Hheld |]. rewrite Hsel. by vm_compute.
Defined.

(** ** [distribute_multiple_tokens]: the inputs collected *)

Lemma sum_cons x l : sum (x :: l) = x + sum l.
Proof. done. Qed.

Lemma held_cons u l tid : held (u :: l) tid = amount_of (tokens u) tid + held l tid.
Proof. done. Qed.

Lemma union_swap (a b c : gset string) : a ∪ (b ∪ c) = (b ∪ a) ∪ c.
Proof. rewrite (assoc_L (∪)). f_equal. apply (comm_L _). Qed.

(** One run of the loop over the boxes listed under a token: what it takes,
    and where it stops. *)
Lemma collect_token_spec box_found tid l st remaining :
  exists taken,
    inputs (collect_token box_found tid st remaining l) = inputs st ++ taken /\
    used_utxos (collect_token box_found tid st remaining l)
    = list_to_set (box_id <$> taken) ∪ used_utxos st /\
    total_available_erg (collect_token box_found tid st remaining l)
    = total_available_erg st + sum (value <$> taken) /\
    (forall u, u ∈ taken -> u ∈ l /\ box_found (box_id u) = true) /\
    ((forall u, u ∈ l -> box_found (box_id u) = true) ->
     remaining <= held taken tid \/
     forall u, u ∈ l -> box_id u ∈ used_utxos (collect_token box_found tid st remaining l)).
Proof.
  revert st remaining. induction l as [| u l IH]; intros st remaining.
  - exists []. simpl. rewrite app_nil_r, (left_id_L ∅ (∪)).
    split; [done |]. split; [done |]. split; [unfold sum; simpl; lia |].
    split; [by intros ? ?%elem_of_nil |]. intros _. right. by intros ? ?%elem_of_nil.
  - assert (Hskip : forall st' taken,
              box_id u ∈ used_utxos st \/ box_found (box_id u) = false ->
              inputs st' = inputs st ++ taken /\
              used_utxos st' = list_to_set (box_id <$> taken) ∪ used_utxos st /\
              total_available_erg st' = total_available_erg st + sum (value <$> taken) /\
              (forall v, v ∈ taken -> v ∈ l /\ box_found (box_id v) = true) /\
              ((forall v, v ∈ l -> box_found (box_id v) = true) ->
               remaining <= held taken tid \/ forall v, v ∈ l -> box_id v ∈ used_utxos st') ->
              inputs st' = inputs st ++ taken /\
              used_utxos st' = list_to_set (box_id <$> taken) ∪ used_utxos st /\
              total_available_erg st' = total_available_erg st + sum (value <$> taken) /\
              (forall v, v ∈ taken -> v ∈ u :: l /\ box_found (box_id v) = true) /\
              ((forall v, v ∈ u :: l -> box_found (box_id v) = true) ->
               remaining <= held taken tid \/
               forall v, v ∈ u :: l -> box_id v ∈ used_utxos st')).
    { intros st' taken Hwhy (Hin & Hids & Herg & Htaken & Hend).
      split; [done |]. split; [done |]. split; [done |]. split.
      - intros v Hv. destruct (Htaken v Hv). split; [by apply list_elem_of_further | done].
      - intros Hfound.
        destruct Hend as [Hmet | Hall];
          [intros; by apply Hfound, list_elem_of_further | by left |].
        right. intros v [-> | Hv]%elem_of_cons; [| by apply Hall].
        destruct Hwhy as [Hused | Hnot].
        + rewrite Hids. by apply elem_of_union_r.
        + rewrite Hfound in Hnot by apply list_elem_of_here. done. }
    simpl. case_decide as Hused.
    { destruct (IH st remaining) as (taken & H). exists taken. apply Hskip; [by left | done]. }
    destruct (box_found (box_id u)) eqn:Hfound.
    + set (st1 := {| inputs := inputs st ++ [u];
                     used_utxos := {[box_id u]} ∪ used_utxos st;
                     total_available_erg := total_available_erg st + value u |}).
      destruct (Z.leb_spec (remaining - amount_of (tokens u) tid) 0) as [Hle | Hgt].
      * exists [u]. simpl. split; [done |].
        split; [by rewrite (right_id_L ∅ (∪)) |].
        split; [unfold sum; simpl; lia |]. split.
        -- intros v ->%list_elem_of_singleton. split; [apply list_elem_of_here | done].
        -- intros _. left. rewrite held_cons. change (held [] tid) with 0. lia.
      * destruct (IH st1 (remaining - amount_of (tokens u) tid))
          as (taken & Hin & Hids & Herg & Htaken & Hend).
        exists (u :: taken). subst st1. rewrite Hin, Hids, Herg.
        cbn [inputs used_utxos total_available_erg]. rewrite !fmap_cons, list_to_set_cons.
        split; [by rewrite <- app_assoc |]. split; [apply union_swap |].
        split; [rewrite sum_cons; lia |]. split.
        -- intros v [-> | Hv]%elem_of_cons; [split; [apply list_elem_of_here | done] |].
           destruct (Htaken v Hv). split; [by apply list_elem_of_further | done].
        -- intros Hall.
           destruct Hend as [Hmet | Hrest];
             [intros; by apply Hall, list_elem_of_further | |].
           ++ left. rewrite held_cons. lia.
           ++ right. intros v [-> | Hv]%elem_of_cons.
              ** by apply elem_of_union_r, elem_of_union_l, elem_of_singleton.
              ** specialize (Hrest v Hv). by rewrite Hids in Hrest.
    + destruct (Z.leb_spec remaining 0) as [Hle | Hgt].
      * exists []. simpl. rewrite app_nil_r, (left_id_L ∅ (∪)).
        split; [done |]. split; [done |]. split; [unfold sum; simpl; lia |].
        split; [by intros ? ?%elem_of_nil |]. intros Hall.
        rewrite Hall in Hfound by apply list_elem_of_here. done.
      * destruct (IH st remaining) as (taken & H). exists taken.
        apply Hskip; [by right | done].
Qed.

(** The loop over the distributions, from any state. *)
Lemma collect_fold_spec box_found all_utxos dists st :
  exists taken,
    inputs (foldl (fun st dist =>
                     collect_token box_found (token_id dist) st (total_amount dist)
                       (get_utxos all_utxos (token_id dist))) st dists)
    = inputs st ++ taken /\
    used_utxos st
      ⊆ used_utxos (foldl (fun st dist =>
                             collect_token box_found (token_id dist) st (total_amount dist)
                               (get_utxos all_utxos (token_id dist))) st dists) /\
    total_available_erg (foldl (fun st dist =>
                                  collect_token box_found (token_id dist) st
                                    (total_amount dist)
                                    (get_utxos all_utxos (token_id dist))) st dists)
    = total_available_erg st + sum (value <$> taken) /\
    forall u, u ∈ taken ->
      box_found (box_id u) = true /\
      exists d, d ∈ dists /\ u ∈ get_utxos all_utxos (token_id d).
Proof.
  revert st. induction dists as [| d dists IH]; intros st; simpl.
  - exists []. rewrite app_nil_r. split; [done |]. split; [done |].
    split; [unfold sum; simpl; lia |]. by intros ? ?%elem_of_nil.
  - destruct (collect_token_spec box_found (token_id d) (get_utxos all_utxos (token_id d))
                st (total_amount d)) as (taken1 & Hin1 & Hids1 & Herg1 & Htaken1 & _).
    destruct (IH (collect_token box_found (token_id d) st (total_amount d)
                    (get_utxos all_utxos (token_id d))))
      as (taken2 & Hin2 & Hids2 & Herg2 & Htaken2).
    exists (taken1 ++ taken2). rewrite Hin2, Herg2, Hin1, Herg1.
    split; [by rewrite <- app_assoc |]. split.
    + etrans; [| apply Hids2]. rewrite Hids1. apply union_subseteq_r.
    + split; [rewrite fmap_app, sum_app; lia |].
      intros u [Hu | Hu]%elem_of_app.
      * destruct (Htaken1 u Hu). split; [done |]. exists d. split; [apply list_elem_of_here | done].
      * destruct (Htaken2 u Hu) as [? (d' & ? & ?)]. split; [done |].
        exists d'. split; [by apply list_elem_of_further | done].
Qed.

Lemma distribute_multiple_tokens_ok box_found all_utxos dists recipients plan :
  distribute_multiple_tokens box_found all_utxos dists recipients = Ok plan ->
  let st := collect_inputs box_found all_utxos dists in
  let change := change_tokens all_utxos (used_utxos st) dists in
  let leftover := total_available_erg st - needed_erg (Z.of_nat (length recipients)) in
  0 <= leftover /\
  input_boxes plan = inputs st /\
  outputs plan
  = ((fun recipient =>
        {| out_value := NANOERG_PER_RECIPIENT + MIN_BOX_VALUE;
           out_tokens := Some (recipient_tokens dists);
           out_contract := ToRecipient recipient |}) <$> recipients)
    ++ (if (0 <? leftover) || negb (bool_decide (change = ∅))
        then [{| out_value := Z.max leftover MIN_BOX_VALUE;
                 out_tokens := if bool_decide (change = ∅) then None else Some change;
                 out_contract := ToProxy |}]
        else []).
Proof.
  intros Hplan st change leftover.
  unfold distribute_multiple_tokens in Hplan. unfold needed_erg in leftover.
  fold st in Hplan. fold change in Hplan.
  destruct (Z.ltb_spec (total_available_erg st)
              ((NANOERG_PER_RECIPIENT + MIN_BOX_VALUE) * Z.of_nat (length recipients) + FEE));
    [done |].
  injection Hplan as <-. simpl. split; [unfold leftover; lia | done].
Qed.

(** X11: the inputs of a plan of [distribute_multiple_tokens]. No box
    identifier occurs twice among them; each is a box the node still returned
    and the snapshot lists under the token of one of the distributions; and
    the ERG the function compares with the ERG needed is the ERG these inputs
    bring. With no distribution at all there is no input, and the function
    fails on ERG. *)
Theorem distribute_multiple_tokens_inputs
    box_found all_utxos token_distributions recipient_addresses plan :
  distribute_multiple_tokens box_found all_utxos token_distributions recipient_addresses
  = Ok plan ->
  NoDup (box_id <$> input_boxes plan) /\
  (forall u, u ∈ input_boxes plan ->
     box_found (box_id u) = true /\
     exists d, d ∈ token_distributions /\ u ∈ get_utxos all_utxos (token_id d)) /\
  inputs_erg plan
  = total_available_erg (collect_inputs box_found all_utxos token_distributions) /\
  needed_erg (Z.of_nat (length recipient_addresses)) <= inputs_erg plan /\
  token_distributions <> [].
Proof.
  intros Hplan.
  destruct (distribute_multiple_tokens_ok _ _ _ _ _ Hplan) as (Hleft & Hin & _).
  destruct (collect_inputs_ok box_found all_utxos token_distributions) as (Hnd & _ & _).
  destruct (collect_fold_spec box_found all_utxos token_distributions
              {| inputs := []; used_utxos := ∅; total_available_erg := 0 |})
    as (taken & Htaken & _ & Herg & Hfrom).
  fold (collect_inputs box_found all_utxos token_distributions) in Htaken, Herg.
  simpl in Htaken, Herg.
  assert (Hsum : inputs_erg plan
                 = total_available_erg
                     (collect_inputs box_found all_utxos token_distributions)).
  { unfold inputs_erg. rewrite Hin, Htaken, Herg. lia. }
  split; [by rewrite Hin |]. split; [| split; [done | split]].
  - intros u Hu. rewrite Hin, Htaken in Hu. by apply Hfrom.
  - rewrite Hsum. lia.
  - intros ->. unfold needed_erg, NANOERG_PER_RECIPIENT, MIN_BOX_VALUE, FEE in Hleft.
    simpl in Hleft. lia.
Qed.

Lemma distribute_multiple_tokens_inputs_witness :
  exists plan,
    distribute_multiple_tokens (fun _ => true) snapshot_12A [distribution "A" 5 10]
      ["r1"; "r2"] = Ok plan /\
    NoDup (box_id <$> input_boxes plan) /\
    needed_erg 2 <= inputs_erg plan.
Proof.
  eexists. split; [by vm_compute |].
  destruct (distribute_multiple_tokens_inputs (fun _ => true) snapshot_12A
              [distribution "A" 5 10] ["r1"; "r2"]
              {| input_boxes := [box "b1" 10000000 [("A", 12)]];
                 outputs :=
                   [ {| out_value := 2000000; out_tokens := Some {["A" := 5]};
                        out_contract := ToRecipient "r1" |};
                     {| out_value := 2000000; out_tokens := Some {["A" := 5]};
                        out_contract := ToRecipient "r2" |};
                     {| out_value := 5000000; out_tokens := Some {["A" := 2]};
                        out_contract := ToProxy |} ] |})
    as (Hnd & _ & _ & Herg & _); [by vm_compute |].
  split; [exact Hnd | exact Herg].
Defined.

(** ** [distribute_multiple_tokens]: the ERG of a plan *)

Lemma collect_inputs_erg box_found all_utxos dists :
  total_available_erg (collect_inputs box_found all_utxos dists)
  = sum (value <$> inputs (collect_inputs box_found all_utxos dists)).
Proof.
  destruct (collect_fold_spec box_found all_utxos dists
              {| inputs := []; used_utxos := ∅; total_available_erg := 0 |})
    as (taken & Htaken & _ & Herg & _).
  fold (collect_inputs box_found all_utxos dists) in Htaken, Herg.
  simpl in Htaken, Herg. rewrite Htaken, Herg. lia.
Qed.

(** X12: the ERG of a plan of [distribute_multiple_tokens]. The outputs and
    the fee never ask for less than the inputs bring, so no ERG is left
    unassigned. They ask for exactly what the inputs bring when the ERG left
    after the recipients and the fee is at least the minimum box value or
    when nothing is left, of ERG and of tokens; in every other case the
    change box is raised to the minimum box value and the plan asks for more
    ERG than its inputs bring, by the difference. *)
Theorem distribute_multiple_tokens_erg_balance
    box_found all_utxos token_distributions recipient_addresses plan :
  distribute_multiple_tokens box_found all_utxos token_distributions recipient_addresses
  = Ok plan ->
  let leftover := inputs_erg plan - needed_erg (Z.of_nat (length recipient_addresses)) in
  let overspent := outputs_erg plan + FEE - inputs_erg plan in
  let change :=
    change_tokens all_utxos
      (used_utxos (collect_inputs box_found all_utxos token_distributions))
      token_distributions in
  0 <= leftover /\
  overspent
  = (if (0 <? leftover) || negb (bool_decide (change = ∅))
     then Z.max 0 (MIN_BOX_VALUE - leftover) else 0) /\
  0 <= overspent <= MIN_BOX_VALUE /\
  (overspent = 0 <-> MIN_BOX_VALUE <= leftover \/ (leftover = 0 /\ change = ∅)).
Proof.
  intros Hplan leftover overspent change.
  destruct (distribute_multiple_tokens_ok _ _ _ _ _ Hplan) as (Hleft & Hin & Hout).
  assert (Hinputs : inputs_erg plan
                    = total_available_erg
                        (collect_inputs box_found all_utxos token_distributions)).
  { unfold inputs_erg. by rewrite Hin, collect_inputs_erg. }
  rewrite <- Hinputs in Hleft, Hout. fold leftover in Hleft, Hout. fold change in Hout.
  assert (Hover : overspent
                  = (if (0 <? leftover) || negb (bool_decide (change = ∅))
                     then Z.max 0 (MIN_BOX_VALUE - leftover) else 0)).
  { unfold overspent, outputs_erg. rewrite Hout, fmap_app, sum_app, <- list_fmap_compose.
    unfold compose. simpl. rewrite sum_const.
    unfold leftover, needed_erg in *.
    destruct (_ || _) eqn:Hor.
    - rewrite fmap_cons, sum_cons. change (sum (out_value <$> [])) with 0. simpl. lia.
    - change (sum (out_value <$> [])) with 0.
      apply orb_false_elim in Hor as [Hz _]. apply Z.ltb_ge in Hz. lia. }
  split; [done |]. split; [done |]. rewrite Hover.
  unfold MIN_BOX_VALUE in *.
  destruct (Z.ltb_spec 0 leftover) as [Hpos | Hzero]; simpl.
  - split; [lia |]. split; [lia | intros [? | [? _]]; lia].
  - assert (leftover = 0) as -> by lia.
    case_bool_decide as Hempty; simpl.
    + split; [lia |]. split; [intros _; by right | done].
    + split; [lia |]. split; [lia | intros [? | [_ ?]]; [lia | done]].
Qed.

(** With 5,500,000 nanoERG in and 5,000,000 needed, the 500,000 left over
    become a change box of 1,000,000: the plan asks for 6,000,000. *)
Lemma distribute_multiple_tokens_erg_balance_witness :
  exists plan,
    distribute_multiple_tokens (fun _ => true) [("A", [box "b1" 5500000 [("A", 10)]])]
      [distribution "A" 5 10] ["r1"; "r2"] = Ok plan /\
    inputs_erg plan = 5500000 /\
    outputs_erg plan + FEE - inputs_erg plan = 500000.
Proof.
  set (plan := {| input_boxes := [box "b1" 5500000 [("A", 10)]];
                  outputs :=
                    [ {| out_value := 2000000; out_tokens := Some {["A" := 5]};
                         out_contract := ToRecipient "r1" |};
                      {| out_value := 2000000; out_tokens := Some {["A" := 5]};
                         out_contract := ToRecipient "r2" |};
                      {| out_value := 1000000; out_tokens := None;
                         out_contract := ToProxy |} ] |}).
  exists plan. split; [by vm_compute |].
  destruct (distribute_multiple_tokens_erg_balance (fun _ => true)
              [("A", [box "b1" 5500000 [("A", 10)]])]
              [distribution "A" 5 10] ["r1"; "r2"] plan)
    as (_ & Hover & _); [by vm_compute |].
  split; [by vm_compute |]. rewrite Hover. by vm_compute.
Defined.

(** ** [distribute_multiple_tokens]: when the node finds every box *)

Lemma all_listed_held all_utxos (l : list utxo) tid :
  well_listed all_utxos -> amounts_nonnegative all_utxos ->
  (forall u, u ∈ l -> listed all_utxos u) ->
  (forall u, u ∈ get_utxos all_utxos tid -> box_id u ∈ box_id <$> l) ->
  total_available (get_utxos all_utxos tid) tid <= held l tid.
Proof.
  intros [Honce Hsame] Hnn Hlisted Hall.
  unfold total_available, held. apply sum_nonneg_sub.
  - eapply NoDup_fmap_1, (Honce tid).
  - intros u Hu. specialize (Hall u Hu).
    apply list_elem_of_fmap in Hall as (v & Hid & Hv).
    destruct (Hlisted v Hv) as [t Ht].
    by rewrite (Hsame tid t u v Hu Ht Hid).
  - intros u Hu. apply Hnn. by apply Hlisted.
Qed.

Lemma collect_inputs_covers box_found all_utxos dists d :
  well_listed all_utxos -> amounts_nonnegative all_utxos ->
  (forall u, listed all_utxos u -> box_found (box_id u) = true) ->
  d ∈ dists ->
  total_amount d <= total_available (get_utxos all_utxos (token_id d)) (token_id d) ->
  total_amount d <= held (inputs (collect_inputs box_found all_utxos dists)) (token_id d).
Proof.
  intros Hwell Hnn Hfound Hd Hav.
  destruct (collect_inputs_ok box_found all_utxos dists) as (_ & Hids & Hlisted).
  destruct (list_elem_of_split _ _ Hd) as (pre & post & Hdists).
  revert Hids Hlisted. unfold collect_inputs. rewrite Hdists, foldl_app. simpl.
  set (step := fun st dist =>
                 collect_token box_found (token_id dist) st (total_amount dist)
                   (get_utxos all_utxos (token_id dist))).
  set (st_pre := foldl step {| inputs := []; used_utxos := ∅; total_available_erg := 0 |} pre).
  destruct (collect_token_spec box_found (token_id d) (get_utxos all_utxos (token_id d))
              st_pre (total_amount d)) as (taken & Hin & Hused & _ & _ & Hend).
  set (st_d := collect_token box_found (token_id d) st_pre (total_amount d)
                 (get_utxos all_utxos (token_id d))) in *.
  destruct (collect_fold_spec box_found all_utxos post st_d) as (later & Hlater & Hsub & _).
  fold step in Hlater, Hsub. set (st_f := foldl step st_d post) in *.
  intros Hids Hlisted.
  destruct Hend as [Hmet | Hall].
  - intros u Hu. apply Hfound. by exists (token_id d).
  - etrans; [apply Hmet |]. rewrite Hlater, Hin. unfold held.
    rewrite !fmap_app, !sum_app.
    assert (0 <= sum ((fun u => amount_of (tokens u) (token_id d)) <$> inputs st_pre)).
    { apply sum_nonneg. intros u Hu. apply Hnn, Hlisted. rewrite Hlater, Hin.
      apply elem_of_app. left. apply elem_of_app. by left. }
    assert (0 <= sum ((fun u => amount_of (tokens u) (token_id d)) <$> later)).
    { apply sum_nonneg. intros u Hu. apply Hnn, Hlisted. rewrite Hlater.
      apply elem_of_app. by right. }
    lia.
  - etrans; [apply Hav |]. apply all_listed_held; [done | done | done |].
    intros u Hu. pose proof (Hsub _ (Hall u Hu)) as Hused_f.
    rewrite Hids in Hused_f. by apply elem_of_list_to_set in Hused_f.
Qed.

(** A plan whose inputs hold the total of a distribution conserves its
    token. *)
Lemma covered_plan_conserves box_found all_utxos dists recipients plan d :
  well_listed all_utxos ->
  lists_holders all_utxos (token_id d) ->
  NoDup (token_id <$> dists) ->
  d ∈ dists ->
  total_amount d = amount_per_recipient d * Z.of_nat (length recipients) ->
  distribute_multiple_tokens box_found all_utxos dists recipients = Ok plan ->
  total_amount d <= covered_total plan (token_id d) ->
  conserved plan (token_id d).
Proof.
  intros Hwl Hh Hnd Hd Htotal Hplan Hcov.
  pose proof (used_total_covered box_found all_utxos dists (token_id d) Hwl Hh) as Hused.
  simpl in Hused.
  unfold distribute_multiple_tokens in Hplan.
  destruct (_ <? _) eqn:Herg in Hplan; [done |].
  injection Hplan as <-.
  unfold conserved, recipients_total, change_total, covered_total in *. simpl in *.
  rewrite !List.filter_app, !fmap_app, !sum_app.
  match goal with |- context [List.filter _ (?f <$> recipients)] =>
    destruct (filter_recipient_outputs f recipients) as [-> ->]; [done |]
  end.
  rewrite <- list_fmap_compose. unfold compose, out_amount at 1. simpl.
  unfold amount_of at 1. rewrite (recipient_tokens_lookup _ d) by done. simpl.
  rewrite sum_const, <- Htotal.
  set (st := collect_inputs box_found all_utxos dists) in *.
  set (change := change_tokens all_utxos (used_utxos st) dists) in *.
  pose proof (change_tokens_lookup all_utxos (used_utxos st) dists d Hnd Hd) as Hchange.
  fold change in Hchange. rewrite Hused in Hchange.
  destruct (_ || _) eqn:Hor; simpl.
  - unfold out_amount. simpl. case_bool_decide as Hempty; simpl.
    + rewrite Hempty, amount_of_empty in Hchange. lia.
    + lia.
  - apply orb_false_elim in Hor as [_ Hne]. apply negb_false_iff in Hne.
    apply bool_decide_eq_true in Hne. rewrite Hne, amount_of_empty in Hchange. lia.
Qed.

(** X13: when the node still returns every listed box, the inputs
    [distribute_multiple_tokens] collects from a well-listed snapshot without
    negative amounts hold at least the total of every distribution that asks
    for no more than the snapshot lists of its token; and with one
    distribution per token, each a per-recipient amount times the number of
    recipients, the plan conserves that token: what the recipients get and
    what the change box keeps is what the inputs hold. *)
Theorem distribute_multiple_tokens_covers_when_found
    box_found all_utxos token_distributions recipient_addresses plan d :
  well_listed all_utxos -> amounts_nonnegative all_utxos ->
  (forall u, listed all_utxos u -> box_found (box_id u) = true) ->
  d ∈ token_distributions ->
  total_amount d <= total_available (get_utxos all_utxos (token_id d)) (token_id d) ->
  distribute_multiple_tokens box_found all_utxos token_distributions recipient_addresses
  = Ok plan ->
  total_amount d <= covered_total plan (token_id d) /\
  (lists_holders all_utxos (token_id d) ->
   NoDup (token_id <$> token_distributions) ->
   total_amount d = amount_per_recipient d * Z.of_nat (length recipient_addresses) ->
   conserved plan (token_id d)).
Proof.
  intros Hwell Hnn Hfound Hd Hav Hplan.
  assert (Hcov : total_amount d <= covered_total plan (token_id d)).
  { destruct (distribute_multiple_tokens_ok _ _ _ _ _ Hplan) as (_ & Hin & _).
    unfold covered_total. rewrite Hin. by apply collect_inputs_covers. }
  split; [done |]. intros Hholders Hnd Htotal. by eapply covered_plan_conserves.
Qed.

Lemma distribute_multiple_tokens_covers_when_found_witness :
  exists plan,
    distribute_multiple_tokens (fun _ => true) snapshot_12A [distribution "A" 5 10]
      ["r1"; "r2"] = Ok plan /\
    10 <= covered_total plan "A" /\
    conserved plan "A".
Proof.
  set (plan := {| input_boxes := [box "b1" 10000000 [("A", 12)]];
                  outputs :=
                    [ {| out_value := 2000000; out_tokens := Some {["A" := 5]};
                         out_contract := ToRecipient "r1" |};
                      {| out_value := 2000000; out_tokens := Some {["A" := 5]};
                         out_contract := ToRecipient "r2" |};
                      {| out_value := 5000000; out_tokens := Some {["A" := 2]};
                         out_contract := ToProxy |} ] |}).
  exists plan. split; [by vm_compute |].
  destruct (distribute_multiple_tokens_covers_when_found (fun _ => true) snapshot_12A
              [distribution "A" 5 10] ["r1"; "r2"] plan (distribution "A" 5 10))
    as [Hcov Hcons].
  - apply snapshot_12A_well_listed.
  - apply snapshot_12A_amounts_nonnegative.
  - done.
  - apply list_elem_of_here.
  - by vm_compute.
  - by vm_compute.
  - split; [exact Hcov |]. apply Hcons.
    + apply snapshot_12A_lists_holders.
    + apply (bool_decide_unpack _). by vm_compute.
    + by vm_compute.
Defined.

(** ** Scan, plan and distribute on one snapshot *)

(** X14: scan, plan and distribute fit together when
    [distribute_multiple_tokens] is given the snapshot, as its signature
    declares. On the snapshot of a scan of unspent boxes with distinct
    identifiers and no negative token value, for tokens configured once each,
    the plan it builds from the distributions
    [calculate_token_distributions] returns conserves every distributed
    token, provided the node still returns the boxes when the inputs are
    collected. *)
Theorem scan_plan_distribute_conserves
    libm box_found unspent_boxes tokens_info current_round recipient_addresses ds plan :
  NoDup (node_box_id <$> unspent_boxes) ->
  (forall b t a, b ∈ unspent_boxes -> (t, a) ∈ node_box_tokens b -> 0 <= a) ->
  (forall b, b ∈ unspent_boxes -> box_found (node_box_id b) = true) ->
  NoDup (config_token_id <$> tokens_info.*2) ->
  recipient_addresses <> [] ->
  let all_utxos := scan_all unspent_boxes tokens_info in
  calculate_token_distributions libm all_utxos tokens_info current_round
    (Z.of_nat (length recipient_addresses)) = Ok ds ->
  distribute_multiple_tokens box_found all_utxos ds recipient_addresses = Ok plan ->
  forall d, d ∈ ds ->
    total_amount d <= covered_total plan (token_id d) /\ conserved plan (token_id d).
Proof.
  intros Hnd Hnn Hfound Hconfigs Hrec all_utxos Hds Hplan d Hd.
  assert (Hn : 0 < Z.of_nat (length recipient_addresses)).
  { destruct recipient_addresses; [done | simpl; lia]. }
  pose proof (scan_all_well_listed unspent_boxes tokens_info Hnd) as Hwell.
  fold all_utxos in Hwell.
  rewrite calculate_is_spec in Hds by done.
  destruct (distributions_spec_entries _ _ _ _ _ _ Hds d Hd)
    as (name & cfg & amount & Hin & Htid & _ & Hper & Hpos & Htotal).
  assert (Hcov : total_amount d <= covered_total plan (token_id d)).
  { destruct (distribute_multiple_tokens_ok _ _ _ _ _ Hplan) as (_ & Hinputs & _).
    unfold covered_total. rewrite Hinputs. apply collect_inputs_covers; try done.
    - by apply scan_all_amounts_nonnegative.
    - intros u [t (_ & b & Hb & -> & _)%scan_all_listed]. by apply Hfound.
    - rewrite Htid.
      pose proof (Z.mul_div_le
                    (Z.min amount (total_available (get_utxos all_utxos (config_token_id cfg))
                                     (config_token_id cfg)))
                    (Z.of_nat (length recipient_addresses)) Hn) as Hle.
      rewrite <- Hper in Hle. nia. }
  split; [done |].
  eapply covered_plan_conserves; try done.
  - rewrite Htid. by eapply scan_all_lists_holders.
  - pose proof (distributions_spec_sublist _ _ _ _ _ _ Hds) as Hsub.
    by eapply sublist_NoDup.
Qed.

Lemma scan_plan_distribute_conserves_witness :
  exists plan,
    distribute_multiple_tokens (fun _ => true) (scan_all node_boxes_AB tokens_info_AB)
      [distribution "A" 50 100; distribution "B" 3 6] ["r1"; "r2"] = Ok plan /\
    conserved plan "A" /\ conserved plan "B".
Proof.
  destruct (distribute_multiple_tokens (fun _ => true) (scan_all node_boxes_AB tokens_info_AB)
              [distribution "A" 50 100; distribution "B" 3 6] ["r1"; "r2"])
    as [plan | e] eqn:Hplan; [| by vm_compute in Hplan].
  exists plan. split; [done |].
  pose proof (scan_plan_distribute_conserves libm_down (fun _ => true) node_boxes_AB tokens_info_AB 1
                ["r1"; "r2"] [distribution "A" 50 100; distribution "B" 3 6] plan) as H.
  cbv zeta in H.
  assert (Hall : forall d, d ∈ [distribution "A" 50 100; distribution "B" 3 6] ->
                   total_amount d <= covered_total plan (token_id d) /\
                   conserved plan (token_id d)).
  { apply H.
    - apply node_boxes_AB_distinct.
    - intros b t a Hb Hta. vm_compute in Hb.
      repeat (apply elem_of_cons in Hb as [-> | Hb];
              [simpl in Hta;
               repeat (apply elem_of_cons in Hta as [[= -> ->] | Hta]; [lia |]);
               by apply elem_of_nil in Hta |]).
      by apply elem_of_nil in Hb.
    - done.
    - apply (bool_decide_unpack _). by vm_compute.
    - done.
    - by vm_compute.
    - done. }
  split.
  - apply (Hall (distribution "A" 50 100)), list_elem_of_here.
  - apply (Hall (distribution "B" 3 6)), list_elem_of_further, list_elem_of_here.
Defined.

(** ** [distribute_tokens] *)

Lemma singleton_amount (tid : string) (x : Z) : amount_of {[tid := x]} tid = x.
Proof. unfold amount_of. by rewrite lookup_singleton_eq. Qed.

Lemma distribute_tokens_ok box_found utxos tid recipients per_round plan :
  distribute_tokens box_found utxos tid recipients per_round = Ok (Some plan) ->
  let n := Z.of_nat (length recipients) in
  let per_recipient := per_round / n in
  let change_value := sum (value <$> utxos) - ((NANOERG_PER_RECIPIENT + MIN_BOX_VALUE) * n + FEE) in
  let change_tokens := held utxos tid - per_recipient * n in
  0 < n /\ per_round <= held utxos tid /\ per_recipient <> 0 /\
  MIN_BOX_VALUE <= change_value /\ 0 <= change_tokens /\
  input_boxes plan = List.filter (fun u => box_found (box_id u)) utxos /\
  input_boxes plan <> [] /\
  outputs plan
  = ((fun recipient =>
        {| out_value := NANOERG_PER_RECIPIENT + MIN_BOX_VALUE;
           out_tokens := Some {[tid := per_recipient]};
           out_contract := ToRecipient recipient |}) <$> recipients)
    ++ [{| out_value := change_value;
           out_tokens := if 0 <? change_tokens then Some {[tid := change_tokens]} else None;
           out_contract := ToProxy |}].
Proof.
  intros Hplan n per_recipient change_value change_tokens.
  unfold distribute_tokens in Hplan. fold n in Hplan.
  change (sum ((fun u => amount_of (tokens u) tid) <$> utxos)) with (held utxos tid) in Hplan.
  destruct (Z.ltb_spec (held utxos tid) per_round) as [| Havail]; [done |].
  unfold floordiv in Hplan. destruct (Z.eqb_spec n 0) as [| Hn]; [done |]. simpl in Hplan.
  fold per_recipient in Hplan.
  destruct (Z.eqb_spec per_recipient 0) as [| Hper]; [done |].
  destruct (Z.ltb_spec (sum (value <$> utxos))
              ((NANOERG_PER_RECIPIENT + MIN_BOX_VALUE) * n + FEE + MIN_BOX_VALUE))
    as [| Herg]; [done |].
  destruct (List.filter (fun u => box_found (box_id u)) utxos) as [| u found] eqn:Hfound;
    [done |].
  assert (Hpos : 0 < n) by (unfold n in *; lia).
  assert (Hused : per_recipient * n <= per_round).
  { unfold per_recipient. rewrite Z.mul_comm. by apply Z.mul_div_le. }
  fold change_value in Hplan. fold change_tokens in Hplan.
  assert (Hcv : MIN_BOX_VALUE <= change_value) by (unfold change_value; lia).
  injection Hplan as <-. simpl.
  split; [done |]. split; [done |]. split; [done |]. split; [done |].
  split; [unfold change_tokens; lia |]. split; [done |]. split; [done |].
  f_equal. replace (0 <? change_value) with true by (unfold MIN_BOX_VALUE in Hcv; lia).
  simpl. by rewrite Z.max_l by done.
Qed.

(** X15: a plan of the single-token [distribute_tokens]. Its outputs are one
    box per recipient, in the order of the recipients, each carrying
    [tokens_per_round // recipients] tokens and the ERG of a recipient box,
    followed by one change box to the proxy; the change box is always there,
    with at least the minimum box value, and carries the tokens left over,
    if any. So the recipients get [tokens_per_round // n * n] tokens in all;
    outputs and fee take exactly the ERG of the boxes of the snapshot, and
    recipients and change exactly their tokens. The inputs are the boxes the
    node still returns: when it returns them all the plan is balanced in ERG
    and in tokens; a box it does not return is still counted in the
    outputs. *)
Theorem distribute_tokens_plan
    box_found utxos token_id recipient_addresses tokens_per_round plan :
  distribute_tokens box_found utxos token_id recipient_addresses tokens_per_round
  = Ok (Some plan) ->
  let n := Z.of_nat (length recipient_addresses) in
  input_boxes plan = List.filter (fun u => box_found (box_id u)) utxos /\
  input_boxes plan <> [] /\
  (exists change,
     outputs plan
     = ((fun recipient =>
           {| out_value := NANOERG_PER_RECIPIENT + MIN_BOX_VALUE;
              out_tokens := Some {[token_id := tokens_per_round / n]};
              out_contract := ToRecipient recipient |}) <$> recipient_addresses)
       ++ [change] /\
     out_contract change = ToProxy /\
     out_value change
     = sum (value <$> utxos) - ((NANOERG_PER_RECIPIENT + MIN_BOX_VALUE) * n + FEE) /\
     MIN_BOX_VALUE <= out_value change /\
     out_tokens change
     = (if 0 <? held utxos token_id - tokens_per_round / n * n
        then Some {[token_id := held utxos token_id - tokens_per_round / n * n]}
        else None)) /\
  0 < n /\ tokens_per_round / n <> 0 /\
  recipients_total plan token_id = tokens_per_round / n * n /\
  recipients_total plan token_id + change_total plan token_id = held utxos token_id /\
  outputs_erg plan + FEE = sum (value <$> utxos) /\
  (exists o, o ∈ outputs plan /\ is_change o = true /\ MIN_BOX_VALUE <= out_value o) /\
  ((forall u, u ∈ utxos -> box_found (box_id u) = true) ->
   conserved plan token_id /\ outputs_erg plan + FEE = inputs_erg plan).
Proof.
  intros Hplan n.
  destruct (distribute_tokens_ok _ _ _ _ _ _ Hplan)
    as (Hn & Havail & Hper & Hcv & Hct & Hin & Hsome & Hout).
  fold n in Hn, Hper, Hcv, Hct, Hout.
  assert (Hrec : recipients_total plan token_id = tokens_per_round / n * n).
  { unfold recipients_total. rewrite Hout, List.filter_app.
    match goal with |- context [List.filter _ (?f <$> recipient_addresses)] =>
      destruct (filter_recipient_outputs f recipient_addresses) as [-> _]; [done |]
    end.
    simpl. rewrite app_nil_r, <- list_fmap_compose. unfold compose, out_amount. simpl.
    rewrite singleton_amount. apply sum_const. }
  assert (Hchange : change_total plan token_id
                    = held utxos token_id - tokens_per_round / n * n).
  { unfold change_total. rewrite Hout, List.filter_app.
    match goal with |- context [List.filter _ (?f <$> recipient_addresses)] =>
      destruct (filter_recipient_outputs f recipient_addresses) as [_ ->]; [done |]
    end.
    simpl. unfold out_amount. simpl.
    destruct (Z.ltb_spec 0 (held utxos token_id - tokens_per_round / n * n)); simpl.
    - rewrite singleton_amount. lia.
    - lia. }
  assert (Herg : outputs_erg plan + FEE = sum (value <$> utxos)).
  { unfold outputs_erg. rewrite Hout, fmap_app, sum_app, <- list_fmap_compose.
    unfold compose. simpl. rewrite sum_const. fold n. lia. }
  split; [done |]. split; [done |].
  split; [eexists; split; [exact Hout |]; by repeat split |].
  split; [done |]. split; [done |].
  split; [done |]. split; [lia |]. split; [done |].
  split.
  - eexists. split; [rewrite Hout; apply elem_of_app; right; apply list_elem_of_here |].
    by split.
  - intros Hall.
    assert (Hfilter : input_boxes plan = utxos).
    { rewrite Hin. clear -Hall. induction utxos as [| u l IH]; [done |]. simpl.
      rewrite Hall by apply list_elem_of_here. f_equal. apply IH.
      intros v Hv. by apply Hall, list_elem_of_further. }
    split.
    + unfold conserved, covered_total. rewrite Hfilter, Hrec, Hchange.
      unfold held. lia.
    + unfold inputs_erg. by rewrite Hfilter.
Qed.

(** 11 tokens for two recipients out of a box of 12: 5 each, 2 back to the
    proxy. *)
Lemma distribute_tokens_plan_witness :
  exists plan,
    distribute_tokens (fun _ => true) [box "b1" 10000000 [("A", 12)]] "A" ["r1"; "r2"] 11
    = Ok (Some plan) /\
    (out_tokens <$> outputs plan)
    = [Some {["A" := 5]}; Some {["A" := 5]}; Some {["A" := 2]}] /\
    recipients_total plan "A" = 10 /\
    conserved plan "A" /\
    outputs_erg plan + FEE = inputs_erg plan.
Proof.
  destruct (distribute_tokens (fun _ => true) [box "b1" 10000000 [("A", 12)]] "A"
              ["r1"; "r2"] 11) as [[plan |] | e] eqn:Hplan;
    [| by vm_compute in Hplan | by vm_compute in Hplan].
  exists plan. split; [done |].
  destruct (distribute_tokens_plan _ _ _ _ _ _ Hplan)
    as (_ & _ & (change & Hout & _ & _ & _ & Hchange) & _ & _ & Hrec & _ & _ & _ & Hall).
  split.
  - rewrite Hout, fmap_app. simpl. rewrite Hchange. vm_compute. reflexivity.
  - split; [by rewrite Hrec |]. by apply Hall.
Defined.

(** X16: the single-token [distribute_tokens] raises in one case only: with
    no recipient at all and enough tokens for a round, the integer division
    by the recipient count raises ZeroDivisionError. Short of tokens it
    returns before dividing, whatever the recipients. *)
Theorem distribute_tokens_raises_without_recipients
    box_found utxos token_id recipient_addresses tokens_per_round e :
  distribute_tokens box_found utxos token_id recipient_addresses tokens_per_round = Err e <->
  e = ZeroDivisionError /\ recipient_addresses = [] /\
  tokens_per_round <= held utxos token_id.
Proof.
  unfold distribute_tokens.
  change (sum ((fun u => amount_of (tokens u) token_id) <$> utxos))
    with (held utxos token_id).
  destruct (Z.ltb_spec (held utxos token_id) tokens_per_round) as [Hshort | Havail].
  { split; [done | intros (_ & _ & ?); lia]. }
  unfold floordiv. destruct recipient_addresses as [| r rs].
  { simpl. split; [by intros [= <-] | by intros (-> & _)]. }
  replace (Z.of_nat (length (r :: rs)) =? 0) with false by (simpl; lia).
  cbn [bind]. split; [| by intros (_ & ? & _)].
  destruct (_ =? 0); [done |]. destruct (_ <? _); [done |].
  by destruct (List.filter _ utxos).
Qed.

(** ** The schedules at and past their ends *)

(** X17: the quadratic schedule has no end. Past the last round it runs
    backwards: with a [pow] that squares [-x] as it squares [x], round
    [total_rounds + k] releases what round [total_rounds - k] released,
    whatever [k]; with any faithful [pow], the amount of round
    [total_rounds + k] lies between the amounts the formula gives at round
    [total_rounds - k] with the square rounded down and rounded up. So after
    the 0 of the last round the amounts grow again: from the last round to
    the round before twice the last they do not decrease, and at round
    [2 * total_rounds] the token releases its full tokens_per_round. *)
Theorem quadratic_mirrors_past_last_round libm cfg T :
  distribution_type cfg = quadratic ->
  total_rounds cfg = Ok T ->
  (even_pow libm ->
   forall k, round_amount libm cfg (T + k) = round_amount libm cfg (T - k)) /\
  (faithful_pow libm -> 0 < tokens_per_round cfg <= 2 ^ 1023 ->
   forall k, 0 <= k < T ->
     exists amount,
       round_amount libm cfg (T + k) = Ok amount /\
       quadratic_low (tokens_per_round cfg) T (T - k) <= amount /\
       amount <= quadratic_high (tokens_per_round cfg) T (T - k)) /\
  (faithful_pow libm -> 0 < tokens_per_round cfg <= 2 ^ 1023 ->
   0 < config_total_amount cfg <= 2 ^ 1023 ->
   forall k k', 0 <= k -> k <= k' -> k' < T ->
     exists amount amount',
       round_amount libm cfg (T + k) = Ok amount /\
       round_amount libm cfg (T + k') = Ok amount' /\
       0 <= amount /\ amount <= amount') /\
  (faithful_pow libm -> 0 <= tokens_per_round cfg < 2 ^ 53 -> T <> 0 ->
   round_amount libm cfg (2 * T) = Ok (tokens_per_round cfg)).
Proof.
  intros Hty HT. split; [| split; [| split]].
  - intros Heven k. by apply RoundingFacts.quadratic_mirror.
  - intros Hf Hb k Hk. by apply RoundingFacts.quadratic_past_last.
  - intros Hf Hb Ht k k' H1 H2 H3. by apply RoundingFacts.quadratic_past_last_grows.
  - intros Hf Hb HT0. by apply RoundingFacts.quadratic_full.
Qed.

(** 100 per round over 10 rounds: round 15 releases what round 5 released,
    25; round 20 releases 100. *)
Lemma quadratic_mirrors_past_last_round_witness :
  round_amount libm_down quadratic_1000 (10 + 5) = round_amount libm_down quadratic_1000 (10 - 5) /\
  (exists amount,
     round_amount libm_down quadratic_1000 (10 + 5) = Ok amount /\
     quadratic_low (tokens_per_round quadratic_1000) 10 (10 - 5) <= amount /\
     amount <= quadratic_high (tokens_per_round quadratic_1000) 10 (10 - 5)) /\
  (exists amount amount',
     round_amount libm_down quadratic_1000 (10 + 0) = Ok amount /\
     round_amount libm_down quadratic_1000 (10 + 5) = Ok amount' /\
     0 <= amount /\ amount <= amount') /\
  round_amount libm_down quadratic_1000 (2 * 10) = Ok (tokens_per_round quadratic_1000).
Proof.
  assert (HT : total_rounds quadratic_1000 = Ok 10) by (vm_compute; reflexivity).
  assert (Hb : 0 <= tokens_per_round quadratic_1000 < 2 ^ 53)
    by (vm_compute; split; [discriminate | reflexivity]).
  assert (Hb' : 0 < tokens_per_round quadratic_1000 <= 2 ^ 1023)
    by (vm_compute; split; [reflexivity | discriminate]).
  assert (Ht : 0 < config_total_amount quadratic_1000 <= 2 ^ 1023)
    by (vm_compute; split; [reflexivity | discriminate]).
  assert (HT0 : 10 <> 0) by discriminate.
  assert (Hk : 0 <= 5 < 10) by (split; [discriminate | reflexivity]).
  assert (H0 : 0 <= 0) by discriminate.
  assert (H05 : 0 <= 5) by discriminate.
  assert (H510 : 5 < 10) by reflexivity.
  destruct (quadratic_mirrors_past_last_round libm_down quadratic_1000 10 eq_refl HT)
    as (Hmirror & Hbracket & Hgrows & Hfull).
  split; [exact (Hmirror RoundingFacts.libm_down_even 5) |].
  split; [exact (Hbracket RoundingFacts.libm_down_faithful Hb' 5 Hk) |].
  split; [exact (Hgrows RoundingFacts.libm_down_faithful Hb' Ht 0 5 H0 H05 H510) |].
  exact (Hfull RoundingFacts.libm_down_faithful Hb HT0).
Defined.

(** X18: the logarithmic schedule of a token with at least two rounds starts
    at the full tokens_per_round (round 1, where the two logarithms are the
    same number) and ends at 0 (the last round, where the numerator is
    [math.log(1)]): the last round of a logarithmic token distributes
    nothing. *)
Theorem logarithmic_first_and_last_round libm cfg T :
  distribution_type cfg = logarithmic ->
  total_rounds cfg = Ok T ->
  2 <= T ->
  ~ (libm_log libm T == 0)%Q ->
  (0 <= tokens_per_round cfg < 2 ^ 53 ->
   round_amount libm cfg 1 = Ok (tokens_per_round cfg)) /\
  (0 <= tokens_per_round cfg <= 2 ^ 1023 ->
   round_amount libm cfg T = Ok 0).
Proof.
  intros Hty HT HT2 Hlog.
  assert (Hden : math_log libm T = Ok (libm_log libm T)).
  { unfold math_log. replace (T <=? 0) with false by lia.
    by replace (T =? 1) with false by lia. }
  assert (Hnz : Qeq_bool (libm_log libm T) 0 = false).
  { destruct (Qeq_bool (libm_log libm T) 0) eqn:E; [| done]. by apply Qeq_bool_iff in E. }
  split.
  - intros Hb. unfold round_amount. rewrite HT, Hty. cbn [bind].
    replace (T - 1 + 1) with T by lia. rewrite Hden. cbn [bind].
    unfold PyFloat.div. rewrite Hnz.
    rewrite (RoundingFacts.fl_proper (libm_log libm T / libm_log libm T) 1)
      by (by apply Qmult_inv_r).
    change (PyFloat.finite (PyFloat.fl 1)) with (Ok 1%Q). cbn [bind].
    by apply RoundingFacts.scaled_one.
  - intros Hb. unfold round_amount. rewrite HT, Hty. cbn [bind].
    replace (T - T + 1) with 1 by lia. rewrite Hden.
    change (math_log libm 1) with (Ok 0%Q). cbn [bind].
    unfold PyFloat.div. rewrite Hnz.
    rewrite (PyFloatFacts.fl_zero (0 / libm_log libm T)) by (unfold Qdiv; apply Qmult_0_l).
    change (PyFloat.finite 0) with (Ok 0%Q). cbn [bind].
    by apply RoundingFacts.scaled_zero.
Qed.

(** A stand-in for the logarithm that does not vanish at 10 is all the
    example needs. *)
Lemma logarithmic_first_and_last_round_witness :
  round_amount libm_linear_log logarithmic_1000 1
  = Ok (tokens_per_round logarithmic_1000) /\
  round_amount libm_linear_log logarithmic_1000 10 = Ok 0.
Proof.
  assert (HT : total_rounds logarithmic_1000 = Ok 10) by (vm_compute; reflexivity).
  assert (Hlog : ~ (libm_log libm_linear_log 10 == 0)%Q) by discriminate.
  assert (H2 : 2 <= 10) by discriminate.
  assert (Hb : 0 <= tokens_per_round logarithmic_1000 < 2 ^ 53)
    by (vm_compute; split; [discriminate | reflexivity]).
  assert (Hb' : 0 <= tokens_per_round logarithmic_1000 <= 2 ^ 1023)
    by (vm_compute; split; discriminate).
  destruct (logarithmic_first_and_last_round libm_linear_log logarithmic_1000 10
              eq_refl HT H2 Hlog)
    as [Hfirst Hlast].
  split; [exact (Hfirst Hb) | exact (Hlast Hb')].
Defined.

(** ** [select_utxos]: the second pass takes few boxes *)

(** The top-up loop takes the shortest beginning of the list that meets the
    target, or the whole list. *)
Lemma top_up_prefix dist l st :
  exists j,
    (j <= length l)%nat /\
    boxes (top_up dist st l) = boxes st ++ take j l /\
    amount_of (token_amounts (top_up dist st l)) (token_id dist)
    = amount_of (token_amounts st) (token_id dist) + held (take j l) (token_id dist) /\
    (forall i, (i < j)%nat ->
       amount_of (token_amounts st) (token_id dist) + held (take i l) (token_id dist)
       < total_amount dist) /\
    ((j < length l)%nat ->
     total_amount dist <= amount_of (token_amounts (top_up dist st l)) (token_id dist)).
Proof.
  revert st. induction l as [| u l IH]; intros st.
  - exists 0%nat. simpl. rewrite app_nil_r. change (held [] (token_id dist)) with 0.
    split; [done |]. split; [done |]. split; [lia |]. split; [intros; lia | intros; lia].
  - simpl.
    destruct (Z.leb_spec (total_amount dist) (amount_of (token_amounts st) (token_id dist)))
      as [Hmet | Hshort].
    + exists 0%nat. simpl. rewrite app_nil_r. change (held [] (token_id dist)) with 0.
      split; [lia |]. split; [done |]. split; [lia |]. split; [intros; lia | done].
    + destruct (IH (use_box_for (token_id dist) st u)) as (j & Hj & Hb & Ha & Hlt & Hend).
      assert (Hstep : amount_of (token_amounts (use_box_for (token_id dist) st u))
                        (token_id dist)
                      = amount_of (token_amounts st) (token_id dist)
                        + amount_of (tokens u) (token_id dist)).
      { simpl. rewrite amount_of_insert. by rewrite decide_True. }
      exists (S j). cbn [take length]. rewrite Hb, Ha, Hstep, held_cons.
      split; [lia |]. split; [simpl; by rewrite <- app_assoc |]. split; [lia |]. split.
      * intros [| i] Hi; cbn [take].
        -- change (held [] (token_id dist)) with 0. lia.
        -- rewrite held_cons. specialize (Hlt i ltac:(lia)). lia.
      * intros Hlen. rewrite <- Hstep, <- Ha. apply Hend. lia.
Qed.

Lemma sorted_prefix_max {A} (key : A -> Z) (l s : list A) :
  StronglySorted (descending key) l -> s ⊆+ l ->
  sum (key <$> s) <= sum (key <$> take (length s) l).
Proof.
  intros Hsorted. revert s. induction Hsorted as [| x l Hsorted IH Hx]; intros s Hs.
  - apply submseteq_nil_r in Hs as ->. done.
  - apply submseteq_cons_r in Hs as [Hs | (s' & Hperm & Hs')].
    + destruct s as [| y s0] eqn:Es; [done |]. rewrite <- Es in *.
      assert (Hlen : (length s <= length l)%nat) by by apply submseteq_length.
      assert (Hs1 : (length s = S (length s0))%nat) by (by rewrite Es).
      etrans; [by apply IH |]. rewrite Hs1. cbn [take]. rewrite fmap_cons, sum_cons.
      destruct (lookup_lt_is_Some_2 l (length s0) ltac:(lia)) as [z Hz].
      rewrite (take_S_r l (length s0) z Hz), fmap_app, sum_app.
      rewrite Forall_lookup in Hx. specialize (Hx _ _ Hz). unfold descending in Hx.
      rewrite fmap_cons, sum_cons. change (sum (key <$> [])) with 0. lia.
    + rewrite (sum_perm (key <$> s) (key <$> x :: s')) by (by rewrite Hperm).
      rewrite (Permutation_length Hperm). cbn [length take].
      rewrite !fmap_cons, !sum_cons. specialize (IH s' Hs'). lia.
Qed.

(** X19: the top-up of the second pass takes the fewest boxes. The boxes it
    adds for a distribution are always the first ones of the unused boxes of
    the token, sorted by amount, largest first, and it stops at the first box
    with which the target is met: no shorter run of those boxes reaches the
    target, and when the target stays out of reach every unused box of the
    token is taken. Whenever some choice among the unused boxes would bring
    the token to its target, the top-up reaches the target and takes no more
    boxes than that choice has. *)
Theorem fill_missing_takes_fewest_boxes all_utxos st dist :
  exists taken,
    boxes (fill_missing all_utxos st dist) = boxes st ++ taken /\
    taken `prefix_of` available_boxes all_utxos st (token_id dist) /\
    amount_of (token_amounts (fill_missing all_utxos st dist)) (token_id dist)
    = amount_of (token_amounts st) (token_id dist) + held taken (token_id dist) /\
    (forall i, (i < length taken)%nat ->
       amount_of (token_amounts st) (token_id dist) + held (take i taken) (token_id dist)
       < total_amount dist) /\
    (amount_of (token_amounts (fill_missing all_utxos st dist)) (token_id dist)
     < total_amount dist ->
     taken = available_boxes all_utxos st (token_id dist)) /\
    (forall s,
       s ⊆+ filter (fun box => box_id box ∉ box_ids st)
              (get_utxos all_utxos (token_id dist)) ->
       total_amount dist
         <= amount_of (token_amounts st) (token_id dist) + held s (token_id dist) ->
       (length taken <= length s)%nat /\
       total_amount dist
         <= amount_of (token_amounts (fill_missing all_utxos st dist)) (token_id dist)).
Proof.
  unfold fill_missing.
  destruct (Z.ltb_spec (amount_of (token_amounts st) (token_id dist)) (total_amount dist))
    as [Hshort | Hmet].
  2: { exists []. rewrite app_nil_r. split; [done |]. split; [apply prefix_nil |].
       change (held [] (token_id dist)) with 0.
       split; [lia |]. split; [simpl; intros; lia |]. split; [intros; lia |].
       intros s _ _. split; [simpl; lia | done]. }
  set (l := available_boxes all_utxos st (token_id dist)).
  destruct (top_up_prefix dist l st) as (j & Hj & Hb & Ha & Hlt & Hend).
  assert (Hlen : length (take j l) = j) by (rewrite length_take; lia).
  exists (take j l). split; [done |]. split; [apply prefix_take |]. split; [done |].
  split; [| split].
  - intros i Hi. rewrite Hlen in Hi. rewrite take_take.
    replace (i `min` j)%nat with i by lia. by apply Hlt.
  - intros Hunmet. apply take_ge.
    destruct (le_lt_dec (length l) j) as [| Hless]; [done |].
    specialize (Hend Hless). lia.
  - intros s Hs Hcover.
    assert (Hsl : s ⊆+ l).
    { unfold l, available_boxes. by rewrite sort_desc_perm. }
    assert (Hsorted : StronglySorted
                        (descending (fun box => amount_of (tokens box) (token_id dist))) l)
      by apply sort_desc_sorted.
    pose proof (sorted_prefix_max _ l s Hsorted Hsl) as Hmax.
    fold (held s (token_id dist)) in Hmax.
    fold (held (take (length s) l) (token_id dist)) in Hmax.
    pose proof (submseteq_length _ _ Hsl) as Hls.
    assert (Hjs : (j <= length s)%nat).
    { destruct (le_lt_dec j (length s)) as [| Hgt]; [done |].
      specialize (Hlt (length s) Hgt). lia. }
    split; [lia |].
    destruct (le_lt_dec (length l) j) as [Hall | Hless]; [| by apply Hend].
    rewrite Ha. assert (length s = j) as <- by lia. lia.
Qed.

(** Boxes of 3, 9 and 5 and a target of 10: the boxes of 9 and 5 are taken,
    in that order. *)
Lemma fill_missing_takes_fewest_boxes_witness :
  exists taken,
    boxes (fill_missing snapshot_395 (empty_selection [distribution "A" 5 10])
             (distribution "A" 5 10)) = taken /\
    box_id <$> taken = ["b9"; "b5"] /\
    (length taken <= 2)%nat.
Proof.
  destruct (fill_missing_takes_fewest_boxes snapshot_395
              (empty_selection [distribution "A" 5 10]) (distribution "A" 5 10))
    as (taken & Hboxes & _ & _ & _ & _ & Hfewest).
  exists taken. split; [exact Hboxes |]. split.
  - vm_compute in Hboxes. subst taken. reflexivity.
  - apply (Hfewest [box "b9" 1000000 [("A", 9)]; box "b5" 1000000 [("A", 5)]]).
    + apply sublist_submseteq. vm_compute.
      apply sublist_cons, sublist_skip, sublist_skip, sublist_nil.
    + vm_compute. discriminate.
Defined.

(** ** A cycle of [main] *)

Lemma names_found_of_configured tokens_info ds :
  (forall d, d ∈ ds ->
     exists name cfg, (name, cfg) ∈ tokens_info /\ token_id d = config_token_id cfg) ->
  names_found tokens_info ds = true.
Proof.
  intros Hall. unfold names_found. apply forallb_forall. intros d Hd%list_elem_of_In.
  destruct (Hall d Hd) as (name & cfg & Hin & Htid).
  apply existsb_exists. exists (name, cfg). split; [by apply list_elem_of_In |].
  by apply bool_decide_eq_true.
Qed.

(** X20: no cycle of [main] ends with a distribution. [main] hands the list
    of selected boxes to [distribute_multiple_tokens], which asks it for
    [get] as soon as there is a distribution; so whenever tokens are ready,
    the ERG suffices and the boxes are still there, the cycle ends in
    "Error planning distribution" with the AttributeError, and the other
    cycles end before a plan is built. *)
Theorem cycle_never_distributes
    libm stale box_found_rescan box_found unspent_boxes tokens_info current_round
    recipient_wallets :
  let run :=
    cycle libm stale box_found_rescan box_found unspent_boxes tokens_info
      current_round recipient_wallets in
  let all_utxos := scan_all unspent_boxes tokens_info in
  let n := Z.of_nat (length recipient_wallets) in
  (forall plan, run <> Distributed plan) /\
  (NoDup (node_box_id <$> unspent_boxes) ->
   (forall b t a, b ∈ unspent_boxes -> (t, a) ∈ node_box_tokens b -> 0 <= a) ->
   forall ds,
     calculate_token_distributions libm all_utxos tokens_info current_round n = Ok ds ->
     ds <> [] ->
     let st := two_pass_selection all_utxos ds in
     run
     = if total_erg st <? needed_erg n
       then SelectionFailed (Raised (InsufficientERG (needed_erg n) (total_erg st)))
       else if stale && negb (forallb box_found_rescan (elements (box_ids st)))
       then SelectionFailed BoxNoLongerAvailable
       else PlanningError AttributeError).
Proof.
  intros run all_utxos n. split.
  - intros plan. unfold run, cycle. fold all_utxos. fold n.
    destruct all_utxos as [| entry rest]; [done |].
    destruct (calculate_token_distributions _ _ _ _ _) as [[| d ds] | e]; [done | | done].
    destruct (select_utxos _ _ _) as [utxo_set | e]; [| by destruct (is_value_error _)].
    unfold execute_selection.
    destruct (_ && _); [done |]. by destruct (negb _).
  - intros Hnd Hnn ds Hds Hsome st.
    assert (Hn : 0 < n).
    { destruct (Z.eq_dec n 0) as [Hz | ?]; [| unfold n in *; lia]. exfalso.
      rewrite Hz in Hds. unfold calculate_token_distributions in Hds.
      assert (Hloop : forall cfgs acc,
                calculate_loop libm all_utxos cfgs current_round 0 acc = Ok ds ->
                ds = acc).
      { induction cfgs as [| [name cfg] cfgs IH]; intros acc; simpl; [by intros [= <-] |].
        destruct (get_utxos all_utxos (config_token_id cfg)); [apply IH |].
        destruct (_ =? 0); [apply IH |].
        by destruct (round_amount libm cfg current_round). }
      by apply Hloop in Hds. }
    pose proof Hds as Hspec. rewrite calculate_is_spec in Hspec by done.
    assert (Hconf : forall d, d ∈ ds ->
              (exists name cfg, (name, cfg) ∈ tokens_info /\ token_id d = config_token_id cfg) /\
              0 < total_amount d
                <= total_available (get_utxos all_utxos (token_id d)) (token_id d)).
    { intros d Hd.
      destruct (distributions_spec_entries _ _ _ _ _ _ Hspec d Hd)
        as (name & cfg & amount & Hin & Htid & _ & Hper & Hpos & Htotal).
      split; [by exists name, cfg |]. rewrite Htid.
      pose proof (Z.mul_div_le
                    (Z.min amount (total_available (get_utxos all_utxos (config_token_id cfg))
                                     (config_token_id cfg))) n Hn) as Hle.
      rewrite <- Hper in Hle. nia. }
    destruct (select_utxos_covered all_utxos ds n) as [_ Hsel].
    { apply scan_all_entries. }
    { by apply scan_all_well_listed. }
    { apply scan_all_lists_only_holders. }
    { by apply scan_all_amounts_nonnegative. }
    { intros d Hd. by destruct (Hconf d Hd) as [_ [_ ?]]. }
    fold st in Hsel.
    unfold run, cycle. fold all_utxos. fold n.
    destruct all_utxos as [| entry rest] eqn:Hall.
    { exfalso. destruct ds as [| d ds]; [done |].
      destruct (Hconf d (list_elem_of_here _ _)) as [_ [Hpos Hle]].
      simpl in Hle. change (total_available [] (token_id d)) with 0 in Hle. lia. }
    rewrite Hds. destruct ds as [| d ds']; [done |].
    rewrite Hsel. destruct (total_erg st <? needed_erg n); [done |].
    unfold execute_selection. destruct (_ && _); [done |].
    rewrite names_found_of_configured; [done |].
    intros d' Hd'. by destruct (Hconf d' Hd') as [? _].
Qed.

Lemma cycle_never_distributes_witness :
  cycle libm_down false (fun _ => true) (fun _ => true) node_boxes_AB tokens_info_AB 1
    ["r1"; "r2"]
  = PlanningError AttributeError.
Proof.
  assert (Hnn : forall b t a,
            b ∈ node_boxes_AB -> (t, a) ∈ node_box_tokens b -> 0 <= a).
  { intros b t a Hb Hta. vm_compute in Hb.
    repeat (apply elem_of_cons in Hb as [-> | Hb];
            [simpl in Hta;
             repeat (apply elem_of_cons in Hta as [[= -> ->] | Hta]; [lia |]);
             by apply elem_of_nil in Hta |]).
    by apply elem_of_nil in Hb. }
  assert (Hds : calculate_token_distributions libm_down (scan_all node_boxes_AB tokens_info_AB)
                  tokens_info_AB 1 (Z.of_nat (length ["r1"; "r2"]))
                = Ok [distribution "A" 50 100; distribution "B" 3 6])
    by (vm_compute; reflexivity).
  assert (Hne : [distribution "A" 50 100; distribution "B" 3 6] <> []) by discriminate.
  pose proof (cycle_never_distributes libm_down false (fun _ => true) (fun _ => true)
                node_boxes_AB tokens_info_AB 1 ["r1"; "r2"]) as H.
  cbv zeta in H. destruct H as [_ H].
  rewrite (H node_boxes_AB_distinct Hnn _ Hds Hne). vm_compute. reflexivity.
Defined.
